(** * kaitalk voice client: audio codec, playback scheduling and transcript

    A shallow embedding of [src/index.tsx].  The file has two halves:

    - the audio utility functions [encode], [decode], [decodeAudioData]
      and [createBlob], together with the two platform functions they
      call ([btoa] and [atob], modelled after the HTML standard's
      forgiving-base64 algorithms);
    - the [App] component: its state cells (React state and refs), the
      event handlers [startSession], [onopen], [onmessage], [onerror],
      [onclose] and [stopSession], and the traces they generate.

    Modelling conventions.

    - A sample is a rational ([Q]): every float operation of the codec
      path is exact on its inputs (multiplying or dividing by 32768, a
      power of two, and storing a 16-bit integer over 32768 in a
      Float32Array).  A time is a [Number]: a binary64 value, on which
      [+=] rounds to nearest, ties to even ([Double.fl]).  The exponent
      range of binary64 is not modelled (no infinities, no NaN): the
      times of the program are seconds of audio, far inside it.
    - A [Uint8Array] is a [list byte]; an [Int16Array] is a [list Z] whose
      entries are in the signed 16-bit range; a binary string and a base64
      string are [string]s (8-bit characters).
    - Objects with identity (audio contexts, streams, nodes, the session
      promise) are handles; the calls the handlers make on them are
      recorded in an effect log, in program order.
    - Every handler runs to completion before the next event is
      delivered.  An updater function passed to [setTranscripts] is
      queued; React runs it after the handler's own code and before the
      next event, and the refs it reads are read then. *)

From Stdlib Require Import ZArith NArith QArith Qround Qabs Qpower Qreduction.
From Stdlib Require Import Qring List String Ascii Strings.Byte Bool Lia Lqa.
Import ListNotations.

Local Open Scope string_scope.

(** ** Platform: base64 (btoa / atob) *)

Module Base64.

Local Open Scope N_scope.

Definition alphabet : list ascii :=
  list_ascii_of_string
    "ABCDEFGHIJKLMNOPQRSTUVWXYZabcdefghijklmnopqrstuvwxyz0123456789+/".

Definition pad : ascii := "="%char.

(** The character of a 6-bit group. *)
Definition char_of_sextet (n : N) : ascii :=
  nth (N.to_nat n) alphabet pad.

Fixpoint index_from (i : N) (c : ascii) (l : list ascii) : option N :=
  match l with
  | [] => None
  | x :: r => if Ascii.eqb x c then Some i else index_from (N.succ i) c r
  end.

(** The 6-bit group of a character, when it is in the alphabet. *)
Definition sextet_of_char (c : ascii) : option N :=
  index_from 0 c alphabet.

(** The code units [btoa] accepts. *)
Definition octet (a : N) : Prop := a < 256.

(** forgiving-base64 encode on the code units of a binary string: three
    octets give four characters, a short last group is padded. *)
Fixpoint encode_units (l : list N) : list ascii :=
  match l with
  | [] => []
  | [a] =>
      [char_of_sextet (a / 4); char_of_sextet ((a mod 4) * 16); pad; pad]
  | [a; b] =>
      [char_of_sextet (a / 4);
       char_of_sextet ((a mod 4) * 16 + b / 16);
       char_of_sextet ((b mod 16) * 4); pad]
  | a :: b :: c :: r =>
      char_of_sextet (a / 4)
      :: char_of_sextet ((a mod 4) * 16 + b / 16)
      :: char_of_sextet ((b mod 16) * 4 + c / 64)
      :: char_of_sextet (c mod 64)
      :: encode_units r
  end.

(** [btoa]: it throws on a code unit above 255, which a [string] of 8-bit
    characters cannot hold, so the model is total. *)
Definition btoa (binary : string) : string :=
  string_of_list_ascii
    (encode_units (map N_of_ascii (list_ascii_of_string binary))).

(** ASCII whitespace: TAB, LF, FF, CR and SPACE. *)
Definition is_whitespace (c : ascii) : bool :=
  let n := N_of_ascii c in
  (n =? 9) || (n =? 10) || (n =? 12) || (n =? 13) || (n =? 32).

(** Remove one or two trailing padding characters. *)
Fixpoint strip_padding (l : list ascii) : list ascii :=
  match l with
  | [] => []
  | c :: r =>
      if Ascii.eqb c pad then
        match r with
        | [] => []
        | [d] => if Ascii.eqb d pad then [] else c :: strip_padding r
        | _ => c :: strip_padding r
        end
      else c :: strip_padding r
  end.

Fixpoint sextets_of (l : list ascii) : option (list N) :=
  match l with
  | [] => Some []
  | c :: r =>
      match sextet_of_char c, sextets_of r with
      | Some n, Some ns => Some (n :: ns)
      | _, _ => None
      end
  end.

(** Four 6-bit groups give three octets; a last group of three gives two
    octets and a last group of two gives one (the left-over bits are
    discarded). *)
Fixpoint octets_of (l : list N) : list N :=
  match l with
  | s1 :: s2 :: s3 :: s4 :: r =>
      (s1 * 4 + s2 / 16)
      :: ((s2 mod 16) * 16 + s3 / 4)
      :: ((s3 mod 4) * 64 + s4)
      :: octets_of r
  | [s1; s2; s3] => [s1 * 4 + s2 / 16; (s2 mod 16) * 16 + s3 / 4]
  | [s1; s2] => [s1 * 4 + s2 / 16]
  | _ => []
  end.

(** [atob], the forgiving-base64 decode: [None] is the
    InvalidCharacterError it throws. *)
Definition atob (data : string) : option string :=
  let d := filter (fun c => negb (is_whitespace c))
                  (list_ascii_of_string data) in
  let d := if N.of_nat (List.length d) mod 4 =? 0 then strip_padding d else d in
  if N.of_nat (List.length d) mod 4 =? 1 then None
  else
    match sextets_of d with
    | None => None
    | Some ss => Some (string_of_list_ascii (map ascii_of_N (octets_of ss)))
    end.

End Base64.

(** ** Audio utility functions *)

(** [encode]: the loop appends [String.fromCharCode(bytes[i])] to
    [binary] for each index in turn, then the string goes to [btoa]. *)
Definition encode (bytes : list byte) : string :=
  let binary :=
    fold_left (fun acc b => acc ++ String (ascii_of_byte b) EmptyString)
              bytes EmptyString in
  Base64.btoa binary.

(** [decode]: [atob], then one byte per character code.  [None] when
    [atob] throws. *)
Definition decode (base64 : string) : option (list byte) :=
  match Base64.atob base64 with
  | None => None
  | Some binaryString =>
      Some (map byte_of_ascii (list_ascii_of_string binaryString))
  end.


(** ** Numbers: binary64 *)

Module Double.

Local Open Scope Z_scope.

(** Nearest integer to a/b (b > 0), ties to even. *)
Definition nearestEven (a b : Z) : Z :=
  let f := a / b in
  match 2 * (a mod b) ?= b with
  | Lt => f
  | Gt => f + 1
  | Eq => if Z.even f then f else f + 1
  end.

(** x / 2^e as a fraction of integers, for x = n/d. *)
Definition scaled (n d : positive) (e : Z) : Z * Z :=
  (Zpos n * 2 ^ Z.max 0 (- e), Zpos d * 2 ^ Z.max 0 e).

(** The exponent of the unit in the last place of n/d: the e with
    2^52 <= (n/d) / 2^e < 2^53. *)
Definition ulpExponent (n d : positive) : Z :=
  let e := Z.log2 (Zpos n) - Z.log2 (Zpos d) - 53 in
  let (a, b) := scaled n d e in
  if a <? 2 ^ 53 * b then e else e + 1.

Definition roundPositive (n d : positive) : Q :=
  let e := ulpExponent n d in
  let (a, b) := scaled n d e in
  Qred (inject_Z (nearestEven a b) * 2 ^ e).

(** Round to the nearest binary64 value (53-bit significand), ties to
    even. *)
Definition fl (x : Q) : Q :=
  match Qnum (Qred x) with
  | Z0 => 0%Q
  | Zpos n => roundPositive n (Qden (Qred x))
  | Zneg n => Qred (- roundPositive n (Qden (Qred x)))
  end.

(** The binary64 values: a significand of at most 53 bits times a power
    of two. *)
Definition representable (x : Q) : Prop :=
  exists m e, (Z.abs m <= 2 ^ 53)%Z /\ (x == inject_Z m * 2 ^ e)%Q.

End Double.

(** A JavaScript number that holds a time: a binary64 value, written as
    any rational that rounds to it (the way a numeric literal is). *)
Record Number := Num { literal : Q }.

Definition value (x : Number) : Q := Double.fl (literal x).

Set Warnings "-ambiguous-paths".
Coercion value : Number >-> Q.
Coercion Num : Q >-> Number.
Set Warnings "ambiguous-paths".
Bind Scope Q_scope with Number.

(** [x + y] on numbers: the exact sum, rounded. *)
Definition Number_add (x y : Number) : Number := Num (value x + value y).

(** ** Typed arrays and number conversions *)

Local Open Scope Z_scope.

Definition Z_of_byte (b : byte) : Z := Z.of_N (Byte.to_N b).

(** Storing an integer in a [Uint8Array] keeps its low eight bits. *)
Definition byte_of_Z (z : Z) : byte :=
  byte_of_ascii (ascii_of_N (Z.to_N (z mod 256))).

(** Truncation toward zero. *)
Definition Qtruncate (x : Q) : Z := Z.quot (Qnum x) (Zpos (Qden x)).

(** Reduction modulo 2^16 into the signed 16-bit range. *)
Definition wrap_int16 (z : Z) : Z :=
  let u := z mod 65536 in
  if u <? 32768 then u else u - 65536.

(** The conversion applied when a (finite) number is stored in an
    [Int16Array]: truncate, then wrap. *)
Definition ToInt16 (x : Q) : Z := wrap_int16 (Qtruncate x).

(** [new Uint8Array(int16.buffer)]: two bytes per element, low byte
    first (the byte order of the platforms the client runs on; the view
    in [decodeAudioData] reads with the same order). *)
Definition bytes_of_int16 (v : Z) : list byte :=
  [byte_of_Z v; byte_of_Z (v / 256)].

Definition Uint8Array_of_Int16Array (a : list Z) : list byte :=
  flat_map bytes_of_int16 a.

(** [new Int16Array(data.buffer)]: a RangeError ([None]) when the byte
    length is odd. *)
Fixpoint Int16Array_of_buffer (data : list byte) : option (list Z) :=
  match data with
  | [] => Some []
  | [_] => None
  | lo :: hi :: r =>
      match Int16Array_of_buffer r with
      | None => None
      | Some a => Some (wrap_int16 (Z_of_byte lo + 256 * Z_of_byte hi) :: a)
      end
  end.

Definition Handle := nat.

Record AudioBuffer := {
  numberOfChannels : nat;
  frames : nat;
  sampleRate : positive;
  channelData : list (list Q)
}.

(** [audioBuffer.duration], in seconds: the number nearest to
    [length / sampleRate]. *)
Definition duration (b : AudioBuffer) : Number :=
  Num (Z.of_nat (frames b) # sampleRate b).

(** The buffer shapes an implementation's [createBuffer] accepts, by
    channel count and sample rate. *)
Definition CreateBufferSupport : Type := nat -> positive -> bool.

(** The shapes the Web Audio standard requires every implementation to
    accept: 1 to 32 channels, 8000 to 96000 Hz. *)
Definition requiredSupport : CreateBufferSupport :=
  fun numChannels rate =>
    ((1 <=? numChannels)%nat && (numChannels <=? 32)%nat
     && (8000 <=? rate)%positive && (rate <=? 96000)%positive)%bool.

(** [decodeAudioData], on an implementation whose [createBuffer] accepts
    the shapes [supports].  [None] stands for the rejected promise: the
    RangeError of the [Int16Array] view, or the NotSupportedError of
    [createBuffer] for zero channels, zero frames, or a channel count or
    rate the implementation does not support. *)
Definition decodeAudioData (supports : CreateBufferSupport)
    (data : list byte) (ctx : Handle)
    (rate : positive) (numChannels : nat) : option AudioBuffer :=
  match Int16Array_of_buffer data with
  | None => None
  | Some dataInt16 =>
      let frameCount := (List.length dataInt16 / numChannels)%nat in
      if ((numChannels =? 0)%nat || (frameCount =? 0)%nat
          || negb (supports numChannels rate))%bool then None
      else
        Some {| numberOfChannels := numChannels;
                frames := frameCount;
                sampleRate := rate;
                channelData :=
                  map (fun channel =>
                         map (fun i =>
                                (inject_Z
                                   (nth (i * numChannels + channel)%nat
                                        dataInt16 0%Z) / 32768)%Q)
                             (seq 0 frameCount))
                      (seq 0 numChannels) |}
  end.

Record Blob := { data : string; mimeType : string }.

(** [createBlob]: each sample times 32768 is stored in an [Int16Array],
    whose bytes are base64-encoded. *)
Definition createBlob (samples : list Q) : Blob :=
  let int16 := map (fun x => ToInt16 (x * 32768)%Q) samples in
  {| data := encode (Uint8Array_of_Int16Array int16);
     mimeType := "audio/pcm;rate=16000" |}.

(** The inbound path on one payload, as [onmessage] runs it: one
    channel at 24000 Hz, a shape every implementation accepts, so the
    result does not depend on the implementation. *)
Definition decodePayload (base64Audio : string) (ctx : Handle)
  : option AudioBuffer :=
  match decode base64Audio with
  | None => None
  | Some bytes => decodeAudioData requiredSupport bytes ctx 24000 1
  end.

(** ** The App component: state *)

Inductive Speaker := user | ai.

Definition Speaker_eqb (a b : Speaker) : bool :=
  match a, b with
  | user, user | ai, ai => true
  | _, _ => false
  end.

Record Transcript := { speaker : Speaker; text : string }.

(** An [AudioBufferSourceNode] that has been started: its identity, its
    buffer and the time given to [start]. *)
Record SourceNode := {
  node_id : nat;
  buffer : AudioBuffer;
  startTime : Number
}.

Record App := {
  isSessionActive : bool;
  transcripts : list Transcript;
  status : string;
  currentInputRef : string;
  currentOutputRef : string;
  sessionPromiseRef : option Handle;
  mediaStreamRef : option Handle;
  inputAudioContextRef : option Handle;
  outputAudioContextRef : option Handle;
  scriptProcessorRef : option Handle;
  mediaStreamSourceRef : option Handle;
  nextStartTimeRef : Number;
  sourcesRef : list SourceNode;   (* a Set, in insertion order *)
  created : nat                   (* source nodes created so far *)
}.

(** The component as first rendered. *)
Definition mount : App :=
  {| isSessionActive := false;
     transcripts := [];
     status := "Welcome to kaitalk! Select a voice and press Start.";
     currentInputRef := "";
     currentOutputRef := "";
     sessionPromiseRef := None;
     mediaStreamRef := None;
     inputAudioContextRef := None;
     outputAudioContextRef := None;
     scriptProcessorRef := None;
     mediaStreamSourceRef := None;
     nextStartTimeRef := 0%Q;
     sourcesRef := [];
     created := 0 |}.

(** Calls made on the platform, in program order. *)
Inductive Effect :=
| SourceStart (source : SourceNode)     (* source.start(startTime) *)
| SourceStop (id : nat)                 (* source.stop() *)
| SessionClose (promise : Handle)       (* promise.then(s => s.close()) *)
| TracksStop (stream : Handle)          (* getTracks().forEach(stop) *)
| Disconnect (node : Handle)            (* node.disconnect() *)
| ContextClose (ctx : Handle)           (* ctx.close() *)
| SendRealtimeInput (promise : Handle) (media : Blob).

Inductive Completion := Normal | Throws.

Record Outcome := {
  after : App;
  effects : list Effect;
  completion : Completion
}.

(** ** Inbound messages *)

(** [serverContent.modelTurn]: absent, present without a [parts] array
    (indexing it is a TypeError), or present with the [inlineData.data]
    of its first part, if any. *)
Inductive ModelTurn :=
| NoModelTurn
| NoParts
| FirstPart (inlineData : option string).

(** The fields of [serverContent] the handler reads.  A transcription
    object carries an optional [text]. *)
Record LiveServerMessage := {
  outputTranscription : option (option string);
  inputTranscription : option (option string);
  turnComplete : bool;
  modelTurn : ModelTurn;
  interrupted : bool
}.

(** [buf += text]: an undefined [text] is appended as the string
    "undefined". *)
Definition append_text (buf : string) (fragment : option string) : string :=
  buf ++ match fragment with Some t => t | None => "undefined" end.

(** [prev[prev.length - 1]]. *)
Definition last_entry (prev : list Transcript) : option Transcript :=
  nth_error prev (List.length prev - 1).

(** [prev.slice(0, -1)]. *)
Definition slice_init (prev : list Transcript) : list Transcript :=
  firstn (List.length prev - 1) prev.

(** The updater given to [setTranscripts]; the two branches of the source
    differ only in the speaker. *)
Definition updateTranscripts (who : Speaker) (buf : string)
    (prev : list Transcript) : list Transcript :=
  match last_entry prev with
  | Some l =>
      if Speaker_eqb (speaker l) who
      then slice_init prev ++ [{| speaker := who; text := buf |}]
      else prev ++ [{| speaker := who; text := buf |}]
  | None => prev ++ [{| speaker := who; text := buf |}]
  end.

(** [Math.max] on two numbers. *)
Definition Math_max (a b : Number) : Number :=
  if Qle_bool a b then b else a.

(** The accumulation buffer of a speaker. *)
Definition bufferOf (who : Speaker) (s : App) : string :=
  match who with
  | user => currentInputRef s
  | ai => currentOutputRef s
  end.

(** The transcription block of [onmessage]: the fragment is appended to
    the speaker's ref, and an updater function is handed to
    [setTranscripts] (see [queuedUpdater] and [runUpdater]). *)
Definition onTranscription (m : LiveServerMessage) (s : App) : App :=
  match outputTranscription m with
  | Some fragment =>
      {| isSessionActive := isSessionActive s;
         transcripts := transcripts s;
         status := status s;
         currentInputRef := currentInputRef s;
         currentOutputRef := append_text (currentOutputRef s) fragment;
         sessionPromiseRef := sessionPromiseRef s;
         mediaStreamRef := mediaStreamRef s;
         inputAudioContextRef := inputAudioContextRef s;
         outputAudioContextRef := outputAudioContextRef s;
         scriptProcessorRef := scriptProcessorRef s;
         mediaStreamSourceRef := mediaStreamSourceRef s;
         nextStartTimeRef := nextStartTimeRef s;
         sourcesRef := sourcesRef s;
         created := created s |}
  | None =>
      match inputTranscription m with
      | Some fragment =>
          {| isSessionActive := isSessionActive s;
             transcripts := transcripts s;
             status := status s;
             currentInputRef := append_text (currentInputRef s) fragment;
             currentOutputRef := currentOutputRef s;
             sessionPromiseRef := sessionPromiseRef s;
             mediaStreamRef := mediaStreamRef s;
             inputAudioContextRef := inputAudioContextRef s;
             outputAudioContextRef := outputAudioContextRef s;
             scriptProcessorRef := scriptProcessorRef s;
             mediaStreamSourceRef := mediaStreamSourceRef s;
             nextStartTimeRef := nextStartTimeRef s;
             sourcesRef := sourcesRef s;
             created := created s |}
      | None => s
      end
  end.

(** The updater the transcription block queues, named by the speaker
    whose ref its closure reads: the agent's when the message has an
    output transcription, else the user's when it has an input
    transcription. *)
Definition queuedUpdater (m : LiveServerMessage) : option Speaker :=
  match outputTranscription m with
  | Some _ => Some ai
  | None =>
      match inputTranscription m with
      | Some _ => Some user
      | None => None
      end
  end.

(** React running a queued updater: [updateTranscripts] on the committed
    transcript, with the speaker's ref as it is at that time. *)
Definition runUpdater (queued : option Speaker) (s : App) : App :=
  match queued with
  | None => s
  | Some who =>
      {| isSessionActive := isSessionActive s;
         transcripts :=
           updateTranscripts who (bufferOf who s) (transcripts s);
         status := status s;
         currentInputRef := currentInputRef s;
         currentOutputRef := currentOutputRef s;
         sessionPromiseRef := sessionPromiseRef s;
         mediaStreamRef := mediaStreamRef s;
         inputAudioContextRef := inputAudioContextRef s;
         outputAudioContextRef := outputAudioContextRef s;
         scriptProcessorRef := scriptProcessorRef s;
         mediaStreamSourceRef := mediaStreamSourceRef s;
         nextStartTimeRef := nextStartTimeRef s;
         sourcesRef := sourcesRef s;
         created := created s |}
  end.

Definition onTurnComplete (m : LiveServerMessage) (s : App) : App :=
  if turnComplete m then
    {| isSessionActive := isSessionActive s;
       transcripts := transcripts s;
       status := status s;
       currentInputRef := "";
       currentOutputRef := "";
       sessionPromiseRef := sessionPromiseRef s;
       mediaStreamRef := mediaStreamRef s;
       inputAudioContextRef := inputAudioContextRef s;
       outputAudioContextRef := outputAudioContextRef s;
       scriptProcessorRef := scriptProcessorRef s;
       mediaStreamSourceRef := mediaStreamSourceRef s;
       nextStartTimeRef := nextStartTimeRef s;
       sourcesRef := sourcesRef s;
       created := created s |}
  else s.

(** Writing the two scheduler cells. *)
Definition with_playback (cursor : Number) (live : list SourceNode) (n : nat)
    (s : App) : App :=
  {| isSessionActive := isSessionActive s;
     transcripts := transcripts s;
     status := status s;
     currentInputRef := currentInputRef s;
     currentOutputRef := currentOutputRef s;
     sessionPromiseRef := sessionPromiseRef s;
     mediaStreamRef := mediaStreamRef s;
     inputAudioContextRef := inputAudioContextRef s;
     outputAudioContextRef := outputAudioContextRef s;
     scriptProcessorRef := scriptProcessorRef s;
     mediaStreamSourceRef := mediaStreamSourceRef s;
     nextStartTimeRef := cursor;
     sourcesRef := live;
     created := n |}.

(** The [interrupted] block, which ends the handler. *)
Definition onInterrupted (m : LiveServerMessage) (s : App)
    (done : list Effect) : Outcome :=
  if interrupted m then
    {| after := with_playback 0%Q [] (created s) s;
       effects := done ++ map (fun source => SourceStop (node_id source))
                              (sourcesRef s);
       completion := Normal |}
  else {| after := s; effects := done; completion := Normal |}.

(** The audio block.  [currentTime] is the reading of
    [outputAudioContext.currentTime] taken on line 152. *)
Definition onAudio (currentTime : Number) (m : LiveServerMessage)
    (s : App) : Outcome :=
  match modelTurn m with
  | NoParts => {| after := s; effects := []; completion := Throws |}
  | NoModelTurn => onInterrupted m s []
  | FirstPart None => onInterrupted m s []
  | FirstPart (Some base64Audio) =>
      match outputAudioContextRef s with
      | None => onInterrupted m s []
      | Some outputAudioContext =>
          if String.eqb base64Audio "" then onInterrupted m s []
          else
            let s1 :=
              with_playback (Math_max (nextStartTimeRef s) currentTime)
                            (sourcesRef s) (created s) s in
            match decodePayload base64Audio outputAudioContext with
            | None => {| after := s1; effects := []; completion := Throws |}
            | Some audioBuffer =>
                let source :=
                  {| node_id := created s1;
                     buffer := audioBuffer;
                     startTime := nextStartTimeRef s1 |} in
                let s2 :=
                  with_playback
                    (Number_add (nextStartTimeRef s1) (duration audioBuffer))
                    (sourcesRef s1 ++ [source]) (S (created s1)) s1 in
                onInterrupted m s2 [SourceStart source]
            end
      end
  end.

(** [onmessage]: the handler's own code, then the queued updater.  The
    updater runs whether the handler returned or threw. *)
Definition onmessage (currentTime : Number) (m : LiveServerMessage)
    (s : App) : Outcome :=
  let o := onAudio currentTime m (onTurnComplete m (onTranscription m s)) in
  {| after := runUpdater (queuedUpdater m) (after o);
     effects := effects o;
     completion := completion o |}.

(** ** Session lifecycle *)

(** [stopSession].  [active] is the value of [isSessionActive] that the
    closure being called has captured (the refs are read live). *)
Definition stopSession (active : bool) (s : App) : Outcome :=
  match active, sessionPromiseRef s with
  | false, None => {| after := s; effects := []; completion := Normal |}
  | _, _ =>
      let release (mk : Handle -> Effect) (r : option Handle) :=
        match r with Some h => [mk h] | None => [] end in
      {| after :=
           {| isSessionActive := false;
              transcripts := transcripts s;
              status := "Session stopped. Press Start to talk again.";
              currentInputRef := currentInputRef s;
              currentOutputRef := currentOutputRef s;
              sessionPromiseRef := None;
              mediaStreamRef := None;
              inputAudioContextRef := None;
              outputAudioContextRef := None;
              scriptProcessorRef := None;
              mediaStreamSourceRef := None;
              nextStartTimeRef := nextStartTimeRef s;
              sourcesRef := [];
              created := created s |};
         effects :=
           release SessionClose (sessionPromiseRef s)
           ++ release TracksStop (mediaStreamRef s)
           ++ release Disconnect (scriptProcessorRef s)
           ++ release Disconnect (mediaStreamSourceRef s)
           ++ release ContextClose (inputAudioContextRef s)
           ++ release ContextClose (outputAudioContextRef s)
           ++ map (fun source => SourceStop (node_id source)) (sourcesRef s);
         completion := Normal |}
  end.

(** What the platform does inside the [try] of [startSession]: a
    constructor throws, or the output context is created and [connect]
    returns the session promise.  [connect] is asynchronous and is not
    awaited: its failures arrive through [onerror] and [onclose]. *)
Inductive StartEnv :=
| ConstructorThrows
| Connects (outputAudioContext sessionPromise : Handle).

(** [startSession]. *)
Definition startSession (env : StartEnv) (s : App) : Outcome :=
  match env with
  | ConstructorThrows =>
      {| after :=
           {| isSessionActive := false;
              transcripts := [];
              status := "Failed to start. Check permissions and console.";
              currentInputRef := "";
              currentOutputRef := "";
              sessionPromiseRef := sessionPromiseRef s;
              mediaStreamRef := mediaStreamRef s;
              inputAudioContextRef := inputAudioContextRef s;
              outputAudioContextRef := outputAudioContextRef s;
              scriptProcessorRef := scriptProcessorRef s;
              mediaStreamSourceRef := mediaStreamSourceRef s;
              nextStartTimeRef := nextStartTimeRef s;
              sourcesRef := sourcesRef s;
              created := created s |};
         effects := [];
         completion := Normal |}
  | Connects outputAudioContext sessionPromise =>
      {| after :=
           {| isSessionActive := isSessionActive s;
              transcripts := [];
              status := "Connecting...";
              currentInputRef := "";
              currentOutputRef := "";
              sessionPromiseRef := Some sessionPromise;
              mediaStreamRef := mediaStreamRef s;
              inputAudioContextRef := inputAudioContextRef s;
              outputAudioContextRef := Some outputAudioContext;
              scriptProcessorRef := scriptProcessorRef s;
              mediaStreamSourceRef := mediaStreamSourceRef s;
              nextStartTimeRef := 0%Q;
              sourcesRef := [];
              created := created s |};
         effects := [];
         completion := Normal |}
  end.

(** How far [onopen] gets.  It sets the status line, then acquires the
    four capture handles one at a time, writing each ref as it goes:
    [getUserMedia] may reject, and the [AudioContext] constructor,
    [createMediaStreamSource] and [createScriptProcessor] may throw, each
    leaving the refs written before it. *)
Inductive OpenEnv :=
| MediaDenied
| InputContextThrows (mediaStream : Handle)
| MediaStreamSourceThrows (mediaStream inputAudioContext : Handle)
| ScriptProcessorThrows (mediaStream inputAudioContext mediaStreamSource
                         : Handle)
| MediaGranted (mediaStream inputAudioContext mediaStreamSource
                scriptProcessor : Handle).

(** The refs [onopen] has written when it stops, in the order of the
    source: media stream, input context, media-stream source, script
    processor. *)
Definition acquired (env : OpenEnv) : list Handle :=
  match env with
  | MediaDenied => []
  | InputContextThrows m => [m]
  | MediaStreamSourceThrows m i => [m; i]
  | ScriptProcessorThrows m i src => [m; i; src]
  | MediaGranted m i src proc => [m; i; src; proc]
  end.

(** [r = h] when the k-th handle was acquired. *)
Definition written (k : nat) (env : OpenEnv) (r : option Handle)
  : option Handle :=
  match nth_error (acquired env) k with
  | Some h => Some h
  | None => r
  end.

(** The [onopen] callback. *)
Definition onopen (env : OpenEnv) (s : App) : Outcome :=
  match env with
  | MediaGranted mediaStream inputAudioContext mediaStreamSource
                 scriptProcessor =>
      {| after :=
           {| isSessionActive := true;
              transcripts := transcripts s;
              status := "Listening... Speak now!";
              currentInputRef := currentInputRef s;
              currentOutputRef := currentOutputRef s;
              sessionPromiseRef := sessionPromiseRef s;
              mediaStreamRef := Some mediaStream;
              inputAudioContextRef := Some inputAudioContext;
              outputAudioContextRef := outputAudioContextRef s;
              scriptProcessorRef := Some scriptProcessor;
              mediaStreamSourceRef := Some mediaStreamSource;
              nextStartTimeRef := nextStartTimeRef s;
              sourcesRef := sourcesRef s;
              created := created s |};
         effects := [];
         completion := Normal |}
  | _ =>
      {| after :=
           {| isSessionActive := isSessionActive s;
              transcripts := transcripts s;
              status := "Microphone access...";
              currentInputRef := currentInputRef s;
              currentOutputRef := currentOutputRef s;
              sessionPromiseRef := sessionPromiseRef s;
              mediaStreamRef := written 0 env (mediaStreamRef s);
              inputAudioContextRef := written 1 env (inputAudioContextRef s);
              outputAudioContextRef := outputAudioContextRef s;
              scriptProcessorRef := scriptProcessorRef s;
              mediaStreamSourceRef := written 2 env (mediaStreamSourceRef s);
              nextStartTimeRef := nextStartTimeRef s;
              sourcesRef := sourcesRef s;
              created := created s |};
         effects := [];
         completion := Throws |}
  end.

(** The [onaudioprocess] callback of the script processor. *)
Definition onaudioprocess (inputData : list Q) (s : App) : Outcome :=
  let pcmBlob := createBlob inputData in
  {| after := s;
     effects := match sessionPromiseRef s with
                | Some p => [SendRealtimeInput p pcmBlob]
                | None => []
                end;
     completion := Normal |}.

(** The ['ended'] listener of a source: [sourcesRef.current.delete]. *)
Definition onended (id : nat) (s : App) : Outcome :=
  {| after :=
       with_playback (nextStartTimeRef s)
         (filter (fun source => negb (Nat.eqb (node_id source) id))
                 (sourcesRef s))
         (created s) s;
     effects := [];
     completion := Normal |}.

(** The [onerror] callback: a status line, then [stopSession]. *)
Definition onerror (active : bool) (message : string) (s : App) : Outcome :=
  stopSession active
    {| isSessionActive := isSessionActive s;
       transcripts := transcripts s;
       status := "Error: " ++ message ++ ". Please try again.";
       currentInputRef := currentInputRef s;
       currentOutputRef := currentOutputRef s;
       sessionPromiseRef := sessionPromiseRef s;
       mediaStreamRef := mediaStreamRef s;
       inputAudioContextRef := inputAudioContextRef s;
       outputAudioContextRef := outputAudioContextRef s;
       scriptProcessorRef := scriptProcessorRef s;
       mediaStreamSourceRef := mediaStreamSourceRef s;
       nextStartTimeRef := nextStartTimeRef s;
       sourcesRef := sourcesRef s;
       created := created s |}.

(** The [onclose] callback. *)
Definition onclose (active : bool) (s : App) : Outcome :=
  stopSession active s.

(** [handleToggleSession], called from the current render. *)
Definition handleToggleSession (env : StartEnv) (s : App) : Outcome :=
  if isSessionActive s then stopSession true s else startSession env s.

(** ** Events and runs *)

Inductive Event :=
| Toggle (env : StartEnv)
| Open (env : OpenEnv)
| AudioProcess (inputData : list Q)
| Message (currentTime : Number) (m : LiveServerMessage)
| Ended (id : nat)
| Error (active : bool) (message : string)
| Close (active : bool)
| Unmount (active : bool).

Definition handle (e : Event) (s : App) : Outcome :=
  match e with
  | Toggle env => handleToggleSession env s
  | Open env => onopen env s
  | AudioProcess inputData => onaudioprocess inputData s
  | Message currentTime m => onmessage currentTime m s
  | Ended id => onended id s
  | Error active message => onerror active message s
  | Close active => onclose active s
  | Unmount active => stopSession active s
  end.

(** A run delivers the events in order; a handler that throws keeps the
    writes it made, and the next event is still delivered. *)
Fixpoint run (es : list Event) (s : App) : App * list Effect :=
  match es with
  | [] => (s, [])
  | e :: r =>
      let o := handle e s in
      let (s', log) := run r (after o) in
      (s', (effects o ++ log)%list)
  end.

Inductive reachable : App -> Prop :=
| reachable_mount : reachable mount
| reachable_step e s : reachable s -> reachable (after (handle e s)).

(** The message kinds of the wire protocol. *)
Definition audio_delta (base64Audio : string) : LiveServerMessage :=
  {| outputTranscription := None;
     inputTranscription := None;
     turnComplete := false;
     modelTurn := FirstPart (Some base64Audio);
     interrupted := false |}.

Definition transcription_delta (who : Speaker) (fragment : string)
  : LiveServerMessage :=
  {| outputTranscription :=
       match who with ai => Some (Some fragment) | user => None end;
     inputTranscription :=
       match who with user => Some (Some fragment) | ai => None end;
     turnComplete := false;
     modelTurn := NoModelTurn;
     interrupted := false |}.

Definition turn_complete : LiveServerMessage :=
  {| outputTranscription := None;
     inputTranscription := None;
     turnComplete := true;
     modelTurn := NoModelTurn;
     interrupted := false |}.

Definition barge_in : LiveServerMessage :=
  {| outputTranscription := None;
     inputTranscription := None;
     turnComplete := false;
     modelTurn := NoModelTurn;
     interrupted := true |}.

(** ** Derived notions used in the statements *)

(** The signed 16-bit range. *)
Definition int16 (v : Z) : Prop := -32768 <= v < 32768.

(** The capture encoder followed by the inbound decode path: the channels
    of the buffer decoded from the blob of [samples]. *)
Definition roundTrip (samples : list Q) (ctx : Handle)
  : option (list (list Q)) :=
  option_map channelData (decodePayload (data (createBlob samples)) ctx).

(** The state a transcription-delta message leaves: the fragment
    appended to the speaker's ref, then the queued updater run. *)
Definition afterFragment (who : Speaker) (fragment : string) (s : App)
  : App :=
  runUpdater (Some who)
             (onTranscription (transcription_delta who fragment) s).

(** No two consecutive entries of the transcript have the same speaker. *)
Fixpoint alternating (l : list Transcript) : bool :=
  match l with
  | [] => true
  | a :: r =>
      match r with
      | [] => true
      | b :: _ => negb (Speaker_eqb (speaker a) (speaker b)) && alternating r
      end
  end.

(** The speaker of the last entry is not [who] (or there is no entry). *)
Definition last_not (who : Speaker) (prev : list Transcript) : bool :=
  match last_entry prev with
  | Some l => negb (Speaker_eqb (speaker l) who)
  | None => true
  end.

(** The end of a scheduled unit on the output clock: its start plus its
    duration, exactly. *)
Definition endTime (n : SourceNode) : Q :=
  (startTime n + duration (buffer n))%Q.

(** The end of a unit as the program computes it: the cursor written
    when the unit is scheduled. *)
Definition scheduledEnd (n : SourceNode) : Number :=
  Number_add (startTime n) (duration (buffer n)).

(** The units a log schedules, in order. *)
Definition scheduled (log : list Effect) : list SourceNode :=
  flat_map (fun e => match e with SourceStart n => [n] | _ => [] end) log.

(** The sources a log stops, in order. *)
Definition stopped (log : list Effect) : list nat :=
  flat_map (fun e => match e with SourceStop id => [id] | _ => [] end) log.

(** The exact sum of a list of values. *)
Definition Qsum (l : list Q) : Q := fold_right Qplus 0%Q l.

(** The running sum the program computes: from 0, each number added in
    turn, rounding at every step. *)
Definition runningSum (l : list Number) : Number :=
  fold_left Number_add l (Num 0).

(** The duration a payload decodes to. *)
Definition payloadDuration (ctx : Handle) (base64Audio : string) : Number :=
  match decodePayload base64Audio ctx with
  | Some b => duration b
  | None => Num 0
  end.

(** A payload the audio block accepts: a non-empty string that decodes. *)
Definition playable (ctx : Handle) (base64Audio : string) : Prop :=
  base64Audio <> "" /\ decodePayload base64Audio ctx <> None.

(** Inbound audio frames, each with the clock reading at its arrival. *)
Definition Frame : Type := Number * string.

Definition audioEvents (fs : list Frame) : list Event :=
  map (fun f => Message (fst f) (audio_delta (snd f))) fs.

(** The clock reading of each frame is at most the running sum of [c]
    and the durations of the frames before it. *)
Fixpoint clockBehind (ctx : Handle) (c : Number) (fs : list Frame) : Prop :=
  match fs with
  | [] => True
  | (now, p) :: r =>
      (now <= c)%Q
      /\ clockBehind ctx (Number_add c (payloadDuration ctx p)) r
  end.

(** Back to back from time [t]: each unit starts at the end the program
    computed for the one before it. *)
Fixpoint gapless (t : Q) (units : list SourceNode) : Prop :=
  match units with
  | [] => True
  | n :: r => (startTime n == t)%Q /\ gapless (scheduledEnd n) r
  end.

Definition durations (units : list SourceNode) : list Number :=
  map (fun n => duration (buffer n)) units.

(** Every handle is null and the live set is empty. *)
Definition released (s : App) : Prop :=
  sessionPromiseRef s = None
  /\ mediaStreamRef s = None
  /\ scriptProcessorRef s = None
  /\ mediaStreamSourceRef s = None
  /\ inputAudioContextRef s = None
  /\ outputAudioContextRef s = None
  /\ sourcesRef s = [].

(** The guard of [stopSession]: not active and no pending session. *)
Definition idle (active : bool) (s : App) : Prop :=
  active = false /\ sessionPromiseRef s = None.

(** The events that write 0 to the cursor: a start that connects, and a
    message with the [interrupted] flag. *)
Definition resetsCursor (e : Event) (s : App) : Prop :=
  match e with
  | Toggle (Connects _ _) => isSessionActive s = false
  | Message _ m => interrupted m = true
  | _ => False
  end.

(** ** Further notions: runs, invariants and the rendered view *)

(** Transcription fragments of one speaker, each with the clock reading
    at its arrival. *)
Definition fragmentEvents (who : Speaker) (fs : list (Q * string))
  : list Event :=
  map (fun f => Message (Num (fst f)) (transcription_delta who (snd f))) fs.

(** The sources of the live set are distinct objects, all created
    earlier. *)
Definition distinctSources (s : App) : Prop :=
  NoDup (map node_id (sourcesRef s))
  /\ Forall (fun n => (node_id n < created s)%nat) (sourcesRef s).

(** The live set is a queue on the output clock: no unit starts before
    the end the program computed for an earlier one, none starts before
    time 0, and the cursor is at or after every computed end. *)
Definition queued (s : App) : Prop :=
  ForallOrdPairs (fun a b => (scheduledEnd a <= startTime b)%Q)
                 (sourcesRef s)
  /\ Forall (fun n => (0 <= startTime n)%Q
                      /\ (scheduledEnd n <= nextStartTimeRef s)%Q)
            (sourcesRef s).

(** The four capture handles set by [onopen]. *)
Definition captureRefs (s : App) : list (option Handle) :=
  [mediaStreamRef s; inputAudioContextRef s; scriptProcessorRef s;
   mediaStreamSourceRef s].

Definition isNull (r : option Handle) : bool :=
  match r with None => true | Some _ => false end.

(** The session promises a run of events connects. *)
Definition connected (es : list Event) : list Handle :=
  flat_map (fun e => match e with
                     | Toggle (Connects _ p) => [p]
                     | _ => []
                     end) es.

(** The session promises a log closes. *)
Definition closed (log : list Effect) : list Handle :=
  flat_map (fun e => match e with SessionClose p => [p] | _ => [] end) log.

(** The callbacks that can still arrive once a session has been torn
    down: everything but the Start/Stop button and [onopen]. *)
Definition lateCallback (e : Event) : bool :=
  match e with
  | Toggle _ | Open _ => false
  | _ => true
  end.

(** The handles and flags a message never writes. *)
Definition sessionCells (s : App)
  : bool * string * list (option Handle) :=
  (isSessionActive s, status s,
   [sessionPromiseRef s; mediaStreamRef s; inputAudioContextRef s;
    outputAudioContextRef s; scriptProcessorRef s; mediaStreamSourceRef s]).

(** The part of the rendered tree that depends on the state: one bubble
    per transcript entry (class name, label, text), the placeholder shown
    for an empty transcript, the button (class name, label), whether the
    voice selector is disabled, and the status line. *)
Record View := {
  bubbles : list (string * string * string);
  placeholder : bool;
  button : string * string;
  selectDisabled : bool;
  statusLine : string
}.

Definition speakerClass (sp : Speaker) : string :=
  match sp with user => "user" | ai => "ai" end.

Definition render (s : App) : View :=
  {| bubbles :=
       map (fun t =>
              (("transcript-bubble " ++ speakerClass (speaker t))%string,
               match speaker t with user => "You" | ai => "Kai" end,
               text t))
           (transcripts s);
     placeholder := (List.length (transcripts s) =? 0)%nat;
     button := if isSessionActive s
               then ("stop-button", "Stop")
               else ("start-button", "Start");
     selectDisabled := isSessionActive s;
     statusLine := status s |}.

(** * Properties *)

Local Open Scope list_scope.

(** ** Tactics *)

(** Linear arithmetic with division and remainder by constants. *)
Ltac divlia := zify; Z.to_euclidean_division_equations; lia.

(** ** Rounding to binary64 *)

Section DoubleIntegers.

Import Double.
Local Open Scope Z_scope.

Lemma nearestEven_near a b :
  0 < b -> Z.abs (2 * nearestEven a b * b - 2 * a) <= b.
Proof.
  intro Hb. unfold nearestEven.
  pose proof (Z.div_mod a b ltac:(lia)) as E.
  pose proof (Z.mod_pos_bound a b Hb) as M.
  destruct (Z.compare_spec (2 * (a mod b)) b) as [C|C|C];
    [destruct (Z.even (a / b))| |]; nia.
Qed.

Lemma nearestEven_between a b lo hi :
  0 < b -> lo * b <= a -> a < hi * b ->
  lo <= nearestEven a b <= hi.
Proof.
  intros Hb L H. unfold nearestEven.
  pose proof (Z.div_mod a b ltac:(lia)) as E.
  pose proof (Z.mod_pos_bound a b Hb) as M.
  assert (lo <= a / b) by (apply Z.div_le_lower_bound; lia).
  assert (a / b < hi) by (apply Z.div_lt_upper_bound; lia).
  destruct (Z.compare_spec (2 * (a mod b)) b) as [C|C|C];
    [destruct (Z.even (a / b))| |]; lia.
Qed.

Lemma scaled_positive n d e :
  0 < fst (scaled n d e) /\ 0 < snd (scaled n d e).
Proof.
  unfold scaled. cbn [fst snd].
  assert (0 < 2 ^ Z.max 0 (- e)) by (apply Z.pow_pos_nonneg; lia).
  assert (0 < 2 ^ Z.max 0 e) by (apply Z.pow_pos_nonneg; lia).
  split; nia.
Qed.

Lemma scaled_succ n d e :
  fst (scaled n d e) * snd (scaled n d (e + 1))
  = 2 * fst (scaled n d (e + 1)) * snd (scaled n d e).
Proof.
  unfold scaled. cbn [fst snd].
  destruct (Z_lt_le_dec e 0) as [N|P].
  - replace (Z.max 0 (- e)) with (Z.succ (Z.max 0 (- (e + 1)))) by lia.
    replace (Z.max 0 (e + 1)) with 0 by lia.
    replace (Z.max 0 e) with 0 by lia.
    rewrite Z.pow_succ_r by lia. change (2 ^ 0) with 1. ring.
  - replace (Z.max 0 (- e)) with 0 by lia.
    replace (Z.max 0 (- (e + 1))) with 0 by lia.
    replace (Z.max 0 (e + 1)) with (Z.succ (Z.max 0 e)) by lia.
    rewrite Z.pow_succ_r by lia. change (2 ^ 0) with 1. ring.
Qed.

Lemma scaled_first n d :
  let e := Z.log2 (Zpos n) - Z.log2 (Zpos d) - 53 in
  2 ^ 52 * snd (scaled n d e) < fst (scaled n d e)
  /\ fst (scaled n d e) < 2 ^ 54 * snd (scaled n d e).
Proof.
  cbn zeta.
  destruct (Z.log2_spec (Zpos n) ltac:(lia)) as [Ln Un].
  destruct (Z.log2_spec (Zpos d) ltac:(lia)) as [Ld Ud].
  pose proof (Z.log2_nonneg (Zpos n)) as Nn.
  pose proof (Z.log2_nonneg (Zpos d)) as Nd.
  set (ln := Z.log2 (Zpos n)) in *. set (ld := Z.log2 (Zpos d)) in *.
  rewrite Z.pow_succ_r in Un, Ud by lia.
  unfold scaled. cbn [fst snd].
  destruct (Z_lt_le_dec (ln - ld - 53) 0) as [N|P].
  - replace (Z.max 0 (- (ln - ld - 53))) with (ld + 53 - ln) by lia.
    replace (Z.max 0 (ln - ld - 53)) with 0 by lia.
    assert (2 ^ ln * 2 ^ (ld + 53 - ln) = 2 ^ 53 * 2 ^ ld) as E
        by (rewrite <- !Z.pow_add_r by lia; f_equal; lia).
    assert (0 < 2 ^ (ld + 53 - ln)) by (apply Z.pow_pos_nonneg; lia).
    change (2 ^ 0) with 1. change (2 ^ 52) with 4503599627370496.
    change (2 ^ 54) with 18014398509481984.
    change (2 ^ 53) with 9007199254740992 in E.
    nia.
  - replace (Z.max 0 (- (ln - ld - 53))) with 0 by lia.
    replace (Z.max 0 (ln - ld - 53)) with (ln - ld - 53) by lia.
    assert (2 ^ ld * (2 ^ 53 * 2 ^ (ln - ld - 53)) = 2 ^ ln) as E
        by (rewrite <- !Z.pow_add_r by lia; f_equal; lia).
    assert (0 < 2 ^ (ln - ld - 53)) by (apply Z.pow_pos_nonneg; lia).
    change (2 ^ 0) with 1. change (2 ^ 52) with 4503599627370496.
    change (2 ^ 54) with 18014398509481984.
    change (2 ^ 53) with 9007199254740992 in E.
    nia.
Qed.

Lemma ulpExponent_bounds n d :
  let e := ulpExponent n d in
  2 ^ 52 * snd (scaled n d e) <= fst (scaled n d e)
  /\ fst (scaled n d e) < 2 ^ 53 * snd (scaled n d e).
Proof.
  cbn zeta. unfold ulpExponent.
  pose proof (scaled_first n d) as F. cbn zeta in F.
  set (e := Z.log2 (Z.pos n) - Z.log2 (Z.pos d) - 53) in *.
  pose proof (scaled_succ n d e) as S.
  pose proof (scaled_positive n d e) as [Pa Pb].
  pose proof (scaled_positive n d (e + 1)) as [Pa' Pb'].
  destruct (scaled n d e) as [a b] eqn:Sc. cbn [fst snd] in *.
  destruct (Z.ltb_spec a (2 ^ 53 * b)) as [L|L].
  - rewrite Sc. cbn [fst snd]. lia.
  - destruct (scaled n d (e + 1)) as [a' b']. cbn [fst snd] in *.
    change (2 ^ 52) with 4503599627370496 in *.
    change (2 ^ 54) with 18014398509481984 in *.
    change (2 ^ 53) with 9007199254740992 in *.
    nia.
Qed.

End DoubleIntegers.

Section DoubleRationals.

Import Double.
Local Open Scope Q_scope.

Lemma pow2_pos e : 0 < 2 ^ e.
Proof. apply Qpower_0_lt. reflexivity. Qed.

Lemma pow2_Z e : (0 <= e)%Z -> inject_Z (2 ^ e) == 2 ^ e.
Proof. intro H. now rewrite Zpower_Qpower. Qed.

Lemma pow2_add a b : 2 ^ (a + b) == 2 ^ a * 2 ^ b.
Proof. apply Qpower_plus. discriminate. Qed.

Lemma pow2_succ a : 2 ^ (a + 1) == 2 * 2 ^ a.
Proof. rewrite pow2_add. change (2 ^ 1) with 2. ring. Qed.

Lemma pow2_le a b : (a <= b)%Z -> 2 ^ a <= 2 ^ b.
Proof. intro H. apply Qpower_le_compat_l; [exact H | discriminate]. Qed.

Lemma scaled_value n d e :
  inject_Z (fst (scaled n d e)) * 2 ^ e
  == (Zpos n # d) * inject_Z (snd (scaled n d e)).
Proof.
  unfold scaled. cbn [fst snd].
  assert ((Zpos n # d) * inject_Z (Zpos d) == inject_Z (Zpos n)) as X
      by (unfold Qeq; cbn; lia).
  rewrite !inject_Z_mult.
  destruct (Z_lt_le_dec e 0) as [N|P].
  - replace (Z.max 0 (- e)) with (- e)%Z by lia.
    replace (Z.max 0 e) with 0%Z by lia.
    rewrite pow2_Z by lia. change (inject_Z (2 ^ 0)) with 1.
    rewrite <- Qmult_assoc, <- pow2_add.
    replace (- e + e)%Z with 0%Z by lia. change (2 ^ 0) with 1.
    rewrite <- X. generalize (Zpos n # d), (inject_Z (Zpos d)).
    intros; ring.
  - replace (Z.max 0 (- e)) with 0%Z by lia.
    replace (Z.max 0 e) with e by lia.
    rewrite !pow2_Z by lia. change (2 ^ 0) with 1.
    rewrite <- X. generalize (Zpos n # d), (inject_Z (Zpos d)), (2 ^ e).
    intros; ring.
Qed.

(** What [roundPositive] returns: a significand of 53 bits times the
    unit in the last place of the argument, within half a unit of it. *)
Lemma roundPositive_spec n d :
  exists m e,
    roundPositive n d = Qred (inject_Z m * 2 ^ e)
    /\ (2 ^ 52 <= m <= 2 ^ 53)%Z
    /\ inject_Z (2 ^ 52) * 2 ^ e <= Zpos n # d
    /\ Zpos n # d < inject_Z (2 ^ 53) * 2 ^ e
    /\ Qabs (inject_Z m * 2 ^ e - (Zpos n # d)) <= (1 # 2) * 2 ^ e.
Proof.
  unfold roundPositive.
  pose proof (ulpExponent_bounds n d) as B. cbn zeta in B.
  set (e := ulpExponent n d) in *.
  pose proof (scaled_positive n d e) as [Pa Pb].
  pose proof (scaled_value n d e) as V.
  destruct (scaled n d e) as [a b]. cbn [fst snd] in *.
  destruct B as [Lo Hi].
  exists (nearestEven a b), e. split; [reflexivity|].
  split; [apply nearestEven_between; lia|].
  pose proof (nearestEven_near a b Pb) as N.
  set (m := nearestEven a b) in *.
  pose proof (pow2_pos e) as Pu.
  set (u := 2 ^ e) in *. set (x := Zpos n # d) in *.
  assert (0 < inject_Z b) as PB by (change 0 with (inject_Z 0); now rewrite <- Zlt_Qlt).
  assert (inject_Z (2 ^ 52) * inject_Z b <= inject_Z a) as Lo'
      by (rewrite <- inject_Z_mult, <- Zle_Qle; exact Lo).
  assert (inject_Z a < inject_Z (2 ^ 53) * inject_Z b) as Hi'
      by (rewrite <- inject_Z_mult, <- Zlt_Qlt; exact Hi).
  apply Z.abs_le in N. destruct N as [N1 N2].
  assert (- inject_Z b <= 2 * (inject_Z m * inject_Z b) - 2 * inject_Z a) as N1'.
  { rewrite <- inject_Z_mult. change 2 with (inject_Z 2).
    rewrite <- !inject_Z_mult, <- inject_Z_opp.
    unfold Qminus. rewrite <- inject_Z_opp, <- inject_Z_plus, <- Zle_Qle. lia. }
  assert (2 * (inject_Z m * inject_Z b) - 2 * inject_Z a <= inject_Z b) as N2'.
  { rewrite <- inject_Z_mult. change 2 with (inject_Z 2).
    rewrite <- !inject_Z_mult.
    unfold Qminus. rewrite <- inject_Z_opp, <- inject_Z_plus, <- Zle_Qle. lia. }
  set (A := inject_Z a) in *. set (B := inject_Z b) in *.
  set (M := inject_Z m) in *.
  clearbody A B M u x. clear - Pu PB Lo' Hi' N1' N2' V.
  split; [|split].
  - apply (Qmult_le_r _ _ B PB). rewrite <- V.
    setoid_replace (inject_Z (2 ^ 52) * u * B) with (u * (inject_Z (2 ^ 52) * B)) by ring.
    setoid_replace (A * u) with (u * A) by ring.
    apply Qmult_le_l; assumption.
  - apply (Qmult_lt_r _ _ B PB). rewrite <- V.
    setoid_replace (inject_Z (2 ^ 53) * u * B) with (u * (inject_Z (2 ^ 53) * B)) by ring.
    setoid_replace (A * u) with (u * A) by ring.
    apply Qmult_lt_l; assumption.
  - apply Qabs_Qle_condition. split.
    + apply (Qmult_le_r _ _ (2 * B)); [lra|].
      setoid_replace ((M * u - x) * (2 * B)) with (u * (2 * (M * B)) - 2 * (x * B)) by ring.
      rewrite <- V.
      setoid_replace (- ((1 # 2) * u) * (2 * B)) with (u * (- B)) by ring.
      setoid_replace (u * (2 * (M * B)) - 2 * (A * u)) with (u * (2 * (M * B) - 2 * A)) by ring.
      apply Qmult_le_l; assumption.
    + apply (Qmult_le_r _ _ (2 * B)); [lra|].
      setoid_replace ((M * u - x) * (2 * B)) with (u * (2 * (M * B)) - 2 * (x * B)) by ring.
      rewrite <- V.
      setoid_replace ((1 # 2) * u * (2 * B)) with (u * B) by ring.
      setoid_replace (u * (2 * (M * B)) - 2 * (A * u)) with (u * (2 * (M * B) - 2 * A)) by ring.
      apply Qmult_le_l; assumption.
Qed.


Lemma representable_opp x : representable x -> representable (- x).
Proof.
  intros (m & e & B & E). exists (- m)%Z, e. split; [lia|].
  rewrite E, inject_Z_opp. ring.
Qed.

Lemma representable_eq x y : x == y -> representable x -> representable y.
Proof. intros E (m & e & B & X). exists m, e. now rewrite <- E. Qed.

(** A rounded value is nearest among the multiples of its unit. *)
Lemma nearest_multiple (M u X : Q) (m k : Z) :
  0 < u -> M = inject_Z m ->
  Qabs (M * u - X) <= (1 # 2) * u ->
  Qabs (M * u - X) <= Qabs (inject_Z k * u - X).
Proof.
  intros Pu -> H.
  destruct (Z.eq_dec k m) as [->|Ne]; [apply Qle_refl|].
  apply Qabs_Qle_condition in H. destruct H as [H1 H2].
  assert (inject_Z k - inject_Z m <= -1 \/ 1 <= inject_Z k - inject_Z m) as D.
  { destruct (Z_lt_le_dec k m) as [L|L]; [left|right];
      unfold Qminus; rewrite <- inject_Z_opp, <- inject_Z_plus;
      [change (-1) with (inject_Z (-1)) | change 1 with (inject_Z 1)];
      rewrite <- Zle_Qle; lia. }
  set (K := inject_Z k) in *. set (M := inject_Z m) in *.
  clearbody K M.
  destruct D as [D|D].
  - assert ((K - M) * u <= -1 * u) as T
        by (apply Qmult_le_compat_r; [exact D | lra]).
    apply Qabs_case; intro; apply Qabs_case; intro; lra.
  - assert (1 * u <= (K - M) * u) as T
        by (apply Qmult_le_compat_r; [exact D | lra]).
    apply Qabs_case; intro; apply Qabs_case; intro; lra.
Qed.

Lemma roundPositive_nearest n d r :
  representable r ->
  Qabs (roundPositive n d - (Zpos n # d)) <= Qabs (r - (Zpos n # d)).
Proof.
  intros (m' & e' & B' & R).
  destruct (roundPositive_spec n d) as (m & e & -> & Bm & Lo & Hi & Near).
  rewrite Qred_correct, R.
  pose proof (pow2_pos e) as Pu. pose proof (pow2_pos e') as Pu'.
  set (X := Zpos n # d) in *.
  destruct (Z_lt_le_dec e' e) as [L|L].
  - (* r is below the binade of X *)
    pose proof (nearest_multiple (inject_Z m) (2 ^ e) X m (2 ^ 52)
                  Pu eq_refl Near) as N52.
    assert (2 ^ e' <= (1 # 2) * 2 ^ e) as U.
    { assert (2 ^ (e' + 1) <= 2 ^ e) as T by (apply pow2_le; lia).
      rewrite pow2_succ in T. lra. }
    assert (inject_Z m' <= inject_Z (2 ^ 53)) as M1
        by (rewrite <- Zle_Qle; lia).
    assert (inject_Z m' * 2 ^ e' <= inject_Z (2 ^ 53) * 2 ^ e') as T1
        by (apply Qmult_le_compat_r; [exact M1 | lra]).
    assert (inject_Z (2 ^ 53) * 2 ^ e' <= inject_Z (2 ^ 52) * 2 ^ e) as T2.
    { change (inject_Z (2 ^ 53)) with (2 * inject_Z (2 ^ 52)).
      setoid_replace (2 * inject_Z (2 ^ 52) * 2 ^ e')
        with (inject_Z (2 ^ 52) * (2 * 2 ^ e')) by ring.
      apply Qmult_le_l; [reflexivity | lra]. }
    set (r' := inject_Z m' * 2 ^ e') in *.
    set (F := inject_Z m * 2 ^ e) in *.
    set (G := inject_Z (2 ^ 52) * 2 ^ e) in *.
    clearbody r' F G.
    revert N52. apply Qabs_case; intro; apply Qabs_case; intro;
      apply Qabs_case; intro; lra.
  - (* r is a multiple of the unit of X *)
    assert (inject_Z m' * 2 ^ e' == inject_Z (m' * 2 ^ (e' - e)) * 2 ^ e) as E.
    { rewrite inject_Z_mult, pow2_Z by lia.
      rewrite <- Qmult_assoc, <- pow2_add.
      replace (e' - e + e)%Z with e' by lia. reflexivity. }
    rewrite E.
    exact (nearest_multiple (inject_Z m) (2 ^ e) X m _ Pu eq_refl Near).
Qed.

Lemma roundPositive_representable n d : representable (roundPositive n d).
Proof.
  destruct (roundPositive_spec n d) as (m & e & -> & Bm & _).
  exists m, e. split; [lia | apply Qred_correct].
Qed.

Lemma roundPositive_positive n d : 0 < roundPositive n d.
Proof.
  destruct (roundPositive_spec n d) as (m & e & -> & Bm & _).
  rewrite Qred_correct.
  apply Qmult_lt_0_compat; [|apply pow2_pos].
  change 0 with (inject_Z 0). rewrite <- Zlt_Qlt. lia.
Qed.

Lemma roundPositive_canonical n d : Qred (roundPositive n d) = roundPositive n d.
Proof.
  destruct (roundPositive_spec n d) as (m & e & -> & _).
  apply Qred_complete, Qred_correct.
Qed.

(** The three cases of [fl]. *)
Lemma fl_cases x :
  (x == 0 /\ fl x = 0)
  \/ (exists n d, x == Zpos n # d /\ fl x = roundPositive n d)
  \/ (exists n d, x == - (Zpos n # d)
                  /\ fl x = Qred (- roundPositive n d)).
Proof.
  unfold fl. pose proof (Qred_correct x) as E.
  destruct (Qred x) as [[|n|n] d]; cbn [Qnum Qden].
  - left. split; [|reflexivity]. rewrite <- E. reflexivity.
  - right. left. exists n, d. split; [now rewrite <- E | reflexivity].
  - right. right. exists n, d. split; [|reflexivity].
    rewrite <- E. reflexivity.
Qed.

Lemma fl_morphism x y : x == y -> fl x = fl y.
Proof. intro E. unfold fl. now rewrite (Qred_complete x y E). Qed.

Lemma fl_canonical x : Qred (fl x) = fl x.
Proof.
  destruct (fl_cases x) as [[_ ->]|[(n & d & _ & ->)|(n & d & _ & ->)]].
  - reflexivity.
  - apply roundPositive_canonical.
  - apply Qred_complete, Qred_correct.
Qed.

Lemma fl_representable x : representable (fl x).
Proof.
  destruct (fl_cases x) as [[_ ->]|[(n & d & _ & ->)|(n & d & _ & ->)]].
  - exists 0%Z, 0%Z. split; [lia | reflexivity].
  - apply roundPositive_representable.
  - apply (representable_eq (- roundPositive n d));
      [symmetry; apply Qred_correct|].
    apply representable_opp, roundPositive_representable.
Qed.

(** [fl x] is a binary64 value nearest to [x]. *)
Lemma fl_nearest x r :
  representable r -> Qabs (fl x - x) <= Qabs (r - x).
Proof.
  intro R.
  destruct (fl_cases x) as [[E ->]|[(n & d & E & ->)|(n & d & E & ->)]];
    rewrite E.
  - setoid_replace (0 - 0) with 0 by ring. apply Qabs_nonneg.
  - now apply roundPositive_nearest.
  - rewrite Qred_correct.
    pose proof (roundPositive_nearest n d (- r) (representable_opp r R)) as N.
    setoid_replace (- roundPositive n d - - (Zpos n # d))
      with (- (roundPositive n d - (Zpos n # d))) by ring.
    setoid_replace (r - - (Zpos n # d))
      with (- (- r - (Zpos n # d))) by ring.
    now rewrite !Qabs_opp.
Qed.

Theorem fl_exact x : representable x -> fl x = Qred x.
Proof.
  intro R. pose proof (fl_nearest x x R) as N.
  setoid_replace (x - x) with 0 in N by ring.
  change (Qabs 0) with 0 in N.
  assert (fl x == x) as E.
  { revert N. apply Qabs_case; intros; lra. }
  rewrite <- fl_canonical. now apply Qred_complete.
Qed.

Theorem fl_idempotent x : fl (fl x) = fl x.
Proof. rewrite (fl_exact _ (fl_representable x)). apply fl_canonical. Qed.

Theorem fl_monotone x y : x <= y -> fl x <= fl y.
Proof.
  intro L. apply Qnot_lt_le. intro C.
  pose proof (fl_nearest x (fl y) (fl_representable y)) as Nx.
  pose proof (fl_nearest y (fl x) (fl_representable x)) as Ny.
  assert (x == y) as E.
  { revert Nx Ny. apply Qabs_case; intro; apply Qabs_case; intro;
      apply Qabs_case; intro; apply Qabs_case; intro; lra. }
  rewrite (fl_morphism x y E) in C. lra.
Qed.

Theorem fl_zero : fl 0 = 0.
Proof. reflexivity. Qed.

Theorem fl_positive x : 0 < x -> 0 < fl x.
Proof.
  intro P.
  destruct (fl_cases x) as [[E _]|[(n & d & _ & ->)|(n & d & E & _)]].
  - lra.
  - apply roundPositive_positive.
  - exfalso. assert (0 < Zpos n # d) by reflexivity. lra.
Qed.

(** The relative error of one rounding is at most 2^-53. *)
Theorem fl_error x : Qabs (fl x - x) <= Qabs x * (1 # 2 ^ 53).
Proof.
  assert (forall n d,
             Qabs (roundPositive n d - (Zpos n # d))
             <= (Zpos n # d) * (1 # 2 ^ 53)) as Pos.
  { intros n d.
    destruct (roundPositive_spec n d) as (m & e & -> & _ & Lo & _ & Near).
    rewrite Qred_correct.
    pose proof (pow2_pos e).
    change (inject_Z (2 ^ 52)) with (4503599627370496 # 1) in Lo.
    change (1 # 2 ^ 53) with (1 # 9007199254740992).
    set (u := 2 ^ e) in *. clearbody u.
    eapply Qle_trans; [exact Near|]. lra. }
  destruct (fl_cases x) as [[E ->]|[(n & d & E & ->)|(n & d & E & ->)]];
    rewrite E.
  - setoid_replace (0 - 0) with 0 by ring. cbn. discriminate.
  - rewrite (Qabs_pos (Zpos n # d)) by discriminate. apply Pos.
  - rewrite Qred_correct, Qabs_opp.
    rewrite (Qabs_pos (Zpos n # d)) by discriminate.
    setoid_replace (- roundPositive n d - - (Zpos n # d))
      with (- (roundPositive n d - (Zpos n # d))) by ring.
    rewrite Qabs_opp. apply Pos.
Qed.

End DoubleRationals.

(** ** The codec on examples *)

Example encode_Man : encode ["M"%byte; "a"%byte; "n"%byte] = "TWFu".
Proof. reflexivity. Qed.

Example encode_Ma : encode ["M"%byte; "a"%byte] = "TWE=".
Proof. reflexivity. Qed.

Example decode_TWE : decode "TWE=" = Some ["M"%byte; "a"%byte].
Proof. reflexivity. Qed.

Example decode_spaced : decode " T W Fu" = Some ["M"%byte; "a"%byte; "n"%byte].
Proof. reflexivity. Qed.

Example decode_bad_char : decode "TW-u" = None.
Proof. reflexivity. Qed.

Example decode_bad_length : decode "TWFuA" = None.
Proof. reflexivity. Qed.

Example decode_padding_only : decode "====" = None.
Proof. reflexivity. Qed.

(** ** Base64: decoding an encoding *)

Section Base64Roundtrip.

Import Base64.
Local Open Scope N_scope.

(** Lists, three elements at a time. *)
Lemma list_ind3 (A : Type) (P : list A -> Prop) :
  P [] ->
  (forall a, P [a]) ->
  (forall a b, P [a; b]) ->
  (forall a b c r, P r -> P (a :: b :: c :: r)) ->
  forall l, P l.
Proof.
  intros H0 H1 H2 H3.
  assert (forall l, P l /\ (forall a, P (a :: l))
                    /\ (forall a b, P (a :: b :: l))) as H.
  { induction l as [|x l (IH0 & IH1 & IH2)]; repeat split; auto. }
  intro l. apply H.
Qed.

(** A check run on the 64 groups holds of every group. *)
Lemma sextet_forall (P : N -> bool) :
  forallb P (map N.of_nat (seq 0 64)) = true ->
  forall n, n < 64 -> P n = true.
Proof.
  intros H n Hn.
  rewrite forallb_forall in H. apply H.
  apply in_map_iff. exists (N.to_nat n). split.
  - apply N2Nat.id.
  - apply in_seq. lia.
Qed.

Lemma sextet_of_char_of_sextet n :
  n < 64 -> sextet_of_char (char_of_sextet n) = Some n.
Proof.
  intro Hn.
  pose (P := fun k => match sextet_of_char (char_of_sextet k) with
                      | Some j => j =? k
                      | None => false
                      end).
  assert (P n = true) as H by (apply sextet_forall; [vm_compute; reflexivity | exact Hn]).
  unfold P in H. destruct (sextet_of_char (char_of_sextet n)) as [j|].
  - apply N.eqb_eq in H. now subst.
  - discriminate.
Qed.

Lemma char_of_sextet_not_pad n :
  n < 64 -> Ascii.eqb (char_of_sextet n) pad = false.
Proof.
  intro Hn.
  apply (sextet_forall (fun k => negb (Ascii.eqb (char_of_sextet k) pad)))
    in Hn; [| vm_compute; reflexivity].
  now apply negb_true_iff in Hn.
Qed.

Lemma char_of_sextet_not_whitespace n :
  n < 64 -> is_whitespace (char_of_sextet n) = false.
Proof.
  intro Hn.
  apply (sextet_forall (fun k => negb (is_whitespace (char_of_sextet k))))
    in Hn; [| vm_compute; reflexivity].
  now apply negb_true_iff in Hn.
Qed.

(** The characters [btoa] produces: alphabet characters and padding. *)
Lemma encode_units_no_whitespace l :
  Forall octet l ->
  filter (fun c => negb (is_whitespace c)) (encode_units l) = encode_units l.
Proof.
  unfold octet.
  induction l using list_ind3; intro F;
    repeat match goal with
           | H : Forall _ (_ :: _) |- _ => inversion H; clear H; subst
           end;
    cbn [encode_units filter];
    rewrite ?char_of_sextet_not_whitespace by divlia;
    cbn [negb]; try reflexivity.
  now rewrite IHl.
Qed.

Lemma encode_units_length l :
  N.of_nat (List.length (encode_units l)) mod 4 = 0.
Proof.
  induction l using list_ind3; try reflexivity.
  cbn [encode_units List.length]. divlia.
Qed.

(** Once the padding is stripped, the characters decode to groups whose
    octets are the input. *)
Lemma encode_units_groups l :
  Forall octet l ->
  exists ss,
    sextets_of (strip_padding (encode_units l)) = Some ss
    /\ octets_of ss = l
    /\ N.of_nat (List.length (strip_padding (encode_units l))) mod 4 <> 1.
Proof.
  unfold octet.
  induction l using list_ind3; intro F;
    repeat match goal with
           | H : Forall _ (_ :: _) |- _ => inversion H; clear H; subst
           end.
  - exists []. repeat split. discriminate.
  - eexists.
    cbn [encode_units strip_padding sextets_of].
    rewrite !char_of_sextet_not_pad by divlia.
    rewrite Ascii.eqb_refl.
    cbn [encode_units strip_padding sextets_of].
    rewrite !sextet_of_char_of_sextet by divlia.
    repeat split.
    + cbn [octets_of]. f_equal. divlia.
    + discriminate.
  - eexists.
    cbn [encode_units strip_padding sextets_of].
    rewrite !char_of_sextet_not_pad by divlia.
    rewrite ?Ascii.eqb_refl.
    cbn [encode_units strip_padding sextets_of].
    rewrite !sextet_of_char_of_sextet by divlia.
    repeat split.
    + cbn [octets_of]. repeat (f_equal; try divlia).
    + discriminate.
  - destruct IHl as (ss & Hs & Ho & Hl); [assumption|].
    eexists.
    cbn [encode_units].
    repeat (cbn [strip_padding]; rewrite char_of_sextet_not_pad by divlia).
    cbn [sextets_of].
    rewrite !sextet_of_char_of_sextet by divlia.
    rewrite Hs.
    repeat split.
    + cbn [octets_of]. rewrite Ho. repeat (f_equal; try divlia).
    + cbn [List.length]. divlia.
Qed.

Lemma atob_btoa s : atob (btoa s) = Some s.
Proof.
  unfold atob, btoa.
  rewrite list_ascii_of_string_of_list_ascii.
  set (l := map N_of_ascii (list_ascii_of_string s)).
  assert (Forall octet l) as F.
  { apply Forall_forall. intros x Hx. apply in_map_iff in Hx.
    destruct Hx as (c & <- & _). apply N_ascii_bounded. }
  rewrite (encode_units_no_whitespace l F), encode_units_length.
  cbn [N.eqb].
  destruct (encode_units_groups l F) as (ss & Hs & Ho & Hl).
  apply N.eqb_neq in Hl. rewrite Hl, Hs, Ho.
  unfold l. rewrite map_map.
  rewrite (map_ext _ (fun c => c)) by (intro; apply ascii_N_embedding).
  now rewrite map_id, string_of_list_ascii_of_string.
Qed.

End Base64Roundtrip.

(** ** encode and decode *)

(** The loop of [encode] builds the binary string of the bytes. *)
Lemma encode_loop bytes acc :
  fold_left (fun acc b => (acc ++ String (ascii_of_byte b) EmptyString)%string)
            bytes acc
  = (acc ++ string_of_list_byte bytes)%string.
Proof.
  revert acc. induction bytes as [|b r IH]; intro acc; cbn [fold_left].
  - unfold string_of_list_byte. cbn.
    induction acc; cbn; congruence.
  - rewrite IH. unfold string_of_list_byte. cbn.
    induction acc; cbn; congruence.
Qed.

(** [decode] reads back the bytes of the binary string [atob] returns. *)
Lemma decode_btoa (b : list byte) :
  decode (Base64.btoa (string_of_list_byte b)) = Some b.
Proof.
  unfold decode. rewrite atob_btoa.
  fold (list_byte_of_string (string_of_list_byte b)).
  now rewrite list_byte_of_string_of_list_byte.
Qed.

Lemma encode_btoa (b : list byte) :
  encode b = Base64.btoa (string_of_list_byte b).
Proof. unfold encode. now rewrite encode_loop. Qed.

(** C9.  For every byte array [b], of any length and with any byte
    values, decoding the base64 string that [encode] produces gives [b]
    back: [decode (encode b) = b]. *)
Theorem decode_encode (b : list byte) : decode (encode b) = Some b.
Proof. rewrite encode_btoa. apply decode_btoa. Qed.

(** ** PCM conversion *)

Lemma Z_of_byte_of_Z z : Z_of_byte (byte_of_Z z) = z mod 256.
Proof.
  unfold Z_of_byte, byte_of_Z.
  assert (Z.to_N (z mod 256) < 256)%N as Hb by divlia.
  pose proof (byte_of_ascii_via_N (ascii_of_N (Z.to_N (z mod 256)))) as H.
  rewrite N_ascii_embedding in H by exact Hb.
  symmetry in H. apply Byte.to_of_N in H. rewrite H. divlia.
Qed.

Lemma wrap_int16_range z : int16 (wrap_int16 z).
Proof.
  unfold int16, wrap_int16.
  destruct (Z.ltb_spec (z mod 65536) 32768); divlia.
Qed.

Lemma wrap_int16_bytes v :
  int16 v ->
  wrap_int16 (Z_of_byte (byte_of_Z v)
              + 256 * Z_of_byte (byte_of_Z (v / 256))) = v.
Proof.
  unfold int16. intro H. rewrite !Z_of_byte_of_Z. unfold wrap_int16.
  destruct (Z.ltb_spec
              ((v mod 256 + 256 * ((v / 256) mod 256)) mod 65536) 32768);
    divlia.
Qed.

(** Viewing the bytes of an [Int16Array] as an [Int16Array] again. *)
Lemma Int16Array_of_bytes a :
  Forall int16 a ->
  Int16Array_of_buffer (Uint8Array_of_Int16Array a) = Some a.
Proof.
  induction 1 as [|v r Hv _ IH]; [reflexivity|].
  cbn [Uint8Array_of_Int16Array flat_map bytes_of_int16 app
       Int16Array_of_buffer].
  fold (Uint8Array_of_Int16Array r). rewrite IH.
  now rewrite wrap_int16_bytes.
Qed.

(** A buffer that has a 16-bit view holds two bytes per element. *)
Lemma Int16Array_of_buffer_length bytes :
  forall a, Int16Array_of_buffer bytes = Some a ->
            List.length bytes = (2 * List.length a)%nat.
Proof.
  assert (forall l,
             (forall a, Int16Array_of_buffer l = Some a ->
                        List.length l = (2 * List.length a)%nat)
             /\ (forall x a, Int16Array_of_buffer (x :: l) = Some a ->
                             List.length (x :: l) = (2 * List.length a)%nat))
    as H.
  { induction l as [|y l [IH0 IH1]]; split.
    - intros a E. injection E as <-. reflexivity.
    - intros x a E. discriminate.
    - exact (IH1 y).
    - intros x a E. cbn [Int16Array_of_buffer] in E.
      destruct (Int16Array_of_buffer l) as [r|] eqn:El; [|discriminate].
      injection E as <-. cbn [List.length]. rewrite (IH0 r eq_refl). lia. }
  apply H.
Qed.

(** Truncation of a scaled sample below full scale stays in range and
    loses less than one unit. *)
Lemma trunc_bound (x : Q) :
  (-1 <= x)%Q -> (x < 1)%Q ->
  int16 (Qtruncate (x * 32768))
  /\ (Qabs (inject_Z (Qtruncate (x * 32768)) / 32768 - x) < 1 # 32768)%Q.
Proof.
  destruct x as [n d]. intros Hl Hu.
  unfold Qle, Qlt in Hl, Hu. cbn in Hl, Hu.
  assert (Qtruncate ((n # d) * 32768) = (n * 32768) ÷ Z.pos d) as E.
  { unfold Qtruncate. cbn. now rewrite Pos.mul_1_r. }
  rewrite E. clear E.
  split.
  - unfold int16. Z.to_euclidean_division_equations. nia.
  - apply Qabs_Qlt_condition.
    unfold Qlt, Qminus, Qplus, Qopp, Qdiv, Qmult, Qinv, inject_Z.
    cbn [Qnum Qden].
    change (Z.neg 1) with (-1).
    rewrite ?Pos.mul_1_l, ?Pos.mul_1_r, ?Pos2Z.inj_mul.
    Z.to_euclidean_division_equations. nia.
Qed.

Lemma ToInt16_below_full_scale (x : Q) :
  (-1 <= x)%Q -> (x < 1)%Q ->
  ToInt16 (x * 32768) = Qtruncate (x * 32768).
Proof.
  intros Hl Hu. destruct (trunc_bound x Hl Hu) as [R _].
  unfold ToInt16, wrap_int16. unfold int16 in R.
  destruct (Z.ltb_spec (Qtruncate (x * 32768) mod 65536) 32768); divlia.
Qed.

(** Reading a list back through its indices. *)
Lemma map_nth_seq (A B : Type) (g : A -> B) (d : A) (l : list A) :
  map (fun i => g (nth (i * 1 + 0) l d)) (seq 0 (List.length l)) = map g l.
Proof.
  induction l as [|x l IH]; [reflexivity|].
  cbn [List.length seq map]. f_equal.
  rewrite <- seq_shift, map_map. rewrite <- IH.
  apply map_ext. intro i.
  now rewrite !Nat.mul_1_r, !Nat.add_0_r.
Qed.

(** One channel: the buffer holds every 16-bit value over 32768. *)
Lemma decodeAudioData_mono supports bytes ctx rate a :
  supports 1%nat rate = true ->
  Int16Array_of_buffer bytes = Some a -> a <> [] ->
  decodeAudioData supports bytes ctx rate 1
  = Some {| numberOfChannels := 1;
            frames := List.length a;
            sampleRate := rate;
            channelData := [map (fun v => (inject_Z v / 32768)%Q) a] |}.
Proof.
  intros Hs E Ha. unfold decodeAudioData. rewrite E, Hs.
  rewrite Nat.div_1_r.
  destruct a as [|v a]; [contradiction|].
  cbn [Nat.eqb orb negb List.length].
  f_equal. f_equal. cbn [seq map]. f_equal.
  apply (map_nth_seq Z Q (fun v => (inject_Z v / 32768)%Q) 0 (v :: a)).
Qed.

(** The round trip below full scale: every sample of a non-empty array
    with entries in [-1, 1) comes back within one 16-bit step. *)
Lemma roundTrip_below_full_scale (samples : list Q) (ctx : Handle) :
  samples <> [] ->
  Forall (fun x => -1 <= x /\ x < 1)%Q samples ->
  exists ys,
    roundTrip samples ctx = Some [ys]
    /\ Forall2 (fun x y => Qabs (y - x) < 1 # 32768)%Q samples ys.
Proof.
  intros Hne F.
  exists (map (fun v => (inject_Z v / 32768)%Q)
              (map (fun x => ToInt16 (x * 32768)) samples)).
  split.
  - unfold roundTrip, decodePayload, createBlob. cbn [data].
    rewrite encode_btoa, decode_btoa.
    erewrite decodeAudioData_mono.
    + reflexivity.
    + reflexivity.
    + apply Int16Array_of_bytes. apply Forall_map.
      apply Forall_forall. intros x _. apply wrap_int16_range.
    + destruct samples; [contradiction | discriminate].
  - clear Hne. induction F as [|x r [Hl Hu] _ IH]; cbn [map]; constructor.
    + rewrite (ToInt16_below_full_scale x Hl Hu).
      apply (trunc_bound x Hl Hu).
    + exact IH.
Qed.

(** C3.  The round trip at full scale: the sample 1 is stored as 32768,
    which wraps to -32768 in the [Int16Array], and comes back as -1, two
    units away from the original and not within 1/32768 of it. *)
Theorem roundTrip_full_scale_wraps (ctx : Handle) :
  exists y,
    roundTrip [1%Q] ctx = Some [[y]]
    /\ (y == -1)%Q
    /\ ~ (Qabs (y - 1) <= 1 # 32768)%Q.
Proof.
  eexists. split; [reflexivity|]. split.
  - reflexivity.
  - intro H. vm_compute in H. apply H. reflexivity.
Qed.

(** ** Transcript aggregation *)

Section TranscriptFacts.

Lemma Speaker_eqb_eq a b : Speaker_eqb a b = true <-> a = b.
Proof. destruct a, b; cbn; split; congruence. Qed.

Lemma Speaker_eqb_refl a : Speaker_eqb a a = true.
Proof. now destruct a. Qed.

Lemma last_entry_snoc prev l : last_entry (prev ++ [l]) = Some l.
Proof.
  unfold last_entry. rewrite length_app. cbn [List.length].
  replace (List.length prev + 1 - 1)%nat with (List.length prev) by lia.
  rewrite nth_error_app2 by lia. now rewrite Nat.sub_diag.
Qed.

Lemma slice_init_snoc prev l : slice_init (prev ++ [l]) = prev.
Proof.
  unfold slice_init. rewrite length_app. cbn [List.length].
  replace (List.length prev + 1 - 1)%nat with (List.length prev) by lia.
  rewrite firstn_app, Nat.sub_diag, firstn_all. cbn. apply app_nil_r.
Qed.

(** A transcript is empty or has a last entry. *)
Lemma transcript_cases (prev : list Transcript) :
  prev = [] \/ exists init l, prev = init ++ [l].
Proof.
  induction prev as [|l init _] using rev_ind.
  - now left.
  - right. now exists init, l.
Qed.

Lemma alternating_snoc prev x :
  alternating (prev ++ [x])
  = alternating prev && last_not (speaker x) prev.
Proof.
  induction prev as [|a [|b r] IH].
  - reflexivity.
  - cbn. now rewrite !andb_true_r.
  - change (alternating ((a :: b :: r) ++ [x]))
      with (negb (Speaker_eqb (speaker a) (speaker b))
            && alternating ((b :: r) ++ [x])).
    rewrite IH.
    change (alternating (a :: b :: r))
      with (negb (Speaker_eqb (speaker a) (speaker b))
            && alternating (b :: r)).
    rewrite andb_assoc. f_equal.
    unfold last_not, last_entry. cbn [List.length].
    now replace (S (S (List.length r)) - 1)%nat
      with (S (S (List.length r) - 1)) by lia.
Qed.

(** What the updater does, by the shape of the transcript. *)
Lemma updateTranscripts_empty who buf :
  updateTranscripts who buf [] = [{| speaker := who; text := buf |}].
Proof. reflexivity. Qed.

Lemma updateTranscripts_same who buf init l :
  speaker l = who ->
  updateTranscripts who buf (init ++ [l])
  = init ++ [{| speaker := who; text := buf |}].
Proof.
  intro E. unfold updateTranscripts.
  rewrite last_entry_snoc, slice_init_snoc, E.
  now rewrite Speaker_eqb_refl.
Qed.

Lemma updateTranscripts_other who buf prev :
  last_not who prev = true ->
  updateTranscripts who buf prev
  = prev ++ [{| speaker := who; text := buf |}].
Proof.
  unfold last_not, updateTranscripts.
  destruct (last_entry prev) as [l|]; [|reflexivity].
  intro H. apply negb_true_iff in H. now rewrite H.
Qed.

Lemma updateTranscripts_alternating who buf prev :
  alternating prev = true ->
  alternating (updateTranscripts who buf prev) = true.
Proof.
  intro A.
  destruct (transcript_cases prev) as [-> | (init & l & ->)].
  - reflexivity.
  - rewrite alternating_snoc in A. apply andb_true_iff in A as [Ai Al].
    destruct (Speaker_eqb (speaker l) who) eqn:E.
    + apply Speaker_eqb_eq in E.
      rewrite (updateTranscripts_same who buf init l E).
      rewrite alternating_snoc. cbn [speaker].
      rewrite <- E. now rewrite Ai, Al.
    + rewrite updateTranscripts_other.
      * rewrite !alternating_snoc. cbn [speaker].
        rewrite Ai, Al. cbn [andb].
        unfold last_not. now rewrite last_entry_snoc, E.
      * unfold last_not. now rewrite last_entry_snoc, E.
Qed.

End TranscriptFacts.

(** ** Frame lemmas for the blocks of [onmessage] *)

(** The scheduler blocks leave the transcript cells alone. *)
Lemma onInterrupted_text m s done :
  let s' := after (onInterrupted m s done) in
  transcripts s' = transcripts s
  /\ currentInputRef s' = currentInputRef s
  /\ currentOutputRef s' = currentOutputRef s.
Proof. unfold onInterrupted. destruct (interrupted m); cbn; auto. Qed.

Lemma onAudio_text now m s :
  let s' := after (onAudio now m s) in
  transcripts s' = transcripts s
  /\ currentInputRef s' = currentInputRef s
  /\ currentOutputRef s' = currentOutputRef s.
Proof.
  unfold onAudio.
  destruct (modelTurn m) as [| |[p|]]; try apply onInterrupted_text;
    [cbn; auto|].
  destruct (outputAudioContextRef s) as [ctx|]; [|apply onInterrupted_text].
  destruct (String.eqb p ""); [apply onInterrupted_text|].
  destruct (decodePayload p ctx); [|cbn; auto].
  match goal with
  | |- context [onInterrupted m ?s2 ?d] =>
      destruct (onInterrupted_text m s2 d) as (T & I & O)
  end.
  cbn zeta. rewrite T, I, O. cbn. auto.
Qed.

Lemma onTurnComplete_transcripts m s :
  transcripts (onTurnComplete m s) = transcripts s.
Proof. unfold onTurnComplete. now destruct (turnComplete m). Qed.

Lemma onTranscription_transcripts m s :
  transcripts (onTranscription m s) = transcripts s.
Proof.
  unfold onTranscription.
  destruct (outputTranscription m); [reflexivity|].
  now destruct (inputTranscription m).
Qed.

(** The buffers the transcription block leaves. *)
Lemma onTranscription_buffers m s :
  currentOutputRef (onTranscription m s)
  = match outputTranscription m with
    | Some f => append_text (currentOutputRef s) f
    | None => currentOutputRef s
    end
  /\ currentInputRef (onTranscription m s)
     = match outputTranscription m, inputTranscription m with
       | None, Some f => append_text (currentInputRef s) f
       | _, _ => currentInputRef s
       end.
Proof.
  unfold onTranscription.
  destruct (outputTranscription m); [now split|].
  now destruct (inputTranscription m).
Qed.

(** The transcript cells after a message: the buffers are those the text
    blocks left, and the transcript is the one the queued updater makes
    of them. *)
Lemma onmessage_text now m s :
  let s0 := onTurnComplete m (onTranscription m s) in
  let s' := after (onmessage now m s) in
  currentInputRef s' = currentInputRef s0
  /\ currentOutputRef s' = currentOutputRef s0
  /\ transcripts s'
     = match queuedUpdater m with
       | Some who => updateTranscripts who (bufferOf who s0) (transcripts s)
       | None => transcripts s
       end.
Proof.
  cbn zeta. unfold onmessage. cbn [after].
  destruct (onAudio_text now m (onTurnComplete m (onTranscription m s)))
    as (T & I & O).
  cbn zeta in T, I, O.
  rewrite onTurnComplete_transcripts, onTranscription_transcripts in T.
  unfold runUpdater.
  destruct (queuedUpdater m) as [[|]|];
    cbn [currentInputRef currentOutputRef transcripts bufferOf];
    rewrite ?T, ?I, ?O; auto.
Qed.

Lemma onmessage_alternating now m s :
  alternating (transcripts s) = true ->
  alternating (transcripts (after (onmessage now m s))) = true.
Proof.
  intro A. destruct (onmessage_text now m s) as (_ & _ & T).
  cbn zeta in T. rewrite T.
  destruct (queuedUpdater m); [now apply updateTranscripts_alternating|].
  exact A.
Qed.

Lemma stopSession_transcripts active s :
  transcripts (after (stopSession active s)) = transcripts s.
Proof.
  unfold stopSession.
  destruct active, (sessionPromiseRef s); reflexivity.
Qed.

(** Every handler keeps the transcript alternating. *)
Lemma handle_alternating e s :
  alternating (transcripts s) = true ->
  alternating (transcripts (after (handle e s))) = true.
Proof.
  intro A. destruct e as [env|env|d|now m|id|a msg|a|a]; cbn [handle].
  - unfold handleToggleSession. destruct (isSessionActive s).
    + now rewrite stopSession_transcripts.
    + destruct env; reflexivity.
  - destruct env; exact A.
  - exact A.
  - now apply onmessage_alternating.
  - exact A.
  - unfold onerror. now rewrite stopSession_transcripts.
  - unfold onclose. now rewrite stopSession_transcripts.
  - now rewrite stopSession_transcripts.
Qed.

(** C10.  Speaker alternation is an invariant of the transcript: it holds
    of the component as mounted, a session start empties the transcript,
    every event handler preserves it, and so no reachable state has two
    consecutive entries with the same speaker. *)
Theorem transcript_alternates :
  alternating (transcripts mount) = true
  /\ (forall env s, transcripts (after (startSession env s)) = [])
  /\ (forall e s, alternating (transcripts s) = true ->
                  alternating (transcripts (after (handle e s))) = true)
  /\ (forall s, reachable s -> alternating (transcripts s) = true).
Proof.
  split; [reflexivity|]. split; [intros [|c p] s; reflexivity|].
  split; [exact handle_alternating|].
  induction 1 as [|e s _ IH]; [reflexivity|].
  now apply handle_alternating.
Qed.

Lemma run_reachable es : forall s, reachable s -> reachable (fst (run es s)).
Proof.
  induction es as [|e r IH]; intros s R; cbn [run].
  - exact R.
  - specialize (IH (after (handle e s)) (reachable_step e s R)).
    destruct (run r (after (handle e s))). exact IH.
Qed.

(** A transcription-delta message runs the transcription block only. *)
Lemma onmessage_transcription_delta now who fragment s :
  onmessage now (transcription_delta who fragment) s
  = {| after := afterFragment who fragment s;
       effects := [];
       completion := Normal |}.
Proof. destruct who; reflexivity. Qed.

Lemma onTranscription_delta who fragment s :
  let s' := afterFragment who fragment s in
  bufferOf who s' = (bufferOf who s ++ fragment)%string
  /\ transcripts s'
     = updateTranscripts who (bufferOf who s ++ fragment)%string
                         (transcripts s).
Proof. destruct who; cbn; auto. Qed.

(** C4 (as amended).  With the user's accumulation buffer empty and a
    transcript whose last entry is not the user's, the fragments "Hel"
    then "lo" from the user, with no turn-complete between them, add
    exactly one entry, {user, "Hello"}.  In general a fragment is
    appended to its speaker's buffer; when the last entry has the same
    speaker that entry is replaced in place by the buffer, otherwise a new
    entry holding the buffer is appended.  A turn-complete between two
    fragments of one speaker empties the buffer but the second fragment
    still replaces the same last entry. *)
Theorem fragments_coalesce :
  (forall now1 now2 s,
      currentInputRef s = "" ->
      last_not user (transcripts s) = true ->
      let s1 := after (onmessage now1 (transcription_delta user "Hel") s) in
      let s2 := after (onmessage now2 (transcription_delta user "lo") s1) in
      transcripts s2
      = transcripts s ++ [{| speaker := user; text := "Hello" |}])
  /\ (forall now who fragment s,
         let s' := after (onmessage now (transcription_delta who fragment) s)
         in
         bufferOf who s' = (bufferOf who s ++ fragment)%string
         /\ (forall init l,
                transcripts s = init ++ [l] -> speaker l = who ->
                transcripts s'
                = init ++ [{| speaker := who; text := bufferOf who s' |}])
         /\ (last_not who (transcripts s) = true ->
             transcripts s'
             = transcripts s
                 ++ [{| speaker := who; text := bufferOf who s' |}]))
  /\ (forall now1 now2 now3 who f1 f2 s,
         last_not who (transcripts s) = true ->
         let s1 := after (onmessage now1 (transcription_delta who f1) s) in
         let s2 := after (onmessage now2 turn_complete s1) in
         let s3 := after (onmessage now3 (transcription_delta who f2) s2) in
         transcripts s3
         = transcripts s ++ [{| speaker := who; text := f2 |}]).
Proof.
  split; [|split].
  - intros now1 now2 s B L s1 s2. subst s1 s2.
    rewrite !onmessage_transcription_delta. cbn [after].
    destruct (onTranscription_delta user "lo"
                (afterFragment user "Hel" s))
      as (_ & ->).
    destruct (onTranscription_delta user "Hel" s) as (-> & ->).
    cbn [bufferOf]. rewrite B.
    rewrite (updateTranscripts_other user _ _ L).
    now rewrite updateTranscripts_same.
  - intros now who fragment s s'. subst s'.
    rewrite onmessage_transcription_delta. cbn [after].
    destruct (onTranscription_delta who fragment s) as (-> & ->).
    split; [reflexivity|]. split.
    + intros init l -> E. now apply updateTranscripts_same.
    + intro L. now apply updateTranscripts_other.
  - intros now1 now2 now3 who f1 f2 s L s1 s2 s3. subst s1 s2 s3.
    rewrite !onmessage_transcription_delta. cbn [after].
    set (s1 := afterFragment who f1 s).
    assert (onmessage now2 turn_complete s1
            = {| after := onTurnComplete turn_complete s1;
                 effects := []; completion := Normal |}) as -> by reflexivity.
    cbn [after].
    destruct (onTranscription_delta who f2 (onTurnComplete turn_complete s1))
      as (_ & ->).
    assert (bufferOf who (onTurnComplete turn_complete s1) = "") as ->
        by (destruct who; reflexivity).
    rewrite onTurnComplete_transcripts. unfold s1.
    destruct (onTranscription_delta who f1 s) as (_ & ->).
    rewrite (updateTranscripts_other who _ _ L).
    now rewrite updateTranscripts_same.
Qed.

(** C8.  The turn-complete block empties both accumulation buffers and
    does not write the transcript, and a message that carries only the
    flag changes nothing else.  But the updater that a transcription of
    the same message has queued runs after the block and reads the ref
    the block has emptied: a message with a fragment and the flag leaves
    the speaker's entry with the text "" (here the agent's entry "Hi"
    becomes "", where the same fragment without the flag makes it
    "HiYo"), so the flag does modify a transcript entry. *)
Theorem turn_complete_blanks_entry :
  (forall now s,
      onmessage now turn_complete s
      = {| after := onTurnComplete turn_complete s;
           effects := [];
           completion := Normal |}
      /\ currentInputRef (onTurnComplete turn_complete s) = ""
      /\ currentOutputRef (onTurnComplete turn_complete s) = ""
      /\ transcripts (onTurnComplete turn_complete s) = transcripts s)
  /\ (forall now m s,
         turnComplete m = true ->
         currentInputRef (after (onmessage now m s)) = ""
         /\ currentOutputRef (after (onmessage now m s)) = "")
  /\ (forall now m s,
         outputTranscription m = None -> inputTranscription m = None ->
         transcripts (after (onmessage now m s)) = transcripts s)
  /\ (forall now m s who,
         turnComplete m = true -> queuedUpdater m = Some who ->
         transcripts (after (onmessage now m s))
         = updateTranscripts who "" (transcripts s))
  /\ (forall now s,
         transcripts s = [{| speaker := ai; text := "Hi" |}] ->
         currentOutputRef s = "Hi" ->
         transcripts
           (after (onmessage now
                     {| outputTranscription := Some (Some "Yo");
                        inputTranscription := None;
                        turnComplete := true;
                        modelTurn := NoModelTurn;
                        interrupted := false |} s))
         = [{| speaker := ai; text := "" |}]
         /\ transcripts
              (after (onmessage now (transcription_delta ai "Yo") s))
            = [{| speaker := ai; text := "HiYo" |}]).
Proof.
  split; [|split; [|split; [|split]]].
  - intros now s. repeat split; reflexivity.
  - intros now m s T.
    destruct (onmessage_text now m s) as (-> & -> & _).
    unfold onTurnComplete. rewrite T. split; reflexivity.
  - intros now m s O I.
    destruct (onmessage_text now m s) as (_ & _ & ->).
    unfold queuedUpdater. now rewrite O, I.
  - intros now m s who T U.
    destruct (onmessage_text now m s) as (_ & _ & ->).
    rewrite U. unfold onTurnComplete. rewrite T.
    now destruct who.
  - intros now s T B. split.
    + destruct (onmessage_text now
                  {| outputTranscription := Some (Some "Yo");
                     inputTranscription := None;
                     turnComplete := true;
                     modelTurn := NoModelTurn;
                     interrupted := false |} s) as (_ & _ & ->).
      cbn. now rewrite T.
    + destruct (onmessage_text now (transcription_delta ai "Yo") s)
        as (_ & _ & ->).
      cbn. rewrite T, B. reflexivity.
Qed.

(** ** Playback scheduling *)

Section Scheduling.

Local Open Scope Q_scope.

(** *** Arithmetic on numbers *)

Lemma value_fixed (x : Number) : Double.fl x = x.
Proof. apply fl_idempotent. Qed.

Lemma Number_add_value (x y : Number) :
  value (Number_add x y) = Double.fl (x + y).
Proof. reflexivity. Qed.

(** The sum depends on the values added, not on how they were written. *)
Lemma Number_add_morphism (x x' y y' : Number) :
  x == x' -> y == y' -> value (Number_add x y) = value (Number_add x' y').
Proof.
  intros Ex Ey. rewrite !Number_add_value. apply fl_morphism.
  now rewrite Ex, Ey.
Qed.

(** Adding a number that is not negative does not go down. *)
Lemma Number_add_ge_l (x y : Number) : 0 <= y -> x <= Number_add x y.
Proof.
  intro H. rewrite Number_add_value.
  assert (x <= x + y) as L by lra.
  apply fl_monotone in L. now rewrite value_fixed in L.
Qed.

Lemma Number_add_ge_r (x y : Number) : 0 <= x -> y <= Number_add x y.
Proof.
  intro H. rewrite Number_add_value.
  assert (y <= x + y) as L by lra.
  apply fl_monotone in L. now rewrite value_fixed in L.
Qed.

Lemma Number_add_positive (x y : Number) :
  0 <= x -> 0 < y -> 0 < Number_add x y.
Proof.
  intros Hx Hy. rewrite Number_add_value. apply fl_positive. lra.
Qed.

(** Adding to 0 is exact. *)
Lemma Number_add_zero_l (x y : Number) : x == 0 -> Number_add x y == y.
Proof.
  intro E. rewrite Number_add_value.
  rewrite (fl_morphism (x + y) y) by lra.
  now rewrite value_fixed.
Qed.

(** One addition is off by at most 2^-53 of the exact sum. *)
Lemma Number_add_error (x y : Number) :
  0 <= x + y -> x + y - Number_add x y <= (x + y) * (1 # 2 ^ 53).
Proof.
  intro H. rewrite Number_add_value.
  pose proof (fl_error (x + y)) as E.
  rewrite (Qabs_pos (x + y) H) in E.
  revert E. apply Qabs_case; intros; lra.
Qed.

Lemma runningSum_from_morphism l :
  forall x x' : Number,
    x == x' ->
    value (fold_left Number_add l x) = value (fold_left Number_add l x').
Proof.
  induction l as [|d r IH]; intros x x' E; cbn [fold_left].
  - rewrite <- (value_fixed x), <- (value_fixed x'). now apply fl_morphism.
  - apply IH. rewrite (Number_add_morphism x x' d d E); reflexivity.
Qed.

Lemma Math_max_cases (a b : Number) :
  (a <= b /\ Math_max a b = b) \/ (b < a /\ Math_max a b = a).
Proof.
  unfold Math_max. destruct (Qle_bool a b) eqn:E.
  - left. split; [now apply Qle_bool_iff | reflexivity].
  - right. split; [|reflexivity].
    apply Qnot_le_lt. intro H. apply Qle_bool_iff in H. congruence.
Qed.

Lemma Math_max_ge_l (a b : Number) : a <= Math_max a b.
Proof. destruct (Math_max_cases a b) as [[H ->]|[H ->]]; lra. Qed.

Lemma Math_max_ge_r (a b : Number) : b <= Math_max a b.
Proof. destruct (Math_max_cases a b) as [[H ->]|[H ->]]; lra. Qed.

Lemma Math_max_behind (a b : Number) : b <= a -> Math_max a b == a.
Proof. intro L. destruct (Math_max_cases a b) as [[H ->]|[H ->]]; lra. Qed.

Lemma duration_nonneg b : 0 <= duration b.
Proof.
  unfold duration, value. cbn [literal].
  rewrite <- fl_zero. apply fl_monotone. unfold Qle. cbn. lia.
Qed.

(** A buffer that [decodeAudioData] returns has at least one frame. *)
Lemma decodeAudioData_duration supports bytes ctx rate n b :
  decodeAudioData supports bytes ctx rate n = Some b -> 0 < duration b.
Proof.
  unfold decodeAudioData.
  destruct (Int16Array_of_buffer bytes) as [a|]; [|discriminate].
  destruct (Nat.eqb n 0 || Nat.eqb (List.length a / n) 0
            || negb (supports n rate))%bool eqn:E;
    [discriminate|].
  intro H. injection H as <-.
  apply orb_false_iff in E as [E _].
  apply orb_false_iff in E as [_ E]. apply Nat.eqb_neq in E.
  unfold duration, value. cbn [literal frames sampleRate].
  apply fl_positive. unfold Qlt. cbn. lia.
Qed.

Lemma decodePayload_duration p ctx b :
  decodePayload p ctx = Some b -> 0 < duration b.
Proof.
  unfold decodePayload. destruct (decode p); [|discriminate].
  apply decodeAudioData_duration.
Qed.

(** *** The audio block *)

(** The queued updater writes the transcript only. *)
Lemma runUpdater_cells queued s :
  nextStartTimeRef (runUpdater queued s) = nextStartTimeRef s
  /\ sourcesRef (runUpdater queued s) = sourcesRef s
  /\ created (runUpdater queued s) = created s
  /\ sessionCells (runUpdater queued s) = sessionCells s.
Proof. destruct queued; repeat split. Qed.

(** On a message without a transcription the handler is the turn-complete
    block and the audio block. *)
Lemma onmessage_no_text now m s :
  outputTranscription m = None -> inputTranscription m = None ->
  onmessage now m s = onAudio now m (onTurnComplete m s).
Proof.
  intros O I. unfold onmessage, queuedUpdater, onTranscription.
  rewrite O, I. cbn [runUpdater].
  now destruct (onAudio now m (onTurnComplete m s)).
Qed.

Lemma onmessage_audio now p s :
  onmessage now (audio_delta p) s = onAudio now (audio_delta p) s.
Proof. now rewrite onmessage_no_text. Qed.

(** The audio block on a playable payload: one unit starts at the larger
    of the cursor and the clock, the cursor moves to its end, and the unit
    joins the live set; the [interrupted] block follows. *)
Lemma onAudio_schedules now m s ctx p b :
  modelTurn m = FirstPart (Some p) ->
  outputAudioContextRef s = Some ctx ->
  p <> ""%string ->
  decodePayload p ctx = Some b ->
  let source := {| node_id := created s;
                   buffer := b;
                   startTime := Math_max (nextStartTimeRef s) now |} in
  onAudio now m s
  = onInterrupted m
      (with_playback (Number_add (Math_max (nextStartTimeRef s) now)
                                 (duration b))
                     (sourcesRef s ++ [source]) (S (created s)) s)
      [SourceStart source].
Proof.
  intros M C P D. unfold onAudio. rewrite M, C.
  apply String.eqb_neq in P. rewrite P.
  cbn [with_playback outputAudioContextRef]. rewrite D. reflexivity.
Qed.

Lemma onmessage_audio_delta now p s ctx b :
  outputAudioContextRef s = Some ctx ->
  p <> ""%string ->
  decodePayload p ctx = Some b ->
  let source := {| node_id := created s;
                   buffer := b;
                   startTime := Math_max (nextStartTimeRef s) now |} in
  onmessage now (audio_delta p) s
  = {| after :=
         with_playback (Number_add (Math_max (nextStartTimeRef s) now)
                                   (duration b))
                       (sourcesRef s ++ [source]) (S (created s)) s;
       effects := [SourceStart source];
       completion := Normal |}.
Proof.
  intros C P D. rewrite onmessage_audio.
  now rewrite (onAudio_schedules now (audio_delta p) s ctx p b eq_refl C P D).
Qed.

Lemma scheduled_starts units : scheduled (map SourceStart units) = units.
Proof.
  induction units as [|n r IH]; [reflexivity|].
  cbn [map]. unfold scheduled in *. cbn [flat_map app]. now rewrite IH.
Qed.

Lemma gapless_shift t t' units : t == t' -> gapless t units -> gapless t' units.
Proof.
  intro E. destruct units as [|n r]; [trivial|].
  intros [G1 G2]. split; [lra | exact G2].
Qed.

(** The end the program computes for a unit is the cursor it writes. *)
Lemma scheduledEnd_source id b (t : Number) :
  scheduledEnd {| node_id := id; buffer := b; startTime := t |}
  = Number_add t (duration b).
Proof. reflexivity. Qed.

(** Frames that arrive while the clock is behind the cursor are laid out
    back to back from the cursor. *)
Lemma run_audio ctx fs :
  forall s (c : Number),
    outputAudioContextRef s = Some ctx ->
    nextStartTimeRef s == c ->
    Forall (fun f => playable ctx (snd f)) fs ->
    clockBehind ctx c fs ->
    exists units,
      snd (run (audioEvents fs) s) = map SourceStart units
      /\ sourcesRef (fst (run (audioEvents fs) s)) = sourcesRef s ++ units
      /\ durations units = map (fun f => payloadDuration ctx (snd f)) fs
      /\ gapless c units
      /\ nextStartTimeRef (fst (run (audioEvents fs) s))
         == fold_left Number_add (durations units) c.
Proof.
  induction fs as [|[now p] r IH]; intros s c C E F B.
  - exists []. cbn. rewrite app_nil_r. repeat split; trivial.
  - inversion F as [|? ? [P D] F']; subst. cbn [snd] in P, D.
    destruct B as [Bn Br].
    destruct (decodePayload p ctx) as [b|] eqn:Db; [|congruence].
    assert (payloadDuration ctx p = duration b) as Pd
        by (unfold payloadDuration; now rewrite Db).
    cbn [audioEvents map run handle fst snd].
    rewrite (onmessage_audio_delta now p s ctx b C P Db). cbn [after effects].
    set (source := {| node_id := created s; buffer := b;
                      startTime := Math_max (nextStartTimeRef s) now |}).
    set (s1 := with_playback _ _ _ s).
    assert (Math_max (nextStartTimeRef s) now == c) as Hs
        by (rewrite Math_max_behind; lra).
    assert (value (Number_add (Math_max (nextStartTimeRef s) now)
                              (duration b))
            = value (Number_add c (duration b))) as Hc
        by (apply Number_add_morphism; [exact Hs | reflexivity]).
    destruct (IH s1 (Number_add c (duration b)))
      as (units & L & S & Du & G & N).
    + exact C.
    + unfold s1. cbn [with_playback nextStartTimeRef]. now rewrite Hc.
    + exact F'.
    + now rewrite <- Pd.
    + fold (audioEvents r) in *.
      destruct (run (audioEvents r) s1) as [s' log]. cbn [fst snd] in *.
      exists (source :: units). repeat split.
      * cbn [map app]. now rewrite L.
      * rewrite S. unfold s1. cbn [with_playback sourcesRef].
        now rewrite <- app_assoc.
      * cbn [durations map snd]. fold (durations units).
        now rewrite Du, Pd.
      * exact Hs.
      * apply (gapless_shift (Number_add c (duration b))); [|exact G].
        unfold source. now rewrite scheduledEnd_source, Hc.
      * exact N.
Qed.

Lemma gapless_nth units :
  forall (c : Number) i n,
    gapless c units -> nth_error units i = Some n ->
    startTime n == fold_left Number_add (firstn i (durations units)) c.
Proof.
  induction units as [|a r IH]; intros c i n G E.
  - destruct i; discriminate.
  - destruct G as [Ga Gr]. destruct i as [|i].
    + injection E as <-. exact Ga.
    + cbn [nth_error] in E. rewrite (IH _ _ _ Gr E).
      cbn [durations map firstn fold_left]. fold (durations r).
      rewrite (runningSum_from_morphism _ (scheduledEnd a)
                 (Number_add c (duration (buffer a)))); [reflexivity|].
      unfold scheduledEnd.
      now rewrite (Number_add_morphism _ c _ (duration (buffer a)) Ga).
Qed.

Lemma gapless_not_before units :
  forall t, gapless t units -> Forall (fun n => t <= startTime n) units.
Proof.
  induction units as [|a r IH]; intros t G; constructor.
  - destruct G as [Ga _]. lra.
  - destruct G as [Ga Gr]. apply IH in Gr.
    apply (Forall_impl _ (P := fun n => scheduledEnd a <= startTime n));
      [|exact Gr].
    intros n H.
    pose proof (Number_add_ge_l (startTime a) (duration (buffer a))
                  (duration_nonneg (buffer a))) as M.
    fold (scheduledEnd a) in M. lra.
Qed.

Lemma gapless_no_overlap units :
  forall t, gapless t units ->
            ForallOrdPairs (fun a b => scheduledEnd a <= startTime b) units.
Proof.
  induction units as [|a r IH]; intros t G; constructor.
  - destruct G as [_ Gr]. now apply gapless_not_before.
  - destruct G as [_ Gr]. now apply (IH (scheduledEnd a)).
Qed.

(** The end the program computes for a unit is below the unit's exact end
    by at most one rounding. *)
Lemma scheduledEnd_error (a : SourceNode) :
  0 <= startTime a ->
  endTime a - scheduledEnd a <= endTime a * (1 # 2 ^ 53).
Proof.
  intro H. unfold endTime, scheduledEnd. apply Number_add_error.
  pose proof (duration_nonneg (buffer a)). lra.
Qed.

Lemma gapless_overlap units :
  forall t,
    0 <= t -> gapless t units ->
    ForallOrdPairs
      (fun a b => endTime a - startTime b <= endTime a * (1 # 2 ^ 53)) units.
Proof.
  induction units as [|a r IH]; intros t T G; constructor.
  - destruct G as [Ga Gr]. apply gapless_not_before in Gr.
    apply (Forall_impl _ (P := fun n => scheduledEnd a <= startTime n));
      [|exact Gr].
    intros n H.
    assert (0 <= startTime a) as Sa by lra.
    pose proof (scheduledEnd_error a Sa). lra.
  - destruct G as [Ga Gr]. apply (IH (scheduledEnd a)); [|exact Gr].
    pose proof (Number_add_ge_l (startTime a) (duration (buffer a))
                  (duration_nonneg (buffer a))) as M.
    fold (scheduledEnd a) in M. lra.
Qed.

(** C1 (as amended).  One audio-delta message with a playable payload
    schedules one unit: it starts at [max(cursor, now)] and the cursor
    becomes that start plus the unit's duration, added as numbers (one
    rounding).  For frames of durations d1..dn processed from an idle
    scheduler (cursor 0, empty live set) while the clock reading at the
    i-th frame is at most the running sum of d1..d(i-1), exactly the n
    units are scheduled, the i-th starts at the running sum of
    d1..d(i-1) (each addition rounded), the cursor ends at the running
    sum of d1..dn, every unit starts at the end the program computed for
    the one before it, and no unit starts before that computed end of an
    earlier one; against the exact end of an earlier unit a start is
    early by at most 2^-53 of that end. *)
Theorem gapless_ordering :
  (forall now p s ctx b,
      outputAudioContextRef s = Some ctx ->
      p <> ""%string ->
      decodePayload p ctx = Some b ->
      let o := onmessage now (audio_delta p) s in
      exists source,
        effects o = [SourceStart source]
        /\ buffer source = b
        /\ startTime source = Math_max (nextStartTimeRef s) now
        /\ nextStartTimeRef (after o)
           = Number_add (startTime source) (duration b)
        /\ sourcesRef (after o) = sourcesRef s ++ [source])
  /\ (forall ctx fs s,
         outputAudioContextRef s = Some ctx ->
         nextStartTimeRef s == 0 ->
         sourcesRef s = [] ->
         Forall (fun f => playable ctx (snd f)) fs ->
         clockBehind ctx 0 fs ->
         let r := run (audioEvents fs) s in
         let units := scheduled (snd r) in
         snd r = map SourceStart units
         /\ sourcesRef (fst r) = units
         /\ durations units = map (fun f => payloadDuration ctx (snd f)) fs
         /\ (forall i n,
                nth_error units i = Some n ->
                startTime n == runningSum (firstn i (durations units)))
         /\ nextStartTimeRef (fst r) == runningSum (durations units)
         /\ gapless 0 units
         /\ ForallOrdPairs (fun a b => scheduledEnd a <= startTime b) units
         /\ ForallOrdPairs
              (fun a b => endTime a - startTime b
                          <= endTime a * (1 # 2 ^ 53)) units).
Proof.
  split.
  - intros now p s ctx b C P D o. subst o.
    rewrite (onmessage_audio_delta now p s ctx b C P D).
    eexists. cbn [effects after]. repeat split.
  - intros ctx fs s C E L F B r units.
    destruct (run_audio ctx fs s 0 C E F B) as (us & Hl & Hs & Hd & G & N).
    fold r in Hl, Hs, N.
    assert (units = us) as -> by (unfold units; rewrite Hl; apply scheduled_starts).
    rewrite L in Hs. cbn [app] in Hs.
    repeat split; trivial.
    + intros i n En. exact (gapless_nth us 0 i n G En).
    + now apply (gapless_no_overlap us 0).
    + apply (gapless_overlap us 0); [cbn; lra | exact G].
Qed.

(** The transcription and turn-complete blocks leave the scheduler cells
    alone. *)
Lemma text_blocks_playback m s :
  let s0 := onTurnComplete m (onTranscription m s) in
  nextStartTimeRef s0 = nextStartTimeRef s
  /\ sourcesRef s0 = sourcesRef s
  /\ created s0 = created s
  /\ outputAudioContextRef s0 = outputAudioContextRef s.
Proof.
  unfold onTurnComplete, onTranscription.
  destruct (turnComplete m), (outputTranscription m), (inputTranscription m);
    cbn; auto.
Qed.

Lemma stopped_app l1 l2 : stopped (l1 ++ l2) = stopped l1 ++ stopped l2.
Proof. unfold stopped. apply flat_map_app. Qed.

Lemma stopped_stops (live : list SourceNode) :
  stopped (map (fun source => SourceStop (node_id source)) live)
  = map node_id live.
Proof.
  induction live as [|n r IH]; [reflexivity|].
  cbn [map]. unfold stopped in *. cbn [flat_map app]. now rewrite IH.
Qed.

(** The [interrupted] block with the flag set. *)
Lemma onInterrupted_set m s done :
  interrupted m = true ->
  onInterrupted m s done
  = {| after := with_playback 0 [] (created s) s;
       effects := done ++ map (fun source => SourceStop (node_id source))
                              (sourcesRef s);
       completion := Normal |}.
Proof. intro I. unfold onInterrupted. now rewrite I. Qed.

Lemma onInterrupted_clear m s done :
  interrupted m = false ->
  onInterrupted m s done
  = {| after := s; effects := done; completion := Normal |}.
Proof. intro I. unfold onInterrupted. now rewrite I. Qed.

(** How [onmessage] ends, by the audio block: either the [interrupted]
    block runs on the state the text blocks left, or a unit was scheduled
    first, or the handler threw, before or after the cursor was clamped. *)
Lemma onAudio_cases now m s0 :
  let clamp := Math_max (nextStartTimeRef s0) now in
  onAudio now m s0 = onInterrupted m s0 []
  \/ (exists b source,
         0 < duration b
         /\ source = {| node_id := created s0; buffer := b;
                        startTime := clamp |}
         /\ onAudio now m s0
            = onInterrupted m
                (with_playback (Number_add clamp (duration b))
                               (sourcesRef s0 ++ [source])
                               (S (created s0)) s0)
                [SourceStart source])
  \/ onAudio now m s0
     = {| after := s0; effects := []; completion := Throws |}
  \/ onAudio now m s0
     = {| after := with_playback clamp (sourcesRef s0) (created s0) s0;
          effects := [];
          completion := Throws |}.
Proof.
  intros clamp. unfold onAudio.
  destruct (modelTurn m) as [| |[p|]]; auto.
  destruct (outputAudioContextRef s0) as [ctx|]; auto.
  destruct (String.eqb p ""); auto.
  destruct (decodePayload p ctx) as [b|] eqn:D; auto.
  right. left. eexists. eexists.
  split; [exact (decodePayload_duration p ctx b D)|].
  split; reflexivity.
Qed.

(** The scheduler cells, the log and the completion of [onmessage] are
    those of the audio block. *)
Lemma onmessage_ends now m s :
  let o := onAudio now m (onTurnComplete m (onTranscription m s)) in
  nextStartTimeRef (after (onmessage now m s)) = nextStartTimeRef (after o)
  /\ sourcesRef (after (onmessage now m s)) = sourcesRef (after o)
  /\ created (after (onmessage now m s)) = created (after o)
  /\ effects (onmessage now m s) = effects o
  /\ completion (onmessage now m s) = completion o.
Proof.
  cbn zeta. unfold onmessage. cbn [after effects completion].
  destruct (runUpdater_cells (queuedUpdater m)
              (after (onAudio now m (onTurnComplete m (onTranscription m s)))))
    as (-> & -> & -> & _).
  repeat split.
Qed.

(** A message with the [interrupted] flag, when the handler completes. *)
Lemma onmessage_interrupted now m s :
  interrupted m = true ->
  completion (onmessage now m s) = Normal ->
  sourcesRef (after (onmessage now m s)) = []
  /\ nextStartTimeRef (after (onmessage now m s)) = 0
  /\ (forall source,
         In source (sourcesRef s) ->
         In (node_id source) (stopped (effects (onmessage now m s)))).
Proof.
  intros I N.
  destruct (text_blocks_playback m s) as (_ & Hs & _ & _).
  cbn zeta in Hs.
  destruct (onmessage_ends now m s) as (-> & -> & _ & -> & Hn).
  cbn zeta in Hn. rewrite Hn in N.
  destruct (onAudio_cases now m (onTurnComplete m (onTranscription m s)))
    as [E|[(b & src & _ & _ & E)|[E|E]]];
    rewrite E in N |- *; try discriminate N;
    rewrite (onInterrupted_set _ _ _ I); cbn [after effects];
    (split; [reflexivity|]); (split; [reflexivity|]);
    intros source Hin; rewrite stopped_app, stopped_stops;
    apply in_or_app; right; apply in_map;
    cbn [with_playback sourcesRef]; rewrite Hs.
  - exact Hin.
  - apply in_or_app. now left.
Qed.

(** C2.  A barge-in message stops every unit of the live set, in order,
    empties the live set and writes 0 to the cursor; so does any message
    with the [interrupted] flag on which the handler completes.  A second
    barge-in right after changes nothing and stops nothing, and a
    barge-in on an empty live set stops nothing.  The next audio-delta
    message after a barge-in is scheduled at [max(0, now)], which is at
    least the clock reading. *)
Theorem barge_in_clears :
  (forall now s,
      onmessage now barge_in s
      = {| after := with_playback 0 [] (created s) s;
           effects := map (fun source => SourceStop (node_id source))
                          (sourcesRef s);
           completion := Normal |})
  /\ (forall now m s,
         interrupted m = true ->
         completion (onmessage now m s) = Normal ->
         sourcesRef (after (onmessage now m s)) = []
         /\ nextStartTimeRef (after (onmessage now m s)) = 0
         /\ (forall source,
                In source (sourcesRef s) ->
                In (node_id source) (stopped (effects (onmessage now m s)))))
  /\ (forall now now' s,
         onmessage now' barge_in (after (onmessage now barge_in s))
         = {| after := after (onmessage now barge_in s);
              effects := [];
              completion := Normal |})
  /\ (forall now s,
         sourcesRef s = [] ->
         effects (onmessage now barge_in s) = []
         /\ completion (onmessage now barge_in s) = Normal)
  /\ (forall now now' p s ctx b,
         outputAudioContextRef s = Some ctx ->
         p <> ""%string ->
         decodePayload p ctx = Some b ->
         let s0 := after (onmessage now barge_in s) in
         exists source,
           effects (onmessage now' (audio_delta p) s0) = [SourceStart source]
           /\ startTime source = Math_max 0 now'
           /\ now' <= startTime source).
Proof.
  split; [reflexivity|]. split; [|split; [reflexivity|split]].
  - exact onmessage_interrupted.
  - intros now s E. unfold barge_in, onmessage. cbn. now rewrite E.
  - intros now now' p s ctx b C P D s0. subst s0.
    assert (outputAudioContextRef (after (onmessage now barge_in s))
            = Some ctx) as C' by exact C.
    rewrite (onmessage_audio_delta now' p _ ctx b C' P D).
    eexists. cbn [effects startTime]. split; [reflexivity|].
    split; [reflexivity|]. apply Math_max_ge_r.
Qed.

(** The cursor after a message: written 0 by the [interrupted] block, or
    left alone, or clamped to the clock, or clamped and advanced by a
    positive duration. *)
Lemma onmessage_cursor now m s :
  let c := nextStartTimeRef s in
  let c' := nextStartTimeRef (after (onmessage now m s)) in
  (interrupted m = true /\ c' = 0)
  \/ c' = c
  \/ c' = Math_max c now
  \/ (exists b, 0 < duration b
                 /\ c' = Number_add (Math_max c now) (duration b)).
Proof.
  intros c c'. subst c c'.
  destruct (text_blocks_playback m s) as (Hc & _ & _ & _). cbn zeta in Hc.
  destruct (onmessage_ends now m s) as (-> & _). 
  destruct (onAudio_cases now m (onTurnComplete m (onTranscription m s)))
    as [E|[(b & src & Hb & _ & E)|[E|E]]];
    rewrite E; clear E.
  - destruct (interrupted m) eqn:I.
    + left. rewrite (onInterrupted_set _ _ _ I). auto.
    + right. left. rewrite (onInterrupted_clear _ _ _ I). exact Hc.
  - destruct (interrupted m) eqn:I.
    + left. rewrite (onInterrupted_set _ _ _ I). auto.
    + right. right. right. exists b. split; [exact Hb|].
      rewrite (onInterrupted_clear _ _ _ I).
      cbn [after with_playback nextStartTimeRef]. now rewrite Hc.
  - right. left. exact Hc.
  - right. right. left. cbn [after with_playback nextStartTimeRef].
    now rewrite Hc.
Qed.

Lemma stopSession_cursor active s :
  nextStartTimeRef (after (stopSession active s)) = nextStartTimeRef s.
Proof.
  unfold stopSession. destruct active, (sessionPromiseRef s); reflexivity.
Qed.

(** The cursor is never negative. *)
Lemma handle_cursor_nonneg e s :
  0 <= nextStartTimeRef s -> 0 <= nextStartTimeRef (after (handle e s)).
Proof.
  intro H. destruct e as [env|env|d|now m|id|a msg|a|a]; cbn [handle].
  - unfold handleToggleSession. destruct (isSessionActive s).
    + now rewrite stopSession_cursor.
    + destruct env; cbn; [exact H | lra].
  - destruct env; exact H.
  - exact H.
  - pose proof (Math_max_ge_l (nextStartTimeRef s) now) as M.
    destruct (onmessage_cursor now m s)
      as [[_ E]|[E|[E|(b & Hb & E)]]]; cbn zeta in E; rewrite E;
      [cbn; lra | lra | lra |].
    apply Qlt_le_weak, Number_add_positive; [lra | exact Hb].
  - exact H.
  - unfold onerror. now rewrite stopSession_cursor.
  - unfold onclose. now rewrite stopSession_cursor.
  - now rewrite stopSession_cursor.
Qed.

Lemma reachable_cursor_nonneg s : reachable s -> 0 <= nextStartTimeRef s.
Proof.
  induction 1 as [|e s _ IH]; [cbn; lra|]. now apply handle_cursor_nonneg.
Qed.

(** C5 (as amended).  When a unit is scheduled it starts at
    [max(cursor, now)], which is at least the clock reading, and the
    cursor becomes that start plus the unit's duration, added as numbers:
    the sum rounded once, within 2^-53 of the exact sum and not below the
    start, so right after scheduling the cursor is at least the clock
    reading.  The cursor is never negative, and an event brings it to 0
    only if it is a session start that connects or a message with the
    [interrupted] flag; both write 0.  [stopSession] leaves the cursor as
    it is. *)
Theorem cursor_discipline :
  (forall (now : Number) m s ctx p b,
      modelTurn m = FirstPart (Some p) ->
      outputAudioContextRef s = Some ctx ->
      p <> ""%string ->
      decodePayload p ctx = Some b ->
      interrupted m = false ->
      let o := onmessage now m s in
      exists source,
        effects o = [SourceStart source]
        /\ buffer source = b
        /\ startTime source = Math_max (nextStartTimeRef s) now
        /\ now <= startTime source
        /\ nextStartTimeRef (after o)
           = Number_add (startTime source) (duration b)
        /\ Qabs (nextStartTimeRef (after o) - (startTime source + duration b))
           <= Qabs (startTime source + duration b) * (1 # 2 ^ 53)
        /\ startTime source <= nextStartTimeRef (after o)
        /\ now <= nextStartTimeRef (after o))
  /\ (forall e s,
         0 <= nextStartTimeRef s ->
         nextStartTimeRef (after (handle e s)) == 0 ->
         nextStartTimeRef s == 0 \/ resetsCursor e s)
  /\ (forall s, reachable s -> 0 <= nextStartTimeRef s)
  /\ (forall now m s,
         interrupted m = true ->
         completion (onmessage now m s) = Normal ->
         nextStartTimeRef (after (onmessage now m s)) = 0)
  /\ (forall ctx p s,
         nextStartTimeRef (after (startSession (Connects ctx p) s)) = 0)
  /\ (forall active s,
         nextStartTimeRef (after (stopSession active s))
         = nextStartTimeRef s).
Proof.
  split; [|split; [|split; [|split; [|split]]]].
  - intros now m s ctx p b M C P D I o. subst o.
    destruct (text_blocks_playback m s) as (Hc & Hs & Hn & Hx).
    cbn zeta in Hc, Hs, Hn, Hx.
    destruct (onmessage_ends now m s) as (-> & _ & _ & -> & _).
    rewrite (onAudio_schedules now m _ ctx p b M (eq_trans Hx C) P D).
    rewrite (onInterrupted_clear _ _ _ I).
    eexists. cbn [effects after with_playback nextStartTimeRef
                  startTime buffer].
    rewrite Hc.
    pose proof (Math_max_ge_r (nextStartTimeRef s) now) as R.
    pose proof (Number_add_ge_l (Math_max (nextStartTimeRef s) now)
                  (duration b) (duration_nonneg b)) as G.
    repeat split; trivial; [|lra].
    rewrite Number_add_value. apply fl_error.
  - intros e s H Z.
    destruct e as [env|env|d|now m|id|a msg|a|a]; cbn [handle] in Z;
      cbn [resetsCursor].
    + unfold handleToggleSession in Z. destruct (isSessionActive s) eqn:A.
      * rewrite stopSession_cursor in Z. now left.
      * destruct env; [now left | now right].
    + destruct env; now left.
    + now left.
    + pose proof (Math_max_ge_l (nextStartTimeRef s) now) as M.
      destruct (onmessage_cursor now m s)
        as [[I _]|[E|[E|(b & Hb & E)]]]; [now right| | |];
        cbn zeta in E; rewrite E in Z; left; [lra | lra |].
      assert (0 <= Math_max (nextStartTimeRef s) now) as P by lra.
      pose proof (Number_add_positive _ _ P Hb). lra.
    + now left.
    + unfold onerror in Z. rewrite stopSession_cursor in Z. now left.
    + unfold onclose in Z. rewrite stopSession_cursor in Z. now left.
    + rewrite stopSession_cursor in Z. now left.
  - exact reachable_cursor_nonneg.
  - intros now m s I N. now apply onmessage_interrupted.
  - reflexivity.
  - exact stopSession_cursor.
Qed.

(** Clamping twice against a clock that does not run backwards is
    clamping once. *)
Lemma Math_max_twice (c now now' : Number) :
  now <= now' -> Math_max (Math_max c now) now' == Math_max c now'.
Proof.
  intro L.
  destruct (Math_max_cases c now) as [[H1 E1]|[H1 E1]]; rewrite E1;
    destruct (Math_max_cases c now') as [[H2 E2]|[H2 E2]]; rewrite ?E2;
    try lra;
    destruct (Math_max_cases now now') as [[H3 E3]|[H3 E3]]; rewrite ?E3;
    lra.
Qed.

(** C7 (as amended).  When the payload of an audio-delta message does not
    decode (base64 or PCM view), the handler throws after it has clamped
    the cursor to the clock: no unit is started or added to the live set,
    no duration is added to the cursor, the cursor is [max(cursor, now)]
    and every other cell is unchanged.  The same holds of the scheduler
    cells for any message with such a payload.  A playable frame that
    follows, at a clock reading that is not earlier, is scheduled at the
    time, and leaves the cursor at the value, it would have had without
    the failed frame. *)
Theorem decode_failure_drops_frame :
  (forall now p s ctx,
      outputAudioContextRef s = Some ctx ->
      p <> ""%string ->
      decodePayload p ctx = None ->
      onmessage now (audio_delta p) s
      = {| after := with_playback (Math_max (nextStartTimeRef s) now)
                                  (sourcesRef s) (created s) s;
           effects := [];
           completion := Throws |})
  /\ (forall now m s ctx p,
         modelTurn m = FirstPart (Some p) ->
         outputAudioContextRef s = Some ctx ->
         p <> ""%string ->
         decodePayload p ctx = None ->
         let o := onmessage now m s in
         completion o = Throws
         /\ effects o = []
         /\ sourcesRef (after o) = sourcesRef s
         /\ nextStartTimeRef (after o) = Math_max (nextStartTimeRef s) now)
  /\ (forall (now now' : Number) p p' s ctx b,
         outputAudioContextRef s = Some ctx ->
         p <> ""%string ->
         decodePayload p ctx = None ->
         p' <> ""%string ->
         decodePayload p' ctx = Some b ->
         now <= now' ->
         let s1 := after (onmessage now (audio_delta p) s) in
         let o := onmessage now' (audio_delta p') s1 in
         let o0 := onmessage now' (audio_delta p') s in
         exists source source0,
           effects o = [SourceStart source]
           /\ effects o0 = [SourceStart source0]
           /\ node_id source = node_id source0
           /\ buffer source = buffer source0
           /\ startTime source == startTime source0
           /\ sourcesRef (after o) = sourcesRef s ++ [source]
           /\ nextStartTimeRef (after o) == nextStartTimeRef (after o0)).
Proof.
  assert (forall now m s ctx p,
             modelTurn m = FirstPart (Some p) ->
             outputAudioContextRef s = Some ctx ->
             p <> ""%string ->
             decodePayload p ctx = None ->
             onAudio now m s
             = {| after := with_playback (Math_max (nextStartTimeRef s) now)
                                         (sourcesRef s) (created s) s;
                  effects := [];
                  completion := Throws |}) as A.
  { intros now m s ctx p M C P D. unfold onAudio. rewrite M, C.
    apply String.eqb_neq in P. rewrite P. now rewrite D. }
  split; [|split].
  - intros now p s ctx C P D. rewrite onmessage_audio.
    exact (A now (audio_delta p) s ctx p eq_refl C P D).
  - intros now m s ctx p M C P D o. subst o.
    destruct (text_blocks_playback m s) as (Hc & Hs & Hn & Hx).
    cbn zeta in Hc, Hs, Hn, Hx.
    destruct (onmessage_ends now m s) as (-> & -> & _ & -> & ->).
    rewrite (A now m _ ctx p M (eq_trans Hx C) P D).
    cbn [completion effects after with_playback sourcesRef nextStartTimeRef].
    now rewrite Hc, Hs.
  - intros now now' p p' s ctx b C P D P' D' L s1 o o0. subst s1 o o0.
    rewrite (onmessage_audio now p s).
    rewrite (A now (audio_delta p) s ctx p eq_refl C P D).
    cbn [after].
    rewrite (onmessage_audio_delta now' p' s ctx b C P' D').
    assert (outputAudioContextRef
              (with_playback (Math_max (nextStartTimeRef s) now)
                             (sourcesRef s) (created s) s) = Some ctx)
      as C' by exact C.
    rewrite (onmessage_audio_delta now' p' _ ctx b C' P' D').
    eexists. eexists.
    cbn [effects after with_playback nextStartTimeRef sourcesRef created
         node_id buffer startTime].
    pose proof (Math_max_twice (nextStartTimeRef s) now now' L) as T.
    repeat split; trivial.
    now rewrite (Number_add_morphism _ _ _ (duration b) T).
Qed.

End Scheduling.

(** ** Stopping a session *)

(** Past its guard, [stopSession] nulls every handle and empties the live
    set. *)
Lemma stopSession_releases active s :
  ~ idle active s -> released (after (stopSession active s)).
Proof.
  unfold idle, stopSession. intro G.
  destruct active, (sessionPromiseRef s);
    try (exfalso; apply G; now split);
    repeat split.
Qed.

Lemma stopSession_idle active s :
  idle active s ->
  stopSession active s = {| after := s; effects := []; completion := Normal |}.
Proof. intros [-> E]. unfold stopSession. now rewrite E. Qed.

Lemma stopSession_completes active s :
  completion (stopSession active s) = Normal.
Proof.
  unfold stopSession. destruct active, (sessionPromiseRef s); reflexivity.
Qed.

(** Stopping what a stop has released does nothing. *)
Lemma stopSession_again a1 a2 s :
  ~ idle a1 s ->
  stopSession a2 (after (stopSession a1 s))
  = {| after := after (stopSession a1 s);
       effects := [];
       completion := Normal |}.
Proof.
  unfold idle, stopSession. intro G.
  destruct a1, (sessionPromiseRef s);
    try (exfalso; apply G; now split);
    destruct a2; reflexivity.
Qed.

(** [stopSession] never throws.  When its guard passes (the closure
    sees the session active, or a session promise is pending) it leaves
    every handle null and the live set empty, and a second call right
    after it, from any closure, changes nothing and releases nothing.
    That covers a session that has started and has not been closed.
    When the guard does not pass (the closure sees the session inactive
    and no session is pending) it is a no-op. *)
Theorem stop_idempotent :
  (forall active s, completion (stopSession active s) = Normal)
  /\ (forall a1 a2 s,
         ~ idle a1 s ->
         let o1 := stopSession a1 s in
         let o2 := stopSession a2 (after o1) in
         released (after o1)
         /\ released (after o2)
         /\ after o2 = after o1
         /\ effects o2 = [])
  /\ (forall ctx p active s0,
         let s := after (startSession (Connects ctx p) s0) in
         released (after (stopSession active s))
         /\ effects (stopSession active s)
            = SessionClose p
                :: match mediaStreamRef s0 with
                   | Some h => [TracksStop h] | None => [] end
                ++ match scriptProcessorRef s0 with
                   | Some h => [Disconnect h] | None => [] end
                ++ match mediaStreamSourceRef s0 with
                   | Some h => [Disconnect h] | None => [] end
                ++ match inputAudioContextRef s0 with
                   | Some h => [ContextClose h] | None => [] end
                ++ [ContextClose ctx])
  /\ (forall active s,
         idle active s ->
         stopSession active s
         = {| after := s; effects := []; completion := Normal |}).
Proof.
  split; [exact stopSession_completes|].
  split; [|split; [|exact stopSession_idle]].
  - intros a1 a2 s G o1 o2. subst o1 o2.
    rewrite (stopSession_again a1 a2 s G). cbn [after effects].
    pose proof (stopSession_releases a1 s G). auto.
  - intros ctx p active s0 s. subst s. split.
    + apply stopSession_releases. unfold idle. cbn. intros [_ H].
      discriminate.
    + unfold stopSession. cbn. destruct active; cbn; now rewrite ?app_nil_r.
Qed.

(** C6.  A stop does not always release the handles: the guard of
    [stopSession] reads the [isSessionActive] that its closure captured,
    and the closures of [onclose], [onerror] and the unmount cleanup
    captured false.  Here the session closes while [onopen] is waiting
    for the microphone: the stop from [onclose] passes the guard on the
    pending promise and nulls it; [onopen] then acquires the four capture
    handles and sets the session active.  From that reachable state a
    stop from such a closure, called twice in a row, does not throw but
    returns at the guard both times: nothing is released, the state is
    as before, and the media stream, the input context and both nodes
    stay held. *)
Theorem stale_stop_leaves_capture_held :
  let s := fst (run [Toggle (Connects 7%nat 9%nat); Close false;
                     Open (MediaGranted 1%nat 2%nat 3%nat 4%nat)] mount) in
  let o1 := stopSession false s in
  let o2 := stopSession false (after o1) in
  reachable s
  /\ (completion o1 = Normal /\ completion o2 = Normal)
  /\ (effects o1 = [] /\ effects o2 = [])
  /\ after o2 = s
  /\ isSessionActive s = true
  /\ sessionPromiseRef s = None
  /\ captureRefs s = [Some 1; Some 2; Some 4; Some 3]%nat
  /\ ~ released (after o2).
Proof.
  intros s o1 o2. split; [apply run_reachable; constructor|].
  repeat split; try reflexivity.
  intros (_ & M & _). discriminate M.
Qed.

(** ** The theorems on concrete runs *)

Section Instances.

Local Open Scope Q_scope.

(** C1, as stated, fails: the cursor is a number and each addition
    rounds.  Four frames of 1, 2, 2 and 1 samples on a freshly started
    session with the clock at 0: the fourth unit starts below the sum of
    the three durations before it (as numbers, and as the fractions
    1/24000 + 2/24000 + 2/24000), and before the third unit's exact
    end. *)
Lemma rounded_cursor_below_exact_sum :
  let s := after (startSession (Connects 7%nat 9%nat) mount) in
  let fs : list Frame :=
    [(Num 0, "AAA="%string); (Num 0, "AAAAAA=="%string);
     (Num 0, "AAAAAA=="%string); (Num 0, "AAA="%string)] in
  let units := scheduled (snd (run (audioEvents fs) s)) in
  (nextStartTimeRef s = 0 /\ sourcesRef s = []
   /\ Forall (fun f : Frame => fst f == 0) fs)
  /\ map (fun n => frames (buffer n)) units = [1; 2; 2; 1]%nat
  /\ exists u3 u4,
      nth_error units 2 = Some u3
      /\ nth_error units 3 = Some u4
      /\ startTime u4 < Qsum (map value (firstn 3 (durations units)))
      /\ startTime u4 < (1 # 24000) + (2 # 24000) + (2 # 24000)
      /\ startTime u4 < endTime u3.
Proof.
  intros s fs units. split; [|split].
  - split; [reflexivity|]. split; [reflexivity|].
    repeat constructor.
  - vm_compute. reflexivity.
  - eexists. eexists. split; [vm_compute; reflexivity|].
    split; [vm_compute; reflexivity|].
    repeat split; vm_compute; reflexivity.
Qed.

(** Two frames, of one and of two samples, on a freshly started session
    with the clock at 0: the second unit starts at the end computed for
    the first, and the cursor ends at the rounded sum of the two
    durations. *)
Lemma gapless_ordering_witness :
  let s := after (startSession (Connects 7%nat 9%nat) mount) in
  let fs : list Frame :=
    [(Num 0, "AAA="%string); (Num 0, "AAAAAA=="%string)] in
  let r := run (audioEvents fs) s in
  clockBehind 7%nat 0 fs
  /\ durations (scheduled (snd r)) = [Num (1 # 24000); Num (2 # 24000)]
  /\ nextStartTimeRef (fst r)
     == Number_add (Num (1 # 24000)) (Num (2 # 24000))
  /\ ForallOrdPairs (fun a b => scheduledEnd a <= startTime b)
                    (scheduled (snd r)).
Proof.
  intros s fs r.
  assert (clockBehind 7%nat 0 fs) as B.
  { vm_compute. repeat split; discriminate. }
  split; [exact B|].
  assert (Forall (fun f => playable 7%nat (snd f)) fs) as F.
  { repeat constructor; discriminate. }
  destruct (proj2 gapless_ordering 7%nat fs s eq_refl (Qeq_refl 0) eq_refl F B)
    as (_ & _ & D & _ & N & _ & O & _).
  split; [exact D|]. split; [|exact O].
  fold r in N. eapply Qeq_trans; [exact N|].
  vm_compute. reflexivity.
Defined.

(** A barge-in with one unit playing, then an audio frame at clock 5. *)
Lemma barge_in_clears_witness :
  let s := after (onmessage 0 (audio_delta "AAA=")
                    (after (startSession (Connects 7%nat 9%nat) mount))) in
  let s0 := after (onmessage 2 barge_in s) in
  (sourcesRef s0 = [] /\ nextStartTimeRef s0 = 0)
  /\ exists source,
      effects (onmessage 5 (audio_delta "AAA=") s0) = [SourceStart source]
      /\ startTime source = Math_max 0 5
      /\ 5 <= startTime source.
Proof.
  intros s s0. split.
  - assert (interrupted barge_in = true) as I by reflexivity.
    assert (completion (onmessage 2 barge_in s) = Normal) as N by reflexivity.
    destruct (proj1 (proj2 barge_in_clears) 2 barge_in s I N) as (L & C & _).
    split; [exact L | exact C].
  - assert ("AAA="%string <> ""%string) as P by discriminate.
    exact (proj2 (proj2 (proj2 (proj2 barge_in_clears)))
             2 5 "AAA="%string s 7%nat _ eq_refl P eq_refl).
Defined.

(** C4, as stated, fails when the user's buffer is not empty: after "Hi"
    from the user and "Yo" from the agent, with no turn-complete, the last
    entry is the agent's, and "Hel" then "lo" from the user add the entry
    {user, "HiHello"}. *)
Lemma fragments_after_other_speaker :
  let s := fst (run [Message 0 (transcription_delta user "Hi");
                     Message 0 (transcription_delta ai "Yo")] mount) in
  let s1 := after (onmessage 0 (transcription_delta user "Hel") s) in
  let s2 := after (onmessage 0 (transcription_delta user "lo") s1) in
  reachable s
  /\ last_not user (transcripts s) = true
  /\ transcripts s2
     = transcripts s ++ [{| speaker := user; text := "HiHello" |}]
  /\ transcripts s2
     <> transcripts s ++ [{| speaker := user; text := "Hello" |}].
Proof.
  intros s s1 s2. split; [|split; [|split]].
  - apply run_reachable. constructor.
  - reflexivity.
  - reflexivity.
  - discriminate.
Qed.

Lemma fragments_coalesce_witness :
  let s := after (onmessage 0 (transcription_delta ai "Yo") mount) in
  let s1 := after (onmessage 0 (transcription_delta user "Hel") s) in
  let s2 := after (onmessage 0 (transcription_delta user "lo") s1) in
  (currentInputRef s = ""%string /\ last_not user (transcripts s) = true)
  /\ transcripts s2
     = [{| speaker := ai; text := "Yo" |};
        {| speaker := user; text := "Hello" |}].
Proof.
  intros s s1 s2. split; [split; reflexivity|].
  exact (proj1 fragments_coalesce 0 0 s eq_refl eq_refl).
Defined.

(** C5, as stated, fails: the cursor is below the clock whenever the
    scheduler is idle and time has passed (here a turn-complete at clock 1
    on a fresh session), [stopSession] does not reset it, and a session
    start does. *)
Lemma cursor_behind_clock :
  let s := after (handle (Toggle (Connects 7%nat 9%nat)) mount) in
  let s1 := after (handle (Message 1 turn_complete) s) in
  let s2 := after (handle (Message 1 (audio_delta "AAA=")) s1) in
  let s3 := after (handle (Close false) s2) in
  let s4 := after (handle (Toggle (Connects 8%nat 10%nat)) s3) in
  reachable s4
  /\ (nextStartTimeRef s1 = 0 /\ ~ 1 <= nextStartTimeRef s1)
  /\ (1 < nextStartTimeRef s2
      /\ nextStartTimeRef s3 = nextStartTimeRef s2
      /\ ~ nextStartTimeRef s3 == 0)
  /\ nextStartTimeRef s4 = 0.
Proof.
  intros s s1 s2 s3 s4. split; [|split; [|split]].
  - repeat apply reachable_step. apply reachable_mount.
  - split; [reflexivity|]. intro H. vm_compute in H. now apply H.
  - split; [vm_compute; reflexivity|]. split; [reflexivity|].
    intro H. vm_compute in H. discriminate H.
  - reflexivity.
Qed.

Lemma cursor_discipline_witness :
  let s := after (startSession (Connects 7%nat 9%nat) mount) in
  let o := onmessage 1 (audio_delta "AAA=") s in
  exists source,
    effects o = [SourceStart source]
    /\ startTime source = Math_max 0 1
    /\ 1 <= startTime source
    /\ 1 <= nextStartTimeRef (after o).
Proof.
  intros s o.
  assert ("AAA="%string <> ""%string) as P by discriminate.
  destruct (proj1 cursor_discipline 1 (audio_delta "AAA=") s 7%nat
              "AAA="%string _ eq_refl eq_refl P eq_refl eq_refl)
    as (source & E & _ & St & L & _ & _ & _ & L').
  exists source. repeat split; assumption.
Defined.

(** C7, as stated, fails on "state unchanged": the cursor is clamped to
    the clock before the payload is decoded. *)
Lemma decode_failure_moves_cursor :
  let s := after (startSession (Connects 7%nat 9%nat) mount) in
  let o := onmessage 1 (audio_delta "!") s in
  decode "!" = None
  /\ completion o = Throws
  /\ nextStartTimeRef s = 0
  /\ nextStartTimeRef (after o) = 1
  /\ after o <> s.
Proof.
  intros s o. repeat split; try reflexivity.
  intro H. apply (f_equal nextStartTimeRef) in H. discriminate H.
Qed.

(** A payload of three bytes has no 16-bit view; the frame is dropped and
    the next one is played. *)
Lemma decode_failure_drops_frame_witness :
  let s := after (startSession (Connects 7%nat 9%nat) mount) in
  let s1 := after (onmessage 1 (audio_delta "AAAA") s) in
  let o := onmessage 2 (audio_delta "AAA=") s1 in
  decodePayload "AAAA" 7%nat = None
  /\ onmessage 1 (audio_delta "AAAA") s
     = {| after := with_playback (Math_max 0 1) [] 0%nat s;
          effects := [];
          completion := Throws |}
  /\ exists source,
      effects o = [SourceStart source] /\ sourcesRef (after o) = [source].
Proof.
  intros s s1 o.
  assert ("AAAA"%string <> ""%string) as P by discriminate.
  assert ("AAA="%string <> ""%string) as P' by discriminate.
  assert (1 <= 2) as L by discriminate.
  split; [reflexivity|]. split.
  - exact (proj1 decode_failure_drops_frame 1 "AAAA"%string s 7%nat
             eq_refl P eq_refl).
  - destruct (proj2 (proj2 decode_failure_drops_frame)
                1 2 "AAAA"%string "AAA="%string s 7%nat _
                eq_refl P eq_refl P' eq_refl L)
      as (source & source0 & E & _ & _ & _ & _ & S & _).
    exists source. split; [exact E | exact S].
Defined.

(** Stopping a session that is still connecting, twice. *)
Lemma stop_idempotent_witness :
  let s := after (startSession (Connects 7%nat 9%nat) mount) in
  let o1 := stopSession false s in
  let o2 := stopSession true (after o1) in
  ~ idle false s
  /\ effects o1 = [SessionClose 9%nat; ContextClose 7%nat]
  /\ released (after o1)
  /\ released (after o2)
  /\ after o2 = after o1
  /\ effects o2 = [].
Proof.
  intros s o1 o2.
  assert (~ idle false s) as G by (intros [_ H]; discriminate H).
  split; [exact G|]. split; [reflexivity|].
  exact (proj1 (proj2 stop_idempotent) false true s G).
Defined.

(** The agent says "Hi"; the message that ends its turn also carries the
    fragment "Yo". *)
Lemma turn_complete_blanks_entry_witness :
  let s := after (onmessage 0 (transcription_delta ai "Hi") mount) in
  let m := {| outputTranscription := Some (Some "Yo"%string);
              inputTranscription := None;
              turnComplete := true;
              modelTurn := NoModelTurn;
              interrupted := false |} in
  (transcripts s = [{| speaker := ai; text := "Hi" |}]
   /\ currentOutputRef s = "Hi"%string)
  /\ currentOutputRef (after (onmessage 0 m s)) = ""%string
  /\ transcripts (after (onmessage 0 m s))
     = [{| speaker := ai; text := "" |}]
  /\ transcripts (after (onmessage 0 (transcription_delta ai "Yo") s))
     = [{| speaker := ai; text := "HiYo" |}].
Proof.
  intros s m. split; [split; reflexivity|].
  split.
  - exact (proj2 (proj1 (proj2 turn_complete_blanks_entry) 0 m s eq_refl)).
  - exact (proj2 (proj2 (proj2 (proj2 turn_complete_blanks_entry)))
             0 s eq_refl eq_refl).
Defined.

Lemma transcript_alternates_witness :
  let s := fst (run [Message 0 (transcription_delta user "Hi");
                     Message 0 (transcription_delta user " there");
                     Message 0 (transcription_delta ai "Yo")] mount) in
  reachable s /\ alternating (transcripts s) = true.
Proof.
  intro s.
  assert (reachable s) as R by (apply run_reachable; constructor).
  split; [exact R|].
  exact (proj2 (proj2 (proj2 transcript_alternates)) s R).
Defined.

End Instances.

(** * Further properties *)

(** ** The codec *)

Lemma string_of_list_ascii_length l :
  String.length (string_of_list_ascii l) = List.length l.
Proof. induction l as [|c r IH]; cbn; congruence. Qed.

Lemma string_of_list_byte_length b :
  String.length (string_of_list_byte b) = List.length b.
Proof.
  unfold string_of_list_byte.
  now rewrite string_of_list_ascii_length, length_map.
Qed.

Lemma encode_units_size l :
  List.length (Base64.encode_units l)
  = (4 * ((List.length l + 2) / 3))%nat.
Proof.
  induction l as [| | |a b c r IH] using list_ind3; try reflexivity.
  cbn [Base64.encode_units List.length]. rewrite IH.
  replace (S (S (S (List.length r))) + 2)%nat
    with (List.length r + 2 + 1 * 3)%nat by lia.
  rewrite Nat.div_add by lia. lia.
Qed.

(** The payload of [n] bytes has four characters for every three bytes,
    the last group rounded up. *)
Theorem encode_length (b : list byte) :
  String.length (encode b) = (4 * ((List.length b + 2) / 3))%nat.
Proof.
  rewrite encode_btoa. unfold Base64.btoa.
  rewrite string_of_list_ascii_length, encode_units_size, length_map.
  f_equal. f_equal. f_equal.
  rewrite <- (string_of_list_byte_length b).
  generalize (string_of_list_byte b). intro t.
  induction t; cbn; congruence.
Qed.

(** Different byte arrays have different payloads. *)
Theorem encode_injective (b1 b2 : list byte) :
  encode b1 = encode b2 -> b1 = b2.
Proof.
  intro E. apply (f_equal decode) in E.
  rewrite !encode_btoa, !decode_btoa in E. now injection E.
Qed.

Lemma encode_injective_witness :
  encode ["M"%byte] = "TQ=="%string /\ ["M"%byte] = ["M"%byte].
Proof.
  split; [reflexivity|]. apply encode_injective. reflexivity.
Defined.

(** A buffer has a 16-bit view exactly when its length is even, and the
    elements of the view are in the 16-bit range. *)
Lemma Int16Array_of_buffer_view data :
  (Int16Array_of_buffer data = None <-> Nat.odd (List.length data) = true)
  /\ (forall a, Int16Array_of_buffer data = Some a -> Forall int16 a).
Proof.
  assert (forall l,
             ((Int16Array_of_buffer l = None
               <-> Nat.odd (List.length l) = true)
              /\ (forall a, Int16Array_of_buffer l = Some a -> Forall int16 a))
             /\ (forall x,
                    (Int16Array_of_buffer (x :: l) = None
                     <-> Nat.odd (List.length (x :: l)) = true)
                    /\ (forall a, Int16Array_of_buffer (x :: l) = Some a ->
                                  Forall int16 a))) as H.
  { induction l as [|y l [[IH0 IR0] IH1]]; split.
    - split; [split; discriminate|]. intros a E. injection E as <-.
      constructor.
    - intro x. split; [split; reflexivity|]. discriminate.
    - exact (IH1 y).
    - intro x. cbn [Int16Array_of_buffer List.length].
      change (Nat.odd (S (S (List.length l))))
        with (Nat.odd (List.length l)).
      destruct (Int16Array_of_buffer l) as [r|] eqn:El; split.
      + rewrite <- IH0. split; discriminate.
      + intros a E. injection E as <-. constructor.
        * apply wrap_int16_range.
        * now apply IR0.
      + rewrite <- IH0. split; reflexivity.
      + discriminate. }
  apply H.
Qed.

Lemma int16_sample v :
  int16 v -> (-1 <= inject_Z v / 32768 /\ inject_Z v / 32768 < 1)%Q.
Proof.
  unfold int16, Qle, Qlt, Qdiv, Qmult, Qinv, inject_Z. cbn. lia.
Qed.

Lemma int16_nth a i : Forall int16 a -> int16 (nth i a 0).
Proof.
  intro F. destruct (nth_in_or_default i a 0) as [H | ->].
  - rewrite Forall_forall in F. now apply F.
  - unfold int16. lia.
Qed.

(** On an implementation whose [createBuffer] accepts the shapes
    [supports], [decodeAudioData] rejects exactly the buffers with an odd
    number of bytes, a zero channel count, fewer 16-bit values than
    channels, or a channel count and rate that [createBuffer] does not
    support.  What it returns has the requested channel count and rate,
    one frame per [numChannels] values, [numChannels] channels of that
    many samples, and every sample in [-1, 1).  At the shape the program
    asks for, one channel at 24000 Hz, every implementation accepts, and
    only the bytes decide. *)
Theorem decodeAudioData_spec (supports : CreateBufferSupport)
    (data : list byte) (ctx : Handle) (rate : positive) (numChannels : nat) :
  (decodeAudioData supports data ctx rate numChannels = None
   <-> Nat.odd (List.length data) = true
       \/ numChannels = 0%nat
       \/ (List.length data / 2 / numChannels = 0)%nat
       \/ supports numChannels rate = false)
  /\ (forall b,
         decodeAudioData supports data ctx rate numChannels = Some b ->
         numberOfChannels b = numChannels
         /\ sampleRate b = rate
         /\ frames b = (List.length data / 2 / numChannels)%nat
         /\ (0 < duration b)%Q
         /\ List.length (channelData b) = numChannels
         /\ Forall (fun ch =>
                      List.length ch = frames b
                      /\ Forall (fun x => -1 <= x /\ x < 1)%Q ch)
                   (channelData b))
  /\ (requiredSupport 1%nat 24000%positive = true
      /\ (decodeAudioData requiredSupport data ctx 24000 1 = None
          <-> Nat.odd (List.length data) = true
              \/ (List.length data / 2 = 0)%nat)).
Proof.
  assert (forall sup r n,
             (decodeAudioData sup data ctx r n = None
              <-> Nat.odd (List.length data) = true
                  \/ n = 0%nat
                  \/ (List.length data / 2 / n = 0)%nat
                  \/ sup n r = false)
             /\ (forall b,
                    decodeAudioData sup data ctx r n = Some b ->
                    numberOfChannels b = n
                    /\ sampleRate b = r
                    /\ frames b = (List.length data / 2 / n)%nat
                    /\ (0 < duration b)%Q
                    /\ List.length (channelData b) = n
                    /\ Forall (fun ch =>
                                 List.length ch = frames b
                                 /\ Forall (fun x => -1 <= x /\ x < 1)%Q ch)
                              (channelData b))) as G.
  { intros sup r n.
    destruct (Int16Array_of_buffer_view data) as [Hodd Hrange].
    pose proof (Int16Array_of_buffer_length data) as Hlen.
    split.
    - unfold decodeAudioData.
      destruct (Int16Array_of_buffer data) as [a|] eqn:E.
      + specialize (Hlen a eq_refl).
        assert (List.length data / 2 = List.length a)%nat as Ha
            by (rewrite Hlen, Nat.mul_comm; apply Nat.div_mul; lia).
        assert (Nat.odd (List.length data) = false) as Hev.
        { destruct (Nat.odd (List.length data)); [|reflexivity].
          destruct Hodd as [_ K]. discriminate (K eq_refl). }
        rewrite Ha, Hev.
        destruct (Nat.eqb n 0) eqn:N0;
          [|destruct (Nat.eqb (List.length a / n) 0) eqn:F0;
            [|destruct (sup n r) eqn:S0]];
          cbn [orb negb].
        * apply Nat.eqb_eq in N0. split; auto.
        * apply Nat.eqb_eq in F0. split; auto.
        * apply Nat.eqb_neq in N0. apply Nat.eqb_neq in F0.
          split; [discriminate|]. intros [H|[H|[H|H]]]; congruence.
        * split; auto.
      + split; [|reflexivity]. intros _. left. now apply Hodd.
    - intros b Hb.
      pose proof (decodeAudioData_duration sup data ctx r n b Hb) as Hd.
      unfold decodeAudioData in Hb.
      destruct (Int16Array_of_buffer data) as [a|] eqn:E; [|discriminate].
      specialize (Hlen a eq_refl). specialize (Hrange a eq_refl).
      assert (List.length data / 2 = List.length a)%nat as Ha
          by (rewrite Hlen, Nat.mul_comm; apply Nat.div_mul; lia).
      destruct (Nat.eqb n 0 || Nat.eqb (List.length a / n) 0
                || negb (sup n r))%bool; [discriminate|].
      injection Hb as <-.
      cbn [numberOfChannels sampleRate frames channelData].
      rewrite Ha. repeat split.
      + exact Hd.
      + now rewrite length_map, length_seq.
      + apply Forall_map, Forall_forall. intros c _. split.
        * now rewrite length_map, length_seq.
        * apply Forall_map, Forall_forall. intros i _.
          apply int16_sample. now apply int16_nth. }
  split; [exact (proj1 (G supports rate numChannels))|].
  split; [exact (proj2 (G supports rate numChannels))|].
  split; [reflexivity|].
  rewrite (proj1 (G requiredSupport 24000%positive 1%nat)).
  rewrite Nat.div_1_r.
  split; [intros [H|[H|[H|H]]]; auto; discriminate | intros [H|H]; auto].
Qed.

Lemma decodeAudioData_spec_witness :
  exists b,
    decodeAudioData requiredSupport
      ["0"%byte; "1"%byte; "2"%byte; "3"%byte] 7%nat 24000 2
    = Some b
    /\ frames b = 1%nat
    /\ List.length (channelData b) = 2%nat.
Proof.
  eexists. split; [reflexivity|].
  destruct (proj1 (proj2 (decodeAudioData_spec requiredSupport
                     ["0"%byte; "1"%byte; "2"%byte; "3"%byte] 7%nat 24000 2))
              _ eq_refl) as (_ & _ & F & _ & L & _).
  split; [exact F | exact L].
Defined.

Lemma Uint8Array_of_Int16Array_length a :
  List.length (Uint8Array_of_Int16Array a) = (2 * List.length a)%nat.
Proof.
  induction a as [|v r IH]; [reflexivity|].
  cbn [Uint8Array_of_Int16Array flat_map bytes_of_int16 app List.length].
  fold (Uint8Array_of_Int16Array r). rewrite IH. lia.
Qed.

(** The blob [createBlob] makes of any sample array carries the fixed
    MIME tag and a payload that always decodes, to two bytes per sample.
    The inbound path on that payload returns, for a non-empty array, one
    channel holding the stored 16-bit value of each sample over 32768;
    for the empty array it fails (a buffer of zero frames). *)
Theorem createBlob_payload (samples : list Q) (ctx : Handle) :
  mimeType (createBlob samples) = "audio/pcm;rate=16000"%string
  /\ (exists bytes,
         decode (data (createBlob samples)) = Some bytes
         /\ List.length bytes = (2 * List.length samples)%nat)
  /\ (samples <> [] ->
      roundTrip samples ctx
      = Some [map (fun x => (inject_Z (ToInt16 (x * 32768)) / 32768)%Q)
                  samples])
  /\ roundTrip [] ctx = None.
Proof.
  split; [reflexivity|]. split; [|split; [|reflexivity]].
  - eexists. unfold createBlob. cbn [data].
    rewrite encode_btoa, decode_btoa. split; [reflexivity|].
    now rewrite Uint8Array_of_Int16Array_length, length_map.
  - intro Hne. unfold roundTrip, decodePayload, createBlob. cbn [data].
    rewrite encode_btoa, decode_btoa.
    erewrite decodeAudioData_mono.
    + cbn [option_map channelData]. now rewrite map_map.
    + reflexivity.
    + apply Int16Array_of_bytes. apply Forall_map.
      apply Forall_forall. intros x _. apply wrap_int16_range.
    + destruct samples; [contradiction | discriminate].
Qed.

Lemma createBlob_payload_witness :
  roundTrip [1 # 2; 3; -1]%Q 7%nat
  = Some [map (fun x => (inject_Z (ToInt16 (x * 32768)) / 32768)%Q)
              [1 # 2; 3; -1]%Q].
Proof.
  apply (proj1 (proj2 (proj2 (createBlob_payload [1 # 2; 3; -1]%Q 7%nat)))).
  discriminate.
Defined.

Lemma roundTrip_below_full_scale_witness :
  exists ys,
    roundTrip [1 # 3; -1; 0]%Q 7%nat = Some [ys]
    /\ Forall2 (fun x y => Qabs (y - x) < 1 # 32768)%Q [1 # 3; -1; 0]%Q ys.
Proof.
  apply roundTrip_below_full_scale.
  - discriminate.
  - repeat constructor; discriminate.
Defined.

(** ** The transcript over runs *)

Lemma string_app_assoc (a b c : string) :
  ((a ++ b) ++ c)%string = (a ++ (b ++ c))%string.
Proof. induction a; cbn; congruence. Qed.

Lemma string_app_empty (a : string) : (a ++ "")%string = a.
Proof. induction a; cbn; congruence. Qed.

(** Fragments of the speaker of the last entry keep growing that entry. *)
Lemma run_fragments_same who fs :
  forall s init,
    transcripts s = init ++ [{| speaker := who; text := bufferOf who s |}] ->
    let r := run (fragmentEvents who fs) s in
    let buf := (bufferOf who s ++ fold_right append "" (map snd fs))%string in
    transcripts (fst r) = init ++ [{| speaker := who; text := buf |}]
    /\ bufferOf who (fst r) = buf
    /\ snd r = [].
Proof.
  induction fs as [|[now f] fs IH]; intros s init T; cbn zeta.
  - cbn [fragmentEvents map run fst snd fold_right].
    rewrite string_app_empty. auto.
  - cbn [fragmentEvents map run handle fst snd fold_right].
    rewrite onmessage_transcription_delta. cbn [after effects app].
    fold (fragmentEvents who fs).
    destruct (onTranscription_delta who f s) as (B & Tr). cbn zeta in B, Tr.
    rewrite T in Tr.
    rewrite (updateTranscripts_same who _ init
               {| speaker := who; text := bufferOf who s |} eq_refl) in Tr.
    rewrite <- B in Tr.
    destruct (IH _ init Tr) as (T' & B' & L'). cbn zeta in T', B', L'.
    destruct (run (fragmentEvents who fs)
                  (afterFragment who f s))
      as [s' log].
    cbn [fst snd] in *. rewrite B, string_app_assoc in T', B'. auto.
Qed.

(** Any number of fragments of one speaker, arriving with no other
    message between them on a transcript whose last entry is not that
    speaker's, make one new entry: the speaker's buffer followed by the
    fragments in order.  Nothing is scheduled or stopped. *)
Theorem fragments_make_one_entry (who : Speaker) (fs : list (Q * string))
    (s : App) :
  fs <> [] ->
  last_not who (transcripts s) = true ->
  let r := run (fragmentEvents who fs) s in
  let buf := (bufferOf who s ++ fold_right append "" (map snd fs))%string in
  transcripts (fst r)
  = transcripts s ++ [{| speaker := who; text := buf |}]
  /\ bufferOf who (fst r) = buf
  /\ snd r = [].
Proof.
  intros Hne L. destruct fs as [|[now f] fs]; [contradiction|]. clear Hne.
  cbn zeta. cbn [fragmentEvents map run handle fst snd fold_right].
  rewrite onmessage_transcription_delta. cbn [after effects app].
  fold (fragmentEvents who fs).
  destruct (onTranscription_delta who f s) as (B & Tr). cbn zeta in B, Tr.
  rewrite (updateTranscripts_other who _ _ L) in Tr. rewrite <- B in Tr.
  destruct (run_fragments_same who fs _ _ Tr) as (T' & B' & L').
  cbn zeta in T', B', L'.
  destruct (run (fragmentEvents who fs)
                (afterFragment who f s))
    as [s' log].
  cbn [fst snd] in *. rewrite B, string_app_assoc in T', B'. auto.
Qed.

Lemma fragments_make_one_entry_witness :
  transcripts
    (fst (run (fragmentEvents ai [(0, "Good"); (1, " mor"); (2, "ning")]%Q)
              mount))
  = [{| speaker := ai; text := "Good morning" |}].
Proof.
  assert ([(0, "Good"%string); (1, " mor"%string); (2, "ning"%string)]%Q
          <> []) as Hne by discriminate.
  exact (proj1 (fragments_make_one_entry ai _ mount Hne eq_refl)).
Defined.

Lemma updateTranscripts_history who buf prev :
  let next := updateTranscripts who buf prev in
  firstn (List.length prev - 1) next = slice_init prev
  /\ (List.length prev <= List.length next <= S (List.length prev))%nat
  /\ last_entry next = Some {| speaker := who; text := buf |}.
Proof.
  cbn zeta.
  destruct (transcript_cases prev) as [-> | (init & l & ->)].
  - repeat split; cbn; lia.
  - rewrite slice_init_snoc.
    assert (List.length (init ++ [l]) - 1 = List.length init)%nat as E
        by (rewrite length_app; cbn; lia).
    rewrite E.
    destruct (Speaker_eqb (speaker l) who) eqn:S.
    + apply Speaker_eqb_eq in S.
      rewrite (updateTranscripts_same who buf init l S).
      rewrite last_entry_snoc, !length_app.
      rewrite firstn_app, Nat.sub_diag, firstn_all. cbn.
      rewrite app_nil_r. repeat split; lia.
    + rewrite updateTranscripts_other
        by (unfold last_not; now rewrite last_entry_snoc, S).
      rewrite last_entry_snoc, !length_app.
      rewrite <- app_assoc.
      rewrite firstn_app, Nat.sub_diag, firstn_all. cbn.
      rewrite app_nil_r. repeat split; lia.
Qed.

(** A message never loses history: every entry but the last is kept as it
    is, and the transcript keeps its length or grows by one entry.  When
    the message carries a transcription, the last entry afterwards is the
    speaker's, and its text is what the speaker's ref holds when the
    handler has run: the buffer with the fragment appended, or the empty
    string when the message also carries the turn-complete flag.  The
    agent's transcription is taken when both are present. *)
Theorem message_keeps_history (now : Number) (m : LiveServerMessage)
    (s : App) :
  let t := transcripts s in
  let t' := transcripts (after (onmessage now m s)) in
  firstn (List.length t - 1) t' = slice_init t
  /\ (List.length t <= List.length t' <= S (List.length t))%nat
  /\ (forall f, outputTranscription m = Some f ->
                last_entry t'
                = Some {| speaker := ai;
                          text := if turnComplete m then ""%string
                                  else append_text (currentOutputRef s) f |})
  /\ (forall f, outputTranscription m = None ->
                inputTranscription m = Some f ->
                last_entry t'
                = Some {| speaker := user;
                          text := if turnComplete m then ""%string
                                  else append_text (currentInputRef s) f |}).
Proof.
  cbn zeta. destruct (onmessage_text now m s) as (_ & _ & ->).
  destruct (onTranscription_buffers m s) as (Bo & Bi).
  unfold queuedUpdater.
  destruct (outputTranscription m) as [fo|];
    [|destruct (inputTranscription m) as [fi|]].
  - destruct (updateTranscripts_history ai
                (bufferOf ai (onTurnComplete m (onTranscription m s)))
                (transcripts s))
      as (P & L & E).
    split; [exact P|]. split; [exact L|]. split.
    + intros f [= <-]. rewrite E. do 2 f_equal.
      unfold onTurnComplete. destruct (turnComplete m); [reflexivity|].
      exact Bo.
    + discriminate.
  - destruct (updateTranscripts_history user
                (bufferOf user (onTurnComplete m (onTranscription m s)))
                (transcripts s))
      as (P & L & E).
    split; [exact P|]. split; [exact L|]. split.
    + discriminate.
    + intros f _ [= <-]. rewrite E. do 2 f_equal.
      unfold onTurnComplete. destruct (turnComplete m); [reflexivity|].
      exact Bi.
  - split; [reflexivity|]. split; [lia|]. split; discriminate.
Qed.

Lemma message_keeps_history_witness :
  let m := {| outputTranscription := Some (Some "Hi"%string);
              inputTranscription := Some None;
              turnComplete := true;
              modelTurn := NoModelTurn;
              interrupted := false |} in
  last_entry (transcripts (after (onmessage 0 m mount)))
  = Some {| speaker := ai; text := "" |}.
Proof.
  intro m.
  exact (proj1 (proj2 (proj2 (message_keeps_history 0 m mount)))
           (Some "Hi"%string) eq_refl).
Defined.

(** ** The rendered view *)

Lemma render_labels_alternate l :
  alternating l = true ->
  forall i a b,
    nth_error (map (fun t => match speaker t with
                             | user => "You"%string
                             | ai => "Kai"%string
                             end) l) i = Some a ->
    nth_error (map (fun t => match speaker t with
                             | user => "You"%string
                             | ai => "Kai"%string
                             end) l) (S i) = Some b ->
    a <> b.
Proof.
  induction l as [|x [|y r] IH]; intros A i a b Ha Hb.
  - destruct i; discriminate.
  - destruct i as [|[|i]]; discriminate.
  - change (alternating (x :: y :: r))
      with (negb (Speaker_eqb (speaker x) (speaker y))
            && alternating (y :: r)) in A.
    apply andb_true_iff in A as [Axy Ar].
    destruct i as [|i].
    + cbn in Ha, Hb. injection Ha as <-. injection Hb as <-.
      destruct (speaker x), (speaker y); cbn in Axy; discriminate.
    + exact (IH Ar i a b Ha Hb).
Qed.

(** What is on screen in any reachable state: one bubble per transcript
    entry with that entry's text, the placeholder exactly when there is
    no bubble, neighbouring bubbles labelled differently ("You" and
    "Kai" alternate), and the voice selector disabled exactly when the
    button reads "Stop". *)
Theorem render_reachable (s : App) :
  reachable s ->
  let v := render s in
  map (fun b => snd b) (bubbles v) = map text (transcripts s)
  /\ (placeholder v = true <-> bubbles v = [])
  /\ (forall i a b,
         nth_error (map (fun b => snd (fst b)) (bubbles v)) i = Some a ->
         nth_error (map (fun b => snd (fst b)) (bubbles v)) (S i) = Some b ->
         a <> b)
  /\ (selectDisabled v = true <-> snd (button v) = "Stop"%string).
Proof.
  intro R. cbn zeta. unfold render.
  cbn [bubbles placeholder button selectDisabled].
  split; [|split; [|split]].
  - rewrite map_map. reflexivity.
  - destruct (transcripts s); cbn; split; congruence.
  - rewrite map_map. cbn [fst snd].
    apply render_labels_alternate.
    induction R as [|e s _ IH]; [reflexivity|].
    now apply handle_alternating.
  - destruct (isSessionActive s); cbn; split; congruence.
Qed.

Lemma render_reachable_witness :
  let s := fst (run [Message 0 (transcription_delta user "Hi");
                     Message 0 (transcription_delta ai "Yo")] mount) in
  map (fun b => snd b) (bubbles (render s)) = ["Hi"%string; "Yo"%string].
Proof.
  intro s.
  assert (reachable s) as R by (apply run_reachable; constructor).
  exact (proj1 (render_reachable s R)).
Defined.

(** ** The live set over runs *)

Section LiveSet.

Local Open Scope Q_scope.

Lemma scheduled_app l1 l2 :
  scheduled (l1 ++ l2) = scheduled l1 ++ scheduled l2.
Proof. unfold scheduled. apply flat_map_app. Qed.

Lemma scheduled_stops (live : list SourceNode) :
  scheduled (map (fun source => SourceStop (node_id source)) live) = [].
Proof. induction live as [|n r IH]; [reflexivity | exact IH]. Qed.

(** What [stopSession] does to the live set, and which sources it
    stops. *)
Lemma stopSession_playback active s :
  let o := stopSession active s in
  scheduled (effects o) = []
  /\ created (after o) = created s
  /\ ((after o = s /\ effects o = [])
      \/ (sourcesRef (after o) = []
          /\ stopped (effects o) = map node_id (sourcesRef s))).
Proof.
  cbn zeta. unfold stopSession.
  destruct active, (sessionPromiseRef s);
    try (repeat split; now left);
    cbn [after effects sourcesRef created];
    (split; [|split; [reflexivity|right; split; [reflexivity|]]]);
    destruct (mediaStreamRef s), (scriptProcessorRef s),
      (mediaStreamSourceRef s), (inputAudioContextRef s),
      (outputAudioContextRef s);
    cbn [app];
    rewrite ?scheduled_stops, ?stopped_stops;
    try reflexivity;
    try (unfold scheduled; cbn [flat_map app];
         fold (scheduled
                 (map (fun source => SourceStop (node_id source))
                      (sourcesRef s)));
         now rewrite scheduled_stops);
    try (unfold stopped; cbn [flat_map app];
         fold (stopped
                 (map (fun source => SourceStop (node_id source))
                      (sourcesRef s)));
         now rewrite stopped_stops).
Qed.

(** What one message does to the scheduler cells. *)
Lemma onmessage_playback now m s :
  let o := onmessage now m s in
  let c := nextStartTimeRef s in
  (sourcesRef (after o) = sourcesRef s
   /\ created (after o) = created s
   /\ effects o = []
   /\ c <= nextStartTimeRef (after o))
  \/ (sourcesRef (after o) = []
      /\ created (after o) = created s
      /\ effects o = map (fun source => SourceStop (node_id source))
                         (sourcesRef s))
  \/ (exists b,
         let src := {| node_id := created s; buffer := b;
                       startTime := Math_max c now |} in
         0 < duration b
         /\ created (after o) = S (created s)
         /\ ((sourcesRef (after o) = sourcesRef s ++ [src]
              /\ nextStartTimeRef (after o) = scheduledEnd src
              /\ effects o = [SourceStart src])
             \/ (sourcesRef (after o) = []
                 /\ effects o
                    = SourceStart src
                        :: map (fun source => SourceStop (node_id source))
                               (sourcesRef s ++ [src])))).
Proof.
  cbn zeta.
  destruct (text_blocks_playback m s) as (Hc & Hs & Hn & _).
  cbn zeta in Hc, Hs, Hn.
  pose proof (Math_max_ge_l (nextStartTimeRef s) now) as M.
  destruct (onmessage_ends now m s) as (-> & -> & -> & -> & _).
  destruct (onAudio_cases now m (onTurnComplete m (onTranscription m s)))
    as [E|[(b & src & Hb & Es & E)|[E|E]]];
    rewrite E; clear E.
  - destruct (interrupted m) eqn:I.
    + right. left. rewrite (onInterrupted_set _ _ _ I).
      cbn [after effects with_playback sourcesRef created app].
      now rewrite Hs, Hn.
    + left. rewrite (onInterrupted_clear _ _ _ I). cbn [after effects].
      rewrite Hs, Hn, Hc. repeat split; trivial. lra.
  - right. right. exists b. cbn zeta. split; [exact Hb|].
    rewrite Hc, Hn in Es. subst src.
    destruct (interrupted m) eqn:I.
    + rewrite (onInterrupted_set _ _ _ I).
      cbn [after effects with_playback sourcesRef created app].
      rewrite Hc, Hs, Hn. split; [reflexivity|]. right. now split.
    + rewrite (onInterrupted_clear _ _ _ I).
      cbn [after effects with_playback sourcesRef created nextStartTimeRef].
      rewrite Hc, Hs, Hn. split; [reflexivity|]. left.
      repeat split.
  - left. cbn [after effects]. rewrite Hs, Hn, Hc.
    repeat split; trivial. lra.
  - left. cbn [after effects with_playback sourcesRef created
               nextStartTimeRef].
    rewrite Hs, Hn, Hc. repeat split; trivial.
Qed.

Lemma NoDup_map_filter (A B : Type) (f : A -> B) (p : A -> bool) l :
  NoDup (map f l) -> NoDup (map f (filter p l)).
Proof.
  induction l as [|x r IH]; intro N; [constructor|].
  cbn [map] in N. inversion N as [|? ? Hx Hr]; subst.
  cbn [filter]. destruct (p x); [|now apply IH].
  cbn [map]. constructor; [|now apply IH].
  intro H. apply Hx. apply in_map_iff in H as (y & Ey & Hy).
  apply filter_In in Hy as [Hy _]. apply in_map_iff. now exists y.
Qed.

Lemma Forall_filter_keep (A : Type) (P : A -> Prop) (p : A -> bool) l :
  Forall P l -> Forall P (filter p l).
Proof.
  intro F. apply Forall_forall. intros x Hx.
  apply filter_In in Hx as [Hx _]. rewrite Forall_forall in F. now apply F.
Qed.

Lemma ForallOrdPairs_filter (A : Type) (R : A -> A -> Prop)
    (p : A -> bool) l :
  ForallOrdPairs R l -> ForallOrdPairs R (filter p l).
Proof.
  induction 1 as [|x r Hx Hr IH]; [constructor|].
  cbn [filter]. destruct (p x); [|exact IH].
  constructor; [now apply Forall_filter_keep | exact IH].
Qed.

Lemma ForallOrdPairs_snoc (A : Type) (R : A -> A -> Prop) l x :
  ForallOrdPairs R l -> Forall (fun a => R a x) l ->
  ForallOrdPairs R (l ++ [x]).
Proof.
  induction 1 as [|y r Hy Hr IH]; intro F; cbn [app].
  - repeat constructor.
  - inversion F as [|? ? Fy Fr]; subst.
    constructor.
    + apply Forall_app. split; [exact Hy | now constructor].
    + now apply IH.
Qed.

(** Every handler keeps the sources of the live set distinct. *)
Lemma handle_distinctSources e s :
  distinctSources s ->
  distinctSources (after (handle e s))
  /\ (created s <= created (after (handle e s)))%nat.
Proof.
  intros [N F].
  assert (distinctSources s) as D by now split.
  assert (forall s', sourcesRef s' = [] -> distinctSources s') as Empty.
  { intros s' E. unfold distinctSources. rewrite E. split; constructor. }
  assert (forall a, distinctSources (after (stopSession a s))
                    /\ (created s <= created (after (stopSession a s)))%nat)
    as Stop.
  { intro a. destruct (stopSession_playback a s) as (_ & C & [[E _]|[E _]]).
    - rewrite E. split; [exact D | lia].
    - split; [now apply Empty | lia]. }
  destruct e as [env|env|d|now m|id|a msg|a|a]; cbn [handle].
  - unfold handleToggleSession. destruct (isSessionActive s); [apply Stop|].
    destruct env; cbn; (split; [|lia]); [exact D | now apply Empty].
  - destruct env; cbn; split; trivial.
  - split; trivial.
  - destruct (onmessage_playback now m s)
      as [(Es & Ec & _ & _)|[(Es & Ec & _)|(b & Hb & Ec & [(Es & _)|(Es & _)])]];
      cbn zeta in *.
    + unfold distinctSources. rewrite Es, Ec. split; [exact D | lia].
    + split; [now apply Empty | lia].
    + unfold distinctSources. rewrite Es, Ec. split; [split|lia].
      * rewrite map_app. cbn [map node_id].
        apply NoDup_app; [exact N | repeat constructor; intros []|].
        intros x Hx [Ex|[]]. apply in_map_iff in Hx as (n & En & Hn).
        rewrite Forall_forall in F. specialize (F n Hn). lia.
      * apply Forall_app. split.
        -- apply (Forall_impl _ (P := fun n => (node_id n < created s)%nat));
             [intros; lia | exact F].
        -- repeat constructor.
    + split; [now apply Empty | lia].
  - cbn. split; [|lia]. split.
    + now apply NoDup_map_filter.
    + now apply Forall_filter_keep.
  - unfold onerror.
    match goal with
    | |- context [stopSession a ?s1] =>
        destruct (stopSession_playback a s1) as (_ & C & [[E _]|[E _]])
    end.
    + rewrite E. split; [exact D | apply Nat.le_refl].
    + split; [now apply Empty | rewrite C; apply Nat.le_refl].
  - apply Stop.
  - apply Stop.
Qed.

Lemma reachable_distinctSources s : reachable s -> distinctSources s.
Proof.
  induction 1 as [|e s _ IH].
  - split; constructor.
  - now apply handle_distinctSources.
Qed.

(** The ['ended'] listener of a live source removes that source and no
    other, in every reachable state. *)
Theorem onended_removes_one (s : App) (n : SourceNode) :
  reachable s ->
  In n (sourcesRef s) ->
  let live' := sourcesRef (after (onended (node_id n) s)) in
  (forall k, In k live' <-> In k (sourcesRef s) /\ k <> n)
  /\ S (List.length live') = List.length (sourcesRef s).
Proof.
  intros R Hn. destruct (reachable_distinctSources s R) as [N _].
  cbn zeta. cbn [onended after with_playback sourcesRef].
  assert (forall k, In k (sourcesRef s) ->
                    (negb (Nat.eqb (node_id k) (node_id n)) = true
                     <-> k <> n)) as Id.
  { intros k Hk. rewrite negb_true_iff, Nat.eqb_neq. split.
    - intros H ->. now apply H.
    - intros H E. apply H. clear H.
      revert N Hk Hn E. generalize (sourcesRef s). intro l.
      induction l as [|x r IH]; intros N Hk Hn E; [contradiction|].
      cbn [map] in N. inversion N as [|? ? Hx Hr]; subst.
      destruct Hk as [<-|Hk], Hn as [<-|Hn]; trivial.
      + exfalso. apply Hx. rewrite E. now apply in_map.
      + exfalso. apply Hx. rewrite <- E. now apply in_map.
      + now apply IH. }
  split.
  - intro k. rewrite filter_In. split.
    + intros [Hk P]. split; [exact Hk|]. now apply Id.
    + intros [Hk P]. split; [exact Hk|]. now apply Id.
  - revert N Hn Id. generalize (sourcesRef s). intro l.
    induction l as [|x r IH]; intros N Hn Id; [contradiction|].
    cbn [map] in N. inversion N as [|? ? Hx Hr]; subst.
    cbn [filter List.length].
    destruct (Nat.eqb (node_id x) (node_id n)) eqn:E; cbn [negb].
    + f_equal. apply Nat.eqb_eq in E.
      assert (filter (fun source =>
                        negb (Nat.eqb (node_id source) (node_id n))) r = r)
        as ->; [|reflexivity].
      apply forallb_filter_id. apply forallb_forall. intros y Hy.
      rewrite negb_true_iff, Nat.eqb_neq. intro Ey.
      apply Hx. rewrite E, <- Ey. now apply in_map.
    + cbn [List.length]. f_equal. apply IH; trivial.
      * destruct Hn as [<-|Hn]; [|exact Hn].
        rewrite Nat.eqb_refl in E. discriminate.
      * intros k Hk. apply Id. now right.
Qed.

(** Every handler keeps the live set a queue that ends at the cursor. *)
Lemma handle_queued e s :
  0 <= nextStartTimeRef s -> queued s -> queued (after (handle e s)).
Proof.
  intros H0 [O F].
  assert (queued s) as Q by now split.
  assert (forall s', sourcesRef s' = [] -> queued s') as Empty.
  { intros s' E. unfold queued. rewrite E. split; constructor. }
  assert (forall a s1, sourcesRef s1 = sourcesRef s ->
                       nextStartTimeRef s1 = nextStartTimeRef s ->
                       queued (after (stopSession a s1))) as Stop.
  { intros a s1 Es Ec.
    destruct (stopSession_playback a s1) as (_ & _ & [[E _]|[E _]]).
    - rewrite E. unfold queued. now rewrite Es, Ec.
    - now apply Empty. }
  destruct e as [env|env|d|now m|id|a msg|a|a]; cbn [handle].
  - unfold handleToggleSession. destruct (isSessionActive s);
      [now apply Stop|].
    destruct env; [exact Q | now apply Empty].
  - destruct env; exact Q.
  - exact Q.
  - pose proof (Math_max_ge_l (nextStartTimeRef s) now) as M.
    destruct (onmessage_playback now m s)
      as [(Es & _ & _ & Ec)|[(Es & _)|(b & Hb & _ & [(Es & Ec & _)|(Es & _)])]];
      cbn zeta in *.
    + unfold queued. rewrite Es. split; [exact O|].
      apply (Forall_impl _ (P := fun n => 0 <= startTime n
                                          /\ scheduledEnd n
                                             <= nextStartTimeRef s));
        [|exact F].
      intros n [A B]. split; [exact A | lra].
    + now apply Empty.
    + pose proof (Number_add_ge_l (Math_max (nextStartTimeRef s) now)
                    (duration b) (Qlt_le_weak _ _ Hb)) as G.
      unfold queued. rewrite Es, Ec. rewrite scheduledEnd_source.
      split.
      * apply ForallOrdPairs_snoc; [exact O|].
        apply (Forall_impl _ (P := fun n => 0 <= startTime n
                                            /\ scheduledEnd n
                                               <= nextStartTimeRef s));
          [|exact F].
        cbn [startTime]. intros n [_ B]. lra.
      * apply Forall_app. split.
        -- apply (Forall_impl _ (P := fun n => 0 <= startTime n
                                             /\ scheduledEnd n
                                                <= nextStartTimeRef s));
             [|exact F].
           intros n [A B]. split; [exact A | lra].
        -- constructor; [|constructor]. rewrite scheduledEnd_source.
           cbn [startTime]. split; lra.
    + now apply Empty.
  - cbn [onended after]. unfold queued.
    cbn [with_playback sourcesRef nextStartTimeRef]. split.
    + now apply ForallOrdPairs_filter.
    + now apply Forall_filter_keep.
  - unfold onerror. now apply Stop.
  - unfold onclose. now apply Stop.
  - now apply Stop.
Qed.

Lemma ForallOrdPairs_impl (A : Type) (P : A -> Prop)
    (R R' : A -> A -> Prop) l :
  (forall a b, P a -> R a b -> R' a b) ->
  Forall P l -> ForallOrdPairs R l -> ForallOrdPairs R' l.
Proof.
  intros H F O. induction O as [|x r Hx Hr IH]; [constructor|].
  inversion F as [|? ? Px Pr]; subst. constructor.
  - apply (Forall_impl _ (P := R x)); [|exact Hx]. intros b. now apply H.
  - now apply IH.
Qed.

(** In every reachable state the live set is a queue on the output
    clock, whatever the clock did: no unit starts before the end the
    program computed for an earlier one, none starts before time 0 (so
    [start] is never given a negative time), and the end computed for
    each is at or after its start and at or before the cursor.  The
    computed end is the exact end rounded once, so the exact end of an
    earlier unit is past a later start by at most 2^-53 of that end. *)
Theorem live_set_queued (s : App) :
  reachable s ->
  ForallOrdPairs (fun a b => scheduledEnd a <= startTime b) (sourcesRef s)
  /\ Forall (fun n => 0 <= startTime n
                      /\ startTime n <= scheduledEnd n
                      /\ scheduledEnd n <= nextStartTimeRef s)
            (sourcesRef s)
  /\ ForallOrdPairs
       (fun a b => endTime a - startTime b <= endTime a * (1 # 2 ^ 53))
       (sourcesRef s).
Proof.
  intro R.
  assert (queued s) as [O F].
  { induction R as [|e s R IH].
    - split; constructor.
    - apply handle_queued; [now apply reachable_cursor_nonneg | exact IH]. }
  split; [exact O|]. split.
  - apply (Forall_impl _ (P := fun n => 0 <= startTime n
                                        /\ scheduledEnd n
                                           <= nextStartTimeRef s));
      [|exact F].
    intros n [A B]. split; [exact A|]. split; [|exact B].
    apply Number_add_ge_l, duration_nonneg.
  - apply (ForallOrdPairs_impl _
             (fun n => 0 <= startTime n
                       /\ scheduledEnd n <= nextStartTimeRef s)
             (fun a b => scheduledEnd a <= startTime b));
      [|exact F | exact O].
    intros a b [A _] L. pose proof (scheduledEnd_error a A). lra.
Qed.

(** The stops and starts of one handler. *)
Lemma handle_stops e s :
  let o := handle e s in
  (scheduled (effects o) = []
   \/ exists src, scheduled (effects o) = [src]
                  /\ node_id src = created s
                  /\ created (after o) = S (created s))
  /\ ((stopped (effects o) = []
       /\ incl (sourcesRef (after o))
               (sourcesRef s ++ scheduled (effects o)))
      \/ (sourcesRef (after o) = []
          /\ stopped (effects o)
             = map node_id (sourcesRef s ++ scheduled (effects o)))).
Proof.
  cbn zeta.
  assert (forall a s1, sourcesRef s1 = sourcesRef s ->
             let o := stopSession a s1 in
             (scheduled (effects o) = []
              \/ exists src, scheduled (effects o) = [src]
                             /\ node_id src = created s
                             /\ created (after o) = S (created s))
             /\ ((stopped (effects o) = []
                  /\ incl (sourcesRef (after o))
                          (sourcesRef s ++ scheduled (effects o)))
                 \/ (sourcesRef (after o) = []
                     /\ stopped (effects o)
                        = map node_id (sourcesRef s
                                       ++ scheduled (effects o)))))
    as Stop.
  { intros a s1 Es. cbn zeta.
    destruct (stopSession_playback a s1) as (Sc & _ & [[E L]|[E St]]);
      rewrite Sc, app_nil_r; (split; [now left|]).
    - left. rewrite L, E, Es. split; [reflexivity | apply incl_refl].
    - right. now rewrite E, St, Es. }
  destruct e as [env|env|d|now m|id|a msg|a|a]; cbn [handle].
  - unfold handleToggleSession. destruct (isSessionActive s);
      [now apply Stop|].
    destruct env; cbn; (split; [now left|]); left;
      (split; [reflexivity|]); rewrite app_nil_r;
      [apply incl_refl | apply incl_nil_l].
  - destruct env; cbn; (split; [now left|]); left;
      (split; [reflexivity|]); rewrite app_nil_r; apply incl_refl.
  - unfold onaudioprocess. cbn [after effects].
    destruct (sessionPromiseRef s); cbn; (split; [now left|]); left;
      (split; [reflexivity|]); rewrite app_nil_r; apply incl_refl.
  - destruct (onmessage_playback now m s)
      as [(Es & _ & Ef & _)|[(Es & _ & Ef)
                            |(b & Hb & Ec & [(Es & _ & Ef)|(Es & Ef)])]];
      cbn zeta in *; rewrite Ef, Es.
    + split; [now left|]. left. cbn. rewrite app_nil_r.
      split; [reflexivity | apply incl_refl].
    + rewrite scheduled_stops, stopped_stops, app_nil_r.
      split; [now left|]. now right.
    + split.
      * right. eexists. split; [reflexivity|]. now split.
      * left. split; [reflexivity | apply incl_refl].
    + change (SourceStart ?x :: ?l) with ([SourceStart x] ++ l).
      rewrite scheduled_app, stopped_app, scheduled_stops, stopped_stops.
      cbn [scheduled stopped flat_map app]. split.
      * right. eexists. split; [reflexivity|]. now split.
      * now right.
  - cbn. split; [now left|]. left. split; [reflexivity|].
    rewrite app_nil_r. intros x Hx. now apply filter_In in Hx.
  - unfold onerror. now apply Stop.
  - unfold onclose. now apply Stop.
  - now apply Stop.
Qed.

Lemma run_stops es :
  forall s,
    distinctSources s ->
    let log := snd (run es s) in
    NoDup (stopped log)
    /\ incl (stopped log) (map node_id (sourcesRef s ++ scheduled log))
    /\ NoDup (map node_id (scheduled log))
    /\ Forall (fun n => (created s <= node_id n)%nat) (scheduled log).
Proof.
  induction es as [|e r IH]; intros s D; cbn zeta.
  - cbn. repeat split; try constructor. apply incl_nil_l.
  - cbn [run].
    destruct (handle_distinctSources e s D) as [D' Hc].
    specialize (IH (after (handle e s)) D'). cbn zeta in IH.
    destruct (run r (after (handle e s))) as [s' log'].
    cbn [snd] in *. destruct IH as (N' & I' & Ns' & F').
    rewrite stopped_app, scheduled_app.
    destruct D as [N F]. rewrite Forall_forall in F, F'.
    destruct (handle_stops e s) as (Sched & Stops). cbn zeta in Sched, Stops.
    assert (forall n, In n (scheduled (effects (handle e s))) ->
                      node_id n = created s
                      /\ created (after (handle e s)) = S (created s))
      as Fresh.
    { destruct Sched as [->|(src & -> & A & B)]; [intros n []|].
      intros n [<-|[]]. now split. }
    assert (NoDup (map node_id (scheduled (effects (handle e s)))))
      as Nsched.
    { destruct Sched as [->|(src & -> & _)]; repeat constructor.
      intros []. }
    split; [|split; [|split]].
    + destruct Stops as [(-> & _)|(El & ->)]; [exact N'|].
      apply NoDup_app; [|exact N'|].
      * rewrite map_app. apply NoDup_app; [exact N | exact Nsched|].
        intros x Hx Hy. apply in_map_iff in Hx as (n & <- & Hn).
        apply in_map_iff in Hy as (k & Ek & Hk).
        specialize (F n Hn). destruct (Fresh k Hk) as [Ik _]. lia.
      * intros x Hx Hy. apply I' in Hy. rewrite El in Hy. cbn [app] in Hy.
        apply in_map_iff in Hy as (k & <- & Hk). specialize (F' k Hk).
        apply in_map_iff in Hx as (n & En & Hn).
        apply in_app_or in Hn as [Hn|Hn].
        -- specialize (F n Hn). lia.
        -- destruct (Fresh n Hn) as [In' Cn]. lia.
    + intros x Hx. apply in_app_or in Hx as [Hx|Hx].
      * destruct Stops as [(E & _)|(_ & E)]; rewrite E in Hx;
          [contradiction|].
        rewrite !map_app in *. apply in_app_or in Hx as [Hx|Hx];
          apply in_or_app; [now left|right].
        apply in_or_app. now left.
      * apply I' in Hx. rewrite !map_app in *.
        apply in_app_or in Hx as [Hx|Hx].
        -- destruct Stops as [(_ & Inc)|(E & _)].
           ++ apply in_map_iff in Hx as (n & <- & Hn). apply Inc in Hn.
              apply in_app_or in Hn as [Hn|Hn]; apply in_or_app;
                [left; now apply in_map|right].
              apply in_or_app. left. now apply in_map.
           ++ rewrite E in Hx. contradiction.
        -- apply in_or_app. right. apply in_or_app. now right.
    + rewrite map_app. apply NoDup_app; [exact Nsched | exact Ns'|].
      intros x Hx Hy. apply in_map_iff in Hx as (n & <- & Hn).
      apply in_map_iff in Hy as (k & Ek & Hk).
      destruct (Fresh n Hn) as [In' Cn]. specialize (F' k Hk). lia.
    + apply Forall_forall. intros n Hn. apply in_app_or in Hn as [Hn|Hn].
      * destruct (Fresh n Hn) as [In' _]. lia.
      * specialize (F' n Hn). lia.
Qed.

(** In any run from a reachable state no source is stopped twice and no
    source is started twice, and every source that is stopped was in the
    live set at the start of the run or was started during it. *)
Theorem no_double_stop (es : list Event) (s : App) :
  reachable s ->
  let log := snd (run es s) in
  NoDup (stopped log)
  /\ NoDup (map node_id (scheduled log))
  /\ incl (stopped log) (map node_id (sourcesRef s ++ scheduled log)).
Proof.
  intro R. cbn zeta.
  destruct (run_stops es s (reachable_distinctSources s R))
    as (N & I & Ns & _).
  auto.
Qed.

End LiveSet.

(** ** Session lifecycle over runs *)

(** A message writes no handle, flag or status line. *)
Lemma onmessage_sessionCells now m s :
  sessionCells (after (onmessage now m s)) = sessionCells s.
Proof.
  assert (sessionCells (onTurnComplete m (onTranscription m s))
          = sessionCells s) as T.
  { unfold onTurnComplete, onTranscription.
    destruct (turnComplete m), (outputTranscription m),
      (inputTranscription m); reflexivity. }
  assert (forall s1 done,
             sessionCells (after (onInterrupted m s1 done))
             = sessionCells s1) as I.
  { intros s1 done. unfold onInterrupted.
    destruct (interrupted m); reflexivity. }
  unfold onmessage. cbn [after].
  destruct (runUpdater_cells (queuedUpdater m)
              (after (onAudio now m (onTurnComplete m (onTranscription m s)))))
    as (_ & _ & _ & ->).
  destruct (onAudio_cases now m (onTurnComplete m (onTranscription m s)))
    as [E|[(b & src & _ & _ & E)|[E|E]]];
    rewrite E; clear E; rewrite ?I; exact T.
Qed.

Lemma onmessage_context now m s :
  outputAudioContextRef (after (onmessage now m s))
  = outputAudioContextRef s.
Proof.
  pose proof (onmessage_sessionCells now m s) as H.
  unfold sessionCells in H. now injection H.
Qed.

Lemma onmessage_promise now m s :
  sessionPromiseRef (after (onmessage now m s)) = sessionPromiseRef s.
Proof.
  pose proof (onmessage_sessionCells now m s) as H.
  unfold sessionCells in H. now injection H.
Qed.

(** Without an output context a message schedules nothing and leaves the
    cursor alone unless it carries the [interrupted] flag. *)
Lemma onmessage_no_context now m s :
  outputAudioContextRef s = None ->
  let o := onmessage now m s in
  scheduled (effects o) = []
  /\ (sourcesRef (after o) = sourcesRef s \/ sourcesRef (after o) = [])
  /\ effects o
     = (if interrupted m
        then match completion o with
             | Normal => map (fun source => SourceStop (node_id source))
                             (sourcesRef s)
             | Throws => []
             end
        else []).
Proof.
  intro C. cbn zeta.
  destruct (text_blocks_playback m s) as (_ & Hs & _ & Hx).
  cbn zeta in Hs, Hx. rewrite C in Hx.
  destruct (onmessage_ends now m s) as (_ & -> & _ & -> & ->).
  unfold onAudio. rewrite Hx.
  destruct (modelTurn m) as [| |[p|]];
    try (cbn; destruct (interrupted m); repeat split; auto; fail);
    unfold onInterrupted; destruct (interrupted m);
    cbn [after effects completion with_playback sourcesRef app];
    rewrite ?Hs, ?scheduled_stops; repeat split; auto.
Qed.

(** Units are live only while an output context is held: in every
    reachable state without one the live set is empty, and in any state
    without one a message starts no source. *)
Theorem live_only_with_context :
  (forall s, reachable s ->
             outputAudioContextRef s = None -> sourcesRef s = [])
  /\ (forall now m s,
         outputAudioContextRef s = None ->
         scheduled (effects (onmessage now m s)) = []).
Proof.
  split.
  - induction 1 as [|e s R IH]; [reflexivity|].
    assert (forall a s1,
               sourcesRef s1 = sourcesRef s ->
               outputAudioContextRef s1 = outputAudioContextRef s ->
               outputAudioContextRef (after (stopSession a s1)) = None ->
               sourcesRef (after (stopSession a s1)) = []) as Stop.
    { intros a s1 Es Ec. unfold stopSession.
      destruct a, (sessionPromiseRef s1); cbn; trivial.
      rewrite Es, Ec. exact IH. }
    destruct e as [env|env|d|now m|id|a msg|a|a]; cbn [handle].
    + unfold handleToggleSession. destruct (isSessionActive s);
        [now apply Stop|].
      destruct env; [exact IH | reflexivity].
    + destruct env; exact IH.
    + exact IH.
    + rewrite onmessage_context. intro C.
      destruct (onmessage_no_context now m s C) as (_ & [E|E] & _);
        cbn zeta in E; rewrite E; auto.
    + cbn. intro C. now rewrite (IH C).
    + unfold onerror. now apply Stop.
    + unfold onclose. now apply Stop.
    + now apply Stop.
  - intros now m s C. now apply onmessage_no_context.
Qed.

Lemma live_only_with_context_witness :
  let s := after (stopSession false
                    (after (onmessage 0 (audio_delta "AAA=")
                              (after (startSession (Connects 7%nat 9%nat)
                                                   mount))))) in
  outputAudioContextRef s = None
  /\ scheduled (effects (onmessage 3 (audio_delta "AAA=") s)) = [].
Proof.
  intro s. split; [reflexivity|].
  exact (proj2 live_only_with_context 3%Q (audio_delta "AAA=") s eq_refl).
Defined.

(** One late callback on a released component. *)
Lemma released_handle e s :
  released s -> lateCallback e = true ->
  effects (handle e s) = [] /\ released (after (handle e s)).
Proof.
  intros Rel L.
  assert (released s) as Rel0 by exact Rel.
  destruct Rel as (P & M & SP & MS & IC & OC & S).
  assert (forall a s1,
             sessionPromiseRef s1 = None -> mediaStreamRef s1 = None ->
             scriptProcessorRef s1 = None ->
             mediaStreamSourceRef s1 = None ->
             inputAudioContextRef s1 = None ->
             outputAudioContextRef s1 = None -> sourcesRef s1 = [] ->
             effects (stopSession a s1) = []
             /\ released (after (stopSession a s1))) as Stop.
  { intros a s1 P1 M1 SP1 MS1 IC1 OC1 S1. unfold stopSession.
    rewrite P1. destruct a; cbn [after effects].
    - rewrite M1, SP1, MS1, IC1, OC1, S1. split; [reflexivity|].
      repeat split.
    - split; [reflexivity|]. repeat split; assumption. }
  destruct e as [env|env|d|now m|id|a msg|a|a]; cbn [handle];
    try discriminate L.
  - unfold onaudioprocess. cbn [after effects]. rewrite P. now split.
  - destruct (onmessage_no_context now m s OC) as (_ & Live & Eff).
    cbn zeta in Live, Eff.
    pose proof (onmessage_sessionCells now m s) as Cells.
    set (s' := after (onmessage now m s)) in *. clearbody s'.
    unfold sessionCells in Cells.
    injection Cells as _ _ C1 C2 C3 C4 C5 C6.
    split.
    + rewrite Eff, S. destruct (interrupted m); [|reflexivity].
      now destruct (completion (onmessage now m s)).
    + unfold released. rewrite C1, C2, C3, C4, C5, C6.
      repeat split; trivial.
      destruct Live as [E|E]; rewrite E; trivial.
  - cbn. split; [reflexivity|]. unfold released. cbn.
    rewrite S. repeat split; assumption.
  - unfold onerror. now apply Stop.
  - unfold onclose. now apply Stop.
  - now apply Stop.
Qed.

(** Once a session has been torn down, whatever callbacks still arrive
    (messages, audio-process and ended events, errors, closes) call
    nothing on the platform and leave every handle null, until Start is
    pressed or [onopen] fires. *)
Theorem released_is_inert (es : list Event) (s : App) :
  released s ->
  forallb lateCallback es = true ->
  snd (run es s) = [] /\ released (fst (run es s)).
Proof.
  revert s. induction es as [|e r IH]; intros s Rel L.
  - now split.
  - cbn [forallb] in L. apply andb_true_iff in L as [Le Lr].
    destruct (released_handle e s Rel Le) as [E Rel'].
    specialize (IH _ Rel' Lr). cbn [run].
    destruct (run r (after (handle e s))) as [s' log].
    cbn [fst snd] in *. destruct IH as [-> R']. rewrite E. now split.
Qed.

Lemma released_is_inert_witness :
  let s := after (stopSession false
                    (after (startSession (Connects 7%nat 9%nat) mount))) in
  snd (run [Message 1 (audio_delta "AAA="); AudioProcess [1 # 2]%Q;
            Message 2 barge_in; Close false] s) = [].
Proof.
  intro s.
  assert (released s) as Rel by (repeat split).
  exact (proj1 (released_is_inert
                  [Message 1 (audio_delta "AAA="); AudioProcess [1 # 2]%Q;
                   Message 2 barge_in; Close false] s Rel eq_refl)).
Defined.

(** [onerror] tears the session down like [stopSession], and the status
    line it writes first is overwritten by the teardown: the error text
    stays on screen only when the closure's guard finds the session
    idle, in which case nothing is released. *)
Theorem onerror_status (active : bool) (message : string) (s : App) :
  (~ idle active s ->
   status (after (onerror active message s))
   = "Session stopped. Press Start to talk again."%string
   /\ released (after (onerror active message s))
   /\ effects (onerror active message s) = effects (stopSession active s))
  /\ (idle active s ->
      status (after (onerror active message s))
      = ("Error: " ++ message ++ ". Please try again.")%string
      /\ effects (onerror active message s) = []
      /\ sessionCells (after (onerror active message s))
         = (isSessionActive s,
            ("Error: " ++ message ++ ". Please try again.")%string,
            snd (sessionCells s))).
Proof.
  split.
  - intro G. unfold idle in G. unfold onerror, stopSession.
    cbn [sessionPromiseRef].
    destruct active, (sessionPromiseRef s);
      try (exfalso; apply G; now split);
      cbn [after effects status]; repeat split.
  - intros [-> E]. unfold onerror, stopSession.
    cbn [sessionPromiseRef]. rewrite E.
    cbn [after effects status]. repeat split.
    unfold sessionCells. cbn. now rewrite E.
Qed.

Lemma onerror_status_witness :
  let s := after (startSession (Connects 7%nat 9%nat) mount) in
  status (after (onerror false "timeout" s))
  = "Session stopped. Press Start to talk again."%string
  /\ status (after (onerror false "timeout" mount))
     = "Error: timeout. Please try again."%string.
Proof.
  intro s. split.
  - assert (~ idle false s) as G by (intros [_ H]; discriminate H).
    exact (proj1 (proj1 (onerror_status false "timeout" s) G)).
  - assert (idle false mount) as I by (split; reflexivity).
    exact (proj1 (proj2 (onerror_status false "timeout" mount) I)).
Defined.

(** While the session is shown active the microphone is held: in every
    reachable state with [isSessionActive] set, the media stream, the
    input context, the script processor and the media-stream source are
    all held.  The handles are acquired in the order of [onopen], so a
    later one is held only with the earlier ones.  The converse fails:
    when [onopen] stops after [getUserMedia] (here the [AudioContext]
    constructor throws), the stream is held while the session is shown
    inactive. *)
Theorem capture_held_when_active :
  (forall s,
      reachable s ->
      (isSessionActive s = true ->
       Forall (fun r => isNull r = false) (captureRefs s))
      /\ (isNull (scriptProcessorRef s) = false ->
          isNull (mediaStreamSourceRef s) = false)
      /\ (isNull (mediaStreamSourceRef s) = false ->
          isNull (inputAudioContextRef s) = false)
      /\ (isNull (inputAudioContextRef s) = false ->
          isNull (mediaStreamRef s) = false))
  /\ (let s := fst (run [Toggle (Connects 7%nat 9%nat);
                         Open (InputContextThrows 1%nat)] mount) in
      reachable s
      /\ isSessionActive s = false
      /\ captureRefs s = [Some 1%nat; None; None; None]).
Proof.
  split; [|split; [apply run_reachable; constructor | split; reflexivity]].
  induction 1 as [|e s R IH].
  { split; [discriminate|]. repeat split; discriminate. }
  assert (Forall (fun r => isNull r = false) (captureRefs s)
          <-> isNull (mediaStreamRef s) = false
              /\ isNull (inputAudioContextRef s) = false
              /\ isNull (scriptProcessorRef s) = false
              /\ isNull (mediaStreamSourceRef s) = false) as Held.
  { unfold captureRefs. split.
    - intro F. inversion F as [|? ? H1 F1]; subst.
      inversion F1 as [|? ? H2 F2]; subst.
      inversion F2 as [|? ? H3 F3]; subst.
      inversion F3 as [|? ? H4 F4]; subst. auto.
    - intros (H1 & H2 & H3 & H4). repeat constructor; assumption. }
  assert (forall a s1,
             captureRefs s1 = captureRefs s ->
             isSessionActive s1 = isSessionActive s ->
             let s' := after (stopSession a s1) in
             (isSessionActive s' = true ->
              Forall (fun r => isNull r = false) (captureRefs s'))
             /\ (isNull (scriptProcessorRef s') = false ->
                 isNull (mediaStreamSourceRef s') = false)
             /\ (isNull (mediaStreamSourceRef s') = false ->
                 isNull (inputAudioContextRef s') = false)
             /\ (isNull (inputAudioContextRef s') = false ->
                 isNull (mediaStreamRef s') = false)) as Stop.
  { intros a s1 Ec Ea. cbn zeta. unfold stopSession.
    destruct a, (sessionPromiseRef s1); cbn [after];
      try (split; [discriminate|]; repeat split; discriminate).
    unfold captureRefs in Ec. injection Ec as E1 E2 E3 E4.
    unfold captureRefs. now rewrite E1, E2, E3, E4, Ea. }
  destruct e as [env|env|d|now m|id|a msg|a|a]; cbn [handle].
  - unfold handleToggleSession. destruct (isSessionActive s) eqn:A.
    + now apply Stop.
    + destruct env; cbn [startSession after]; unfold captureRefs in *;
        cbn [mediaStreamRef inputAudioContextRef scriptProcessorRef
             mediaStreamSourceRef isSessionActive]; rewrite ?A;
        (split; [discriminate|]); apply IH.
  - destruct IH as (Act & C1 & C2 & C3). rewrite Held in Act.
    destruct env; cbn [onopen after]; unfold captureRefs, written;
      cbn [mediaStreamRef inputAudioContextRef scriptProcessorRef
           mediaStreamSourceRef isSessionActive acquired nth_error isNull];
      (split; [intro A; try specialize (Act A);
               repeat constructor; tauto
              |repeat split; tauto]).
  - exact IH.
  - pose proof (onmessage_sessionCells now m s) as Cells.
    set (s' := after (onmessage now m s)) in *. clearbody s'.
    unfold sessionCells in Cells.
    injection Cells as Ca _ _ C2 C3 _ C5 C6.
    unfold captureRefs in *. now rewrite Ca, C2, C3, C5, C6.
  - exact IH.
  - unfold onerror. now apply Stop.
  - unfold onclose. now apply Stop.
  - now apply Stop.
Qed.

Lemma capture_held_when_active_witness :
  let s := fst (run [Toggle (Connects 7%nat 9%nat);
                     Open (MediaGranted 1%nat 2%nat 3%nat 4%nat)] mount) in
  isSessionActive s = true
  /\ Forall (fun r => isNull r = false) (captureRefs s).
Proof.
  intro s. split; [reflexivity|].
  assert (reachable s) as R by (apply run_reachable; constructor).
  exact (proj1 (proj1 capture_held_when_active s R) eq_refl).
Defined.

(** An [onopen] that completes after the session was torn down takes the
    microphone again and shows the session active, with no session
    promise.  A [stopSession] from a closure that captured the inactive
    flag (the one [onclose], [onerror] and the unmount clean-up hold)
    then returns at its guard and releases nothing; only a closure that
    sees the session active releases the capture handles. *)
Theorem late_onopen_survives_stale_stop (active : bool) (s : App)
    (mediaStream inputAudioContext mediaStreamSource scriptProcessor
       : Handle) :
  ~ idle active s ->
  let s1 := after (stopSession active s) in
  let s2 := after (onopen (MediaGranted mediaStream inputAudioContext
                             mediaStreamSource scriptProcessor) s1) in
  isSessionActive s2 = true
  /\ sessionPromiseRef s2 = None
  /\ mediaStreamRef s2 = Some mediaStream
  /\ stopSession false s2
     = {| after := s2; effects := []; completion := Normal |}
  /\ effects (stopSession true s2)
     = [TracksStop mediaStream; Disconnect scriptProcessor;
        Disconnect mediaStreamSource; ContextClose inputAudioContext]
  /\ released (after (stopSession true s2)).
Proof.
  intro G. cbn zeta.
  pose proof (stopSession_releases active s G) as Rel.
  revert Rel. generalize (after (stopSession active s)). intros s1 Rel.
  destruct Rel as (P & M & SP & MS & IC & OC & S).
  unfold stopSession.
  cbn [onopen after effects sessionPromiseRef isSessionActive mediaStreamRef
       scriptProcessorRef mediaStreamSourceRef inputAudioContextRef
       outputAudioContextRef sourcesRef].
  rewrite P, OC, S. repeat split; reflexivity.
Qed.

Lemma late_onopen_survives_stale_stop_witness :
  let s := after (startSession (Connects 7%nat 9%nat) mount) in
  let s1 := after (stopSession false s) in
  let s2 := after (onopen (MediaGranted 1%nat 2%nat 3%nat 4%nat) s1) in
  mediaStreamRef s2 = Some 1%nat
  /\ effects (stopSession false s2) = [].
Proof.
  intros s s1 s2.
  assert (~ idle false s) as G by (intros [_ H]; discriminate H).
  destruct (late_onopen_survives_stale_stop false s 1%nat 2%nat 3%nat 4%nat G)
    as (_ & _ & M & N & _).
  split; [exact M|]. fold s1 s2 in N. now rewrite N.
Defined.

Lemma closed_app l1 l2 : closed (l1 ++ l2) = closed l1 ++ closed l2.
Proof. unfold closed. apply flat_map_app. Qed.

Lemma closed_stops (live : list SourceNode) :
  closed (map (fun source => SourceStop (node_id source)) live) = [].
Proof. induction live as [|n r IH]; [reflexivity | exact IH]. Qed.

(** [stopSession] closes the pending session promise and no other. *)
Lemma stopSession_closes active s :
  (forall p, In p (closed (effects (stopSession active s))) ->
             sessionPromiseRef s = Some p)
  /\ (forall p, sessionPromiseRef (after (stopSession active s)) = Some p ->
                sessionPromiseRef s = Some p).
Proof.
  assert (forall q,
             closed (effects (stopSession true s)) = q ->
             closed (effects (stopSession true s))
             = match sessionPromiseRef s with
               | Some h => [h] | None => [] end) as T.
  { intros q _. unfold stopSession.
    destruct (sessionPromiseRef s), (mediaStreamRef s),
      (scriptProcessorRef s), (mediaStreamSourceRef s),
      (inputAudioContextRef s), (outputAudioContextRef s);
      cbn [effects app]; unfold closed; cbn [flat_map app];
      fold (closed (map (fun source => SourceStop (node_id source))
                        (sourcesRef s)));
      now rewrite closed_stops. }
  specialize (T _ eq_refl).
  assert (sessionPromiseRef s <> None ->
          stopSession false s = stopSession true s) as F.
  { unfold stopSession. destruct (sessionPromiseRef s); congruence. }
  destruct active.
  - rewrite T. split.
    + destruct (sessionPromiseRef s); intros p H; [|contradiction].
      destruct H as [<-|[]]. reflexivity.
    + unfold stopSession. destruct (sessionPromiseRef s); discriminate.
  - destruct (sessionPromiseRef s) as [q|] eqn:Q.
    + rewrite F by discriminate. rewrite T. split.
      * intros p [<-|[]]. reflexivity.
      * unfold stopSession. rewrite Q. discriminate.
    + unfold stopSession. rewrite Q. cbn [after effects]. split.
      * intros p [].
      * rewrite Q. discriminate.
Qed.

(** The closes of one handler, and the promise it leaves pending. *)
Lemma handle_closes e s :
  (forall p, In p (closed (effects (handle e s))) ->
             sessionPromiseRef s = Some p)
  /\ (forall p, sessionPromiseRef (after (handle e s)) = Some p ->
                sessionPromiseRef s = Some p \/ In p (connected [e])).
Proof.
  assert (forall a s1,
             sessionPromiseRef s1 = sessionPromiseRef s ->
             (forall p, In p (closed (effects (stopSession a s1))) ->
                        sessionPromiseRef s = Some p)
             /\ (forall p,
                    sessionPromiseRef (after (stopSession a s1)) = Some p ->
                    sessionPromiseRef s = Some p \/ In p (connected []))) as Stop.
  { intros a s1 E. destruct (stopSession_closes a s1) as [C P].
    rewrite E in C, P. split; [exact C|]. intros p H. left. now apply P. }
  destruct e as [env|env|d|now m|id|a msg|a|a]; cbn [handle].
  - unfold handleToggleSession. destruct (isSessionActive s).
    + destruct (Stop true s eq_refl) as [C P]. split; [exact C|].
      intros p H. left. destruct (P p H) as [K|[]]. exact K.
    + destruct env as [|ctx q]; cbn; split.
      * intros p H. contradiction.
      * auto.
      * intros p H. contradiction.
      * intros p H. injection H as <-. right. now left.
  - destruct env; cbn; split; auto; intros p H; contradiction.
  - unfold onaudioprocess. cbn [after effects].
    split; [|auto]. destruct (sessionPromiseRef s); intros p [].
  - split.
    + destruct (onmessage_playback now m s)
        as [(_ & _ & Ef & _)|[(_ & _ & Ef)
                             |(b & _ & _ & [(_ & _ & Ef)|(_ & Ef)])]];
        cbn zeta in Ef; rewrite Ef; cbn [closed flat_map app];
        fold closed; rewrite ?closed_stops; intros p [].
    + rewrite onmessage_promise. auto.
  - cbn. split; [intros p [] | auto].
  - unfold onerror.
    match goal with
    | |- context [stopSession a ?s1] =>
        destruct (Stop a s1 eq_refl) as [C P]
    end.
    split; [exact C|]. intros p H. left. destruct (P p H) as [K|[]]. exact K.
  - unfold onclose. destruct (Stop a s eq_refl) as [C P].
    split; [exact C|]. intros p H. left. destruct (P p H) as [K|[]]. exact K.
  - destruct (Stop a s eq_refl) as [C P].
    split; [exact C|]. intros p H. left. destruct (P p H) as [K|[]]. exact K.
Qed.

Lemma connected_cons e es : connected (e :: es) = connected [e] ++ connected es.
Proof. unfold connected. cbn [flat_map]. now rewrite app_nil_r. Qed.

(** In any run, a session promise is closed only if it was pending at the
    start or was connected by a start during the run.  So pressing Start
    while an earlier session is still pending abandons that session: its
    promise is overwritten and no later event closes it. *)
Theorem only_pending_session_closed :
  (forall es s p,
      In p (closed (snd (run es s))) ->
      sessionPromiseRef s = Some p \/ In p (connected es))
  /\ (forall es s ctx p p0,
         isSessionActive s = false ->
         sessionPromiseRef s = Some p0 ->
         p <> p0 ->
         ~ In p0 (connected es) ->
         effects (handle (Toggle (Connects ctx p)) s) = []
         /\ ~ In p0 (closed (snd (run (Toggle (Connects ctx p) :: es) s)))).
Proof.
  assert (forall es s p,
             In p (closed (snd (run es s))) ->
             sessionPromiseRef s = Some p \/ In p (connected es)) as General.
  { induction es as [|e r IH]; intros s p H; [contradiction|].
    cbn [run] in H.
    destruct (handle_closes e s) as [C P].
    specialize (IH (after (handle e s)) p).
    destruct (run r (after (handle e s))) as [s' log]. cbn [snd] in *.
    rewrite closed_app in H. rewrite connected_cons.
    apply in_app_or in H as [H|H].
    - left. now apply C.
    - destruct (IH H) as [K|K].
      + destruct (P p K) as [K'|K']; [now left|].
        right. apply in_or_app. now left.
      + right. apply in_or_app. now right. }
  split; [exact General|].
  intros es s ctx p p0 A P0 Np Nc.
  assert (handle (Toggle (Connects ctx p)) s
          = startSession (Connects ctx p) s) as E
      by (cbn [handle]; unfold handleToggleSession; now rewrite A).
  split; [now rewrite E|].
  cbn [run]. rewrite E. cbn [startSession after effects app].
  match goal with
  | |- context [run es ?s1] =>
      specialize (General es s1 p0); destruct (run es s1) as [s' log]
  end.
  cbn [snd] in *. intro H. destruct (General H) as [K|K].
  - cbn in K. congruence.
  - contradiction.
Qed.

Lemma only_pending_session_closed_witness :
  let s := after (startSession (Connects 7%nat 9%nat) mount) in
  ~ In 9%nat
      (closed (snd (run [Toggle (Connects 8%nat 10%nat);
                         Message 0 barge_in; Close false;
                         Toggle (Connects 11%nat 12%nat); Unmount true] s))).
Proof.
  intro s.
  assert (10%nat <> 9%nat) as Np by discriminate.
  assert (~ In 9%nat (connected [Message 0 barge_in; Close false;
                                 Toggle (Connects 11%nat 12%nat);
                                 Unmount true])) as Nc.
  { cbn. intros [H|[]]. discriminate H. }
  exact (proj2 (proj2 only_pending_session_closed _ s 8%nat 10%nat 9%nat
                  eq_refl eq_refl Np Nc)).
Defined.

(** [startSession] empties the live set without stopping its sources:
    whatever was live when Start is pressed is never stopped by any later
    event. *)
Theorem restart_orphans_sources (es : list Event) (s : App)
    (ctx p : Handle) (n : SourceNode) :
  reachable s ->
  isSessionActive s = false ->
  In n (sourcesRef s) ->
  let log := snd (run (Toggle (Connects ctx p) :: es) s) in
  ~ In (node_id n) (stopped log).
Proof.
  intros R A Hn. cbn zeta. cbn [run handle].
  unfold handleToggleSession. rewrite A.
  cbn [startSession after effects app].
  destruct (reachable_distinctSources s R) as [_ F].
  rewrite Forall_forall in F. specialize (F n Hn).
  match goal with
  | |- context [run es ?s1] =>
      assert (distinctSources s1) as D by (split; constructor);
      destruct (run_stops es s1 D) as (_ & I & _ & C)
  end.
  cbn zeta in I, C. cbn [sourcesRef created app] in I, C.
  match goal with
  | |- context [run es ?s1] => destruct (run es s1) as [s' log]
  end.
  cbn [snd] in *. intro H. apply I in H.
  apply in_map_iff in H as (k & Ek & Hk).
  rewrite Forall_forall in C. specialize (C k Hk). lia.
Qed.

Lemma restart_orphans_sources_witness :
  let s := fst (run [Toggle (Connects 7%nat 9%nat);
                     Message 0 (audio_delta "AAA=")] mount) in
  map node_id (sourcesRef s) = [0%nat]
  /\ ~ In 0%nat (stopped (snd (run [Toggle (Connects 8%nat 10%nat);
                                    Message 1 barge_in; Unmount false] s))).
Proof.
  intro s. split; [reflexivity|].
  assert (reachable s) as R by (apply run_reachable; constructor).
  assert (In {| node_id := 0;
                buffer := {| numberOfChannels := 1; frames := 1;
                             sampleRate := 24000;
                             channelData := [[inject_Z 0 / 32768]%Q] |};
                startTime := Math_max 0 0 |} (sourcesRef s)) as Hn
      by (left; reflexivity).
  exact (restart_orphans_sources
           [Message 1 barge_in; Unmount false] s 8%nat 10%nat _
           R eq_refl Hn).
Defined.

(** The queue and stop theorems on a short run. *)
Lemma live_set_queued_witness :
  let s := fst (run [Toggle (Connects 7%nat 9%nat);
                     Message 5 (audio_delta "AAA=");
                     Message 2 (audio_delta "AAAAAA==")] mount) in
  List.length (sourcesRef s) = 2%nat
  /\ ForallOrdPairs (fun a b => scheduledEnd a <= startTime b)%Q
                    (sourcesRef s).
Proof.
  intro s. split; [reflexivity|].
  assert (reachable s) as R by (apply run_reachable; constructor).
  exact (proj1 (live_set_queued s R)).
Defined.

Lemma onended_removes_one_witness :
  let s := fst (run [Toggle (Connects 7%nat 9%nat);
                     Message 0 (audio_delta "AAA=");
                     Message 0 (audio_delta "AAAAAA==")] mount) in
  map node_id (sourcesRef s) = [0%nat; 1%nat]
  /\ S (List.length (sourcesRef (after (onended 0%nat s)))) = 2%nat.
Proof.
  intro s. split; [reflexivity|].
  assert (reachable s) as R by (apply run_reachable; constructor).
  assert (In {| node_id := 0;
                buffer := {| numberOfChannels := 1; frames := 1;
                             sampleRate := 24000;
                             channelData := [[inject_Z 0 / 32768]%Q] |};
                startTime := Math_max 0 0 |} (sourcesRef s)) as Hn
      by (left; reflexivity).
  exact (proj2 (onended_removes_one s _ R Hn)).
Defined.

Lemma no_double_stop_witness :
  let s := fst (run [Toggle (Connects 7%nat 9%nat);
                     Message 0 (audio_delta "AAA=")] mount) in
  NoDup (stopped (snd (run [Message 1 barge_in; Message 2 barge_in;
                            Close false] s))).
Proof.
  intro s.
  assert (reachable s) as R by (apply run_reachable; constructor).
  exact (proj1 (no_double_stop _ s R)).
Defined.

(** Each audio-process callback leaves the state alone and, while a
    session promise is pending, sends exactly one frame to it: the tagged
    blob of the input samples, whose payload decodes to two bytes per
    sample.  With no session promise it sends nothing. *)
Theorem onaudioprocess_sends (inputData : list Q) (s : App) :
  after (onaudioprocess inputData s) = s
  /\ completion (onaudioprocess inputData s) = Normal
  /\ (forall p,
         sessionPromiseRef s = Some p ->
         exists blob bytes,
           effects (onaudioprocess inputData s) = [SendRealtimeInput p blob]
           /\ mimeType blob = "audio/pcm;rate=16000"%string
           /\ decode (data blob) = Some bytes
           /\ List.length bytes = (2 * List.length inputData)%nat)
  /\ (sessionPromiseRef s = None ->
      effects (onaudioprocess inputData s) = []).
Proof.
  unfold onaudioprocess. cbn [after effects completion].
  split; [reflexivity|]. split; [reflexivity|]. split.
  - intros p ->. eexists. eexists. split; [reflexivity|].
    unfold createBlob. cbn [mimeType data]. split; [reflexivity|].
    rewrite encode_btoa, decode_btoa. split; [reflexivity|].
    now rewrite Uint8Array_of_Int16Array_length, length_map.
  - now intros ->.
Qed.

Lemma onaudioprocess_sends_witness :
  let s := after (startSession (Connects 7%nat 9%nat) mount) in
  exists blob bytes,
    effects (onaudioprocess [1 # 2; 0]%Q s) = [SendRealtimeInput 9%nat blob]
    /\ mimeType blob = "audio/pcm;rate=16000"%string
    /\ decode (data blob) = Some bytes
    /\ List.length bytes = 4%nat.
Proof.
  intro s.
  exact (proj1 (proj2 (proj2 (onaudioprocess_sends [1 # 2; 0]%Q s)))
           9%nat eq_refl).
Defined.

(** The cursor never moves backwards except by a reset: after any event
    it is at least what it was, or it is 0 and the event is a session
    start that connects or a message with the [interrupted] flag. *)
Theorem cursor_monotone (e : Event) (s : App) :
  (nextStartTimeRef s <= nextStartTimeRef (after (handle e s)))%Q
  \/ (nextStartTimeRef (after (handle e s)) = 0%Q /\ resetsCursor e s).
Proof.
  destruct e as [env|env|d|now m|id|a msg|a|a]; cbn [handle resetsCursor].
  - unfold handleToggleSession. destruct (isSessionActive s) eqn:A.
    + left. rewrite stopSession_cursor. apply Qle_refl.
    + destruct env; [left; apply Qle_refl | right; now split].
  - left. destruct env; apply Qle_refl.
  - left. apply Qle_refl.
  - pose proof (Math_max_ge_l (nextStartTimeRef s) now) as M.
    destruct (onmessage_cursor now m s)
      as [[I E]|[E|[E|(b & Hb & E)]]]; cbn zeta in E.
    + right. now split.
    + left. rewrite E. apply Qle_refl.
    + left. now rewrite E.
    + left. rewrite E.
      pose proof (Number_add_ge_l (Math_max (nextStartTimeRef s) now)
                    (duration b) (Qlt_le_weak _ _ Hb)).
      lra.
  - left. apply Qle_refl.
  - left. unfold onerror. rewrite stopSession_cursor. apply Qle_refl.
  - left. unfold onclose. rewrite stopSession_cursor. apply Qle_refl.
  - left. rewrite stopSession_cursor. apply Qle_refl.
Qed.
